(** * A schema-validated HTTP request engine, verified against its specification

    Shallow embedding of [src/generate-path.ts], [src/json.ts] and the
    request engine [createAPIClient] (the current [src/index.ts]), followed by
    the properties the specification states about them. *)

From Stdlib Require Import String Ascii List Bool ZArith Lia Arith.
From Stdlib Require Import DecimalString.
Import ListNotations.
Open Scope string_scope.

Set Implicit Arguments.

(* ================================================================== *)
(** * Part I — definitions                                              *)
(* ================================================================== *)

(** ** JavaScript strings *)

Section JsStrings.

(** The double-quote character, used inside error messages. *)
Definition dq : string := String (ascii_of_nat 34) EmptyString.

Definition isSlash (c : ascii) : bool := Ascii.eqb c "/"%char.

(** [\w] of a JavaScript regular expression: [[A-Za-z0-9_]]. *)
Definition isWordChar (c : ascii) : bool :=
  let n := nat_of_ascii c in
  (Nat.leb 65 n && Nat.leb n 90) || (Nat.leb 97 n && Nat.leb n 122)
  || (Nat.leb 48 n && Nat.leb n 57) || Nat.eqb n 95.

(** [s.startsWith(p)] *)
Definition startsWith (p s : string) : bool := String.prefix p s.

(** [s.endsWith(p)] *)
Definition endsWith (p s : string) : bool :=
  Nat.leb (String.length p) (String.length s) &&
  String.eqb (substring (String.length s - String.length p) (String.length p) s) p.

(** [s.slice(0, s.length - n)] *)
Definition dropLast (n : nat) (s : string) : string :=
  substring 0 (String.length s - n) s.

(** [s.slice(1)] *)
Definition slice1 (s : string) : string :=
  match s with EmptyString => EmptyString | String _ r => r end.

(** [s.split(/\/+/)]: the pieces between maximal runs of slashes.  The
    accumulator is [None] while a run of slashes is being skipped. *)
Fixpoint splitRun (acc : option string) (s : string) : list string :=
  match s with
  | EmptyString => [match acc with Some a => a | None => EmptyString end]
  | String c r =>
      if isSlash c then
        match acc with
        | Some a => a :: splitRun None r
        | None => splitRun None r
        end
      else
        splitRun (Some (match acc with Some a => a | None => EmptyString end
                        ++ String c EmptyString)) r
  end.

Definition splitSlashes (s : string) : list string := splitRun (Some EmptyString) s.

(** [xs.join(sep)] on strings. *)
Fixpoint join (sep : string) (xs : list string) : string :=
  match xs with
  | [] => EmptyString
  | [x] => x
  | x :: r => x ++ sep ++ join sep r
  end.

(** Longest prefix of word characters, and the rest. *)
Fixpoint spanWord (s : string) : string * string :=
  match s with
  | String c r =>
      if isWordChar c then let (w, t) := spanWord r in (String c w, t)
      else (EmptyString, s)
  | EmptyString => (EmptyString, EmptyString)
  end.

(** [s.includes(p)] *)
Fixpoint includes (p s : string) : bool :=
  String.prefix p s ||
  match s with
  | EmptyString => false
  | String _ r => includes p r
  end.

End JsStrings.

(** ** Path templater ([src/generate-path.ts]) *)

(** What a route parameter may hold at run time: the templater's own signature
    says [string | null]; the engine passes [string | number]; a key the
    object does not have reads as [undefined], unless it is one of the names
    every object inherits, which read as what is inherited. *)
Inductive PVal : Type :=
| PStr (s : string)
| PNum (n : Z)
| PNull
| PUndefined
| PInherited (name : string).

(** [String(n)] for an integer in the safe range. *)
Definition stringOfZ (n : Z) : string := NilZero.string_of_int (Z.to_int n).

(** The parameter object: own enumerable keys in insertion order.  Its
    prototype is the ordinary one, as for an object literal and for the
    default [{}] of [generatePath]. *)
Definition Params := list (string * PVal).

(** The properties of [Object.prototype]. *)
Definition inheritedNames : list string :=
  ["constructor"; "__defineGetter__"; "__defineSetter__"; "hasOwnProperty";
   "__lookupGetter__"; "__lookupSetter__"; "isPrototypeOf";
   "propertyIsEnumerable"; "toString"; "valueOf"; "__proto__";
   "toLocaleString"].

Definition inherits (key : string) : bool :=
  existsb (String.eqb key) inheritedNames.

(** The own property under [key], if there is one. *)
Fixpoint ownParam (params : Params) (key : string) : option PVal :=
  match params with
  | [] => None
  | (k, v) :: r => if String.eqb k key then Some v else ownParam r key
  end.

(** [params[key]]: the own property, else the inherited one, else
    [undefined]. *)
Definition getParam (params : Params) (key : string) : PVal :=
  match ownParam params key with
  | Some v => v
  | None => if inherits key then PInherited key else PUndefined
  end.

(** [v == null] *)
Definition isNullish (v : PVal) : bool :=
  match v with PNull | PUndefined => true | _ => false end.

(** [!!v] *)
Definition truthy (v : PVal) : bool :=
  match v with
  | PStr s => negb (String.eqb s EmptyString)
  | PNum n => negb (Z.eqb n 0)
  | PNull | PUndefined => false
  | PInherited _ => true
  end.

(** [String(v)] as [Array.prototype.join] applies it ([null] and [undefined]
    join as the empty string).  An inherited property is a built-in function,
    whose text is the engine's ([function name() { [native code] }] on V8),
    or, under [__proto__], the prototype object. *)
Definition pvalText (v : PVal) : string :=
  match v with
  | PStr s => s
  | PNum n => stringOfZ n
  | PNull | PUndefined => EmptyString
  | PInherited name =>
      if String.eqb name "__proto__" then "[object Object]"
      else "function "
           ++ (if String.eqb name "constructor" then "Object" else name)
           ++ "() { [native code] }"
  end.

(** [segment.match(/^:(\w+)(\??)$/)]: the key and whether the optional
    marker is there. *)
Definition keyMatch (segment : string) : option (string * bool) :=
  match segment with
  | String c r =>
      if Ascii.eqb c ":"%char then
        let (w, t) := spanWord r in
        if String.eqb w EmptyString then None
        else if String.eqb t EmptyString then Some (w, false)
        else if String.eqb t "?" then Some (w, true)
        else None
      else None
  | EmptyString => None
  end.

(** [segment.replace(/\?$/g, "")] *)
Definition stripOptionalMarker (segment : string) : string :=
  if endsWith "?" segment then dropLast 1 segment else segment.

(** The trailing-star rewrite at the top of [generatePath]:
    [path.replace(/\*$/, "/*")] when the path ends in a star that does not
    follow a slash (a warning is printed, nothing fails). *)
Definition needsStarRewrite (path : string) : bool :=
  endsWith "*" path && negb (String.eqb path "*") && negb (endsWith "/*" path).

Definition normalizeStar (path : string) : string :=
  if needsStarRewrite path then dropLast 1 path ++ "/*" else path.

(** Errors of the whole library. *)
Inductive Err : Type :=
| MissingParam (key : string)              (* invariant(false, `Missing ":key" param`) *)
| EndpointNotString                        (* TypeError *)
| MissingEndpoint (endpoint : string)      (* ReferenceError *)
| ZodError (what : string)                 (* a schema rejected its input *)
| AbortError                               (* DOMException("Aborted", "AbortError") *)
| NonJsonResponse (endpoint : string)      (* TypeError *)
| InvalidJsonResponse (endpoint : string)  (* Error *)
| MissingFailureSchema (endpoint : string) (* ReferenceError *)
| StatusError (endpoint : string) (status : Z) (* Error *)
| EntriesOfNullish                         (* TypeError of Object.entries *)
| SymbolToString                           (* TypeError: a symbol joined into a string *)
| HookError (what : string).               (* thrown by a caller-supplied hook *)

Inductive Result (A : Type) : Type :=
| Ok (a : A)
| Throw (e : Err).
Arguments Ok {A} a.
Arguments Throw {A} e.

(** The callback of [.map((segment, index, array) => ...)]. *)
Definition resolveSegment (params : Params) (isLastSegment : bool)
           (segment : string) : Result PVal :=
  if isLastSegment && String.eqb segment "*" then
    Ok (getParam params "*")
  else
    match keyMatch segment with
    | Some (key, optional) =>
        let param := getParam params key in
        if optional then
          Ok (if isNullish param then PStr EmptyString else param)
        else if isNullish param then Throw (MissingParam key)
        else Ok param
    | None => Ok (PStr (stripOptionalMarker segment))
    end.

(** [segments.map(callback)]: the first throwing segment aborts the map. *)
Fixpoint mapSegments (params : Params) (segments : list string) : Result (list PVal) :=
  match segments with
  | [] => Ok []
  | seg :: rest =>
      match resolveSegment params (match rest with [] => true | _ => false end) seg with
      | Throw e => Throw e
      | Ok v =>
          match mapSegments params rest with
          | Throw e => Throw e
          | Ok vs => Ok (v :: vs)
          end
      end
  end.

Definition pathPrefix (path : string) : string :=
  if startsWith "/" path then "/" else EmptyString.

Definition pathTrailingSlash (path : string) : string :=
  if endsWith "/" path then "/" else EmptyString.

Definition generatePath (originalPath : string) (params : Params) : Result string :=
  let path := normalizeStar originalPath in
  let prefix := pathPrefix path in
  let trailingSlash := pathTrailingSlash path in
  match mapSegments params (splitSlashes path) with
  | Throw e => Throw e
  | Ok vs =>
      Ok (prefix ++ join "/" (map pvalText (filter truthy vs)) ++ trailingSlash)
  end.

(** [obj[k] = v] on an entry list: overwrite in place or append. *)
Fixpoint setProp {A : Type} (k : string) (v : A) (o : list (string * A))
  : list (string * A) :=
  match o with
  | [] => [(k, v)]
  | (k', v') :: r =>
      if String.eqb k' k then (k, v) :: r else (k', v') :: setProp k v r
  end.

(** [delete obj[k]], and the removal of every pair named [k]. *)
Definition removeKey {A : Type} (k : string) (o : list (string * A))
  : list (string * A) :=
  filter (fun kv => negb (String.eqb (fst kv) k)) o.

(** ** JavaScript values *)

(** The values the engine handles: JSON-compatible ones plus the kinds the
    query encoder and the serializer must skip.  Numbers are integers of the
    safe range; an object lists its own enumerable string keys in insertion
    order (array-index keys, which JavaScript enumerates first, are not
    modelled). *)
#[warnings="-register-all"]
Inductive value : Type :=
| VUndefined
| VNull
| VBool (b : bool)
| VNumber (n : Z)
| VString (s : string)
| VArray (items : list value)
| VObject (entries : list (string * value))
| VSymbol (description : string)
| VFunction (source : string).

(** [Object.fromEntries(entries)] *)
Definition fromEntries (entries : list (string * value)) : list (string * value) :=
  fold_left (fun o kv => setProp (fst kv) (snd kv) o) entries [].

(** Nesting depth, the fuel the serializer's walk needs. *)
Fixpoint height (v : value) : nat :=
  match v with
  | VArray items => S (fold_right (fun x n => Nat.max (height x) n) 0 items)
  | VObject entries => S (fold_right (fun kv n => Nat.max (height (snd kv)) n) 0 entries)
  | _ => 0
  end.

(** ** The inflector ([underscore] and [camelize] of the npm package
    [inflected], imported by [src/json.ts]) *)

Definition isUpper (c : ascii) : bool :=
  let n := nat_of_ascii c in Nat.leb 65 n && Nat.leb n 90.
Definition isLower (c : ascii) : bool :=
  let n := nat_of_ascii c in Nat.leb 97 n && Nat.leb n 122.
Definition isDigit (c : ascii) : bool :=
  let n := nat_of_ascii c in Nat.leb 48 n && Nat.leb n 57.
Definition toLower (c : ascii) : ascii :=
  if isUpper c then ascii_of_nat (nat_of_ascii c + 32) else c.
Definition toUpper (c : ascii) : ascii :=
  if isLower c then ascii_of_nat (nat_of_ascii c - 32) else c.

Fixpoint mapString (f : ascii -> ascii) (s : string) : string :=
  match s with
  | EmptyString => EmptyString
  | String c r => String (f c) (mapString f r)
  end.

Fixpoint lastChar (s : string) : option ascii :=
  match s with
  | EmptyString => None
  | String c EmptyString => Some c
  | String _ r => lastChar r
  end.

(** [result.replace(/([A-Z\d]+)([A-Z][a-z])/g, "$1_$2")].  [run] is the
    maximal run of capitals and digits read so far and not yet written; a
    match can only end a run of two or more whose last character is a capital
    followed by a small letter. *)
Fixpoint breakAcronyms (run : string) (s : string) : string :=
  match s with
  | EmptyString => run
  | String c r =>
      if isUpper c || isDigit c then breakAcronyms (run ++ String c EmptyString) r
      else if isLower c && Nat.leb 2 (String.length run)
              && match lastChar run with Some l => isUpper l | None => false end
      then dropLast 1 run ++ "_"
           ++ substring (String.length run - 1) 1 run
           ++ String c (breakAcronyms EmptyString r)
      else run ++ String c (breakAcronyms EmptyString r)
  end.

(** [result.replace(/([a-z\d])([A-Z])/g, "$1_$2")] *)
Fixpoint breakWords (prev : option ascii) (s : string) : string :=
  match s with
  | EmptyString => EmptyString
  | String c r =>
      let tail := String c (breakWords (Some c) r) in
      match prev with
      | Some p => if (isLower p || isDigit p) && isUpper c
                  then String "_"%char tail else tail
      | None => tail
      end
  end.

Definition dashToUnderscore (c : ascii) : ascii :=
  if Ascii.eqb c "-"%char then "_"%char else c.

(** Modelled from the spec: [underscore] of the [inflected] package, the
    internal-to-wire key translation; the package is a dependency and not part
    of the sources, so the definition follows its published algorithm with
    the default (empty) acronym table, on ASCII. *)
Definition underscore (camelCasedWord : string) : string :=
  mapString toLower
    (mapString dashToUnderscore
       (breakWords None (breakAcronyms EmptyString camelCasedWord))).

(** The global, case-insensitive replacement of [camelize]: every underscore
    or slash followed by a (possibly empty) run of letters and digits becomes
    the slash, if any, and the capitalized run.  [afterSep] holds right after
    an underscore or a slash. *)
Fixpoint capitalizeParts (afterSep : bool) (s : string) : string :=
  match s with
  | EmptyString => EmptyString
  | String c r =>
      if Ascii.eqb c "_"%char then capitalizeParts true r
      else if Ascii.eqb c "/"%char then String c (capitalizeParts true r)
      else if isUpper c || isLower c || isDigit c
           then String (if afterSep then toUpper c else c) (capitalizeParts false r)
           else String c (capitalizeParts false r)
  end.

(** Modelled from the spec: [camelize(term, false)] of the [inflected]
    package, the wire-to-internal key translation (same provenance as
    [underscore]): the first word character is lowered, then every
    underscore-led part is capitalized. *)
Definition camelize (term : string) : string :=
  capitalizeParts false
    match term with
    | String c r => if isWordChar c then String (toLower c) r else term
    | EmptyString => EmptyString
    end.

(** ** Key-casing codec ([src/json.ts]) *)

(** The replacer passed to [JSON.stringify] by [serialize]. *)
Definition serializeReplacer (_key : string) (v : value) : value :=
  match v with
  | VObject entries =>
      VObject (fromEntries (map (fun kv => (underscore (fst kv), snd kv)) entries))
  | _ => v
  end.

(** The reviver passed to [JSON.parse] by [parse]. *)
Definition parseReviver (_key : string) (v : value) : value :=
  match v with
  | VObject entries =>
      VObject (fromEntries (map (fun kv => (camelize (fst kv), snd kv)) entries))
  | _ => v
  end.

(** Outcome of [JSON.stringify]'s property walk. *)
Inductive Walk : Type :=
| OutOfFuel
| Omitted                 (* undefined: the property is left out *)
| Doc (document : value).

(** Array elements: a left-out element is written as [null]. *)
Fixpoint walkItems (walk : string -> value -> Walk) (index : nat)
         (items : list value) : option (list value) :=
  match items with
  | [] => Some []
  | x :: r =>
      match walk (stringOfZ (Z.of_nat index)) x, walkItems walk (S index) r with
      | OutOfFuel, _ | _, None => None
      | Omitted, Some ys => Some (VNull :: ys)
      | Doc d, Some ys => Some (d :: ys)
      end
  end.

(** Object entries: a left-out property is dropped. *)
Fixpoint walkEntries (walk : string -> value -> Walk)
         (entries : list (string * value)) : option (list (string * value)) :=
  match entries with
  | [] => Some []
  | (k, x) :: r =>
      match walk k x, walkEntries walk r with
      | OutOfFuel, _ | _, None => None
      | Omitted, Some ys => Some ys
      | Doc d, Some ys => Some ((k, d) :: ys)
      end
  end.

(** [SerializeJSONProperty] of [JSON.stringify(value, replacer)]: the replacer
    sees a value first, then the walk descends into what it returned. *)
Fixpoint stringifyWalk (fuel : nat) (replacer : string -> value -> value)
         (key : string) (v : value) : Walk :=
  match fuel with
  | O => OutOfFuel
  | S fuel' =>
      match replacer key v with
      | VUndefined | VSymbol _ | VFunction _ => Omitted
      | VArray items =>
          match walkItems (stringifyWalk fuel' replacer) 0 items with
          | Some ys => Doc (VArray ys)
          | None => OutOfFuel
          end
      | VObject entries =>
          match walkEntries (stringifyWalk fuel' replacer) entries with
          | Some ys => Doc (VObject ys)
          | None => OutOfFuel
          end
      | atom => Doc atom
      end
  end.

(** [InternalizeJSONProperty] of [JSON.parse(text, reviver)]: children first,
    a child revived to [undefined] is deleted, then the reviver sees the
    holder. *)
Fixpoint reviveWalk (reviver : string -> value -> value)
         (key : string) (v : value) : value :=
  reviver key
    match v with
    | VArray items =>
        VArray
          ((fix each (index : nat) (l : list value) : list value :=
              match l with
              | [] => []
              | x :: r =>
                  reviveWalk reviver (stringOfZ (Z.of_nat index)) x
                  :: each (S index) r
              end) 0 items)
    | VObject entries =>
        VObject
          (filter (fun kv => match snd kv with VUndefined => false | _ => true end)
             (map (fun kv => (fst kv, reviveWalk reviver (fst kv) (snd kv))) entries))
    | _ => v
    end.

Section Codec.

(** The platform's JSON text layer: how a document is written as text and
    how text is read back ([None]: a [SyntaxError]). *)
Variable JSON_text : value -> string.
Variable JSON_read : string -> option value.

(** [serialize(input)]: [None] is [undefined], what [JSON.stringify] gives
    for a value that is left out. *)
Definition serialize (input : value) : option string :=
  match stringifyWalk (S (height input)) serializeReplacer EmptyString input with
  | Doc d => Some (JSON_text d)
  | _ => None
  end.

(** [parse(input)]: [None] is the [SyntaxError] of [JSON.parse]. *)
Definition parse (input : string) : option value :=
  match JSON_read input with
  | Some d => Some (reviveWalk parseReviver EmptyString d)
  | None => None
  end.

End Codec.

(** ** Query encoder ([getSearchParams] of [src/index.ts]) *)

(** [String(v)].  An array is joined, its [null] and [undefined] elements
    as empty texts; a symbol among the elements cannot be joined, a
    [TypeError]. *)
Fixpoint valueText (v : value) : Result string :=
  match v with
  | VUndefined => Ok "undefined"
  | VNull => Ok "null"
  | VBool true => Ok "true"
  | VBool false => Ok "false"
  | VNumber n => Ok (stringOfZ n)
  | VString s => Ok s
  | VArray items =>
      match (fix each (l : list value) : Result (list string) :=
               match l with
               | [] => Ok []
               | x :: r =>
                   match match x with
                         | VUndefined | VNull => Ok EmptyString
                         | VSymbol _ => Throw SymbolToString
                         | _ => valueText x
                         end with
                   | Throw e => Throw e
                   | Ok t => match each r with
                             | Throw e => Throw e
                             | Ok ts => Ok (t :: ts)
                             end
                   end
               end) items with
      | Ok ts => Ok (join "," ts)
      | Throw e => Throw e
      end
  | VObject _ => Ok "[object Object]"
  | VSymbol d => Ok ("Symbol(" ++ d ++ ")")
  | VFunction src => Ok src
  end.

Fixpoint indexed {A : Type} (index : nat) (xs : list A) : list (string * A) :=
  match xs with
  | [] => []
  | x :: r => (stringOfZ (Z.of_nat index), x) :: indexed (S index) r
  end.

Fixpoint chars (s : string) : list value :=
  match s with
  | EmptyString => []
  | String c r => VString (String c EmptyString) :: chars r
  end.

(** [Object.entries(v)] *)
Definition objectEntries (v : value) : Result (list (string * value)) :=
  match v with
  | VUndefined | VNull => Throw EntriesOfNullish
  | VObject entries => Ok entries
  | VArray items => Ok (indexed 0 items)
  | VString s => Ok (indexed 0 (chars s))
  | _ => Ok []
  end.

(** [URLSearchParams]: the list of name-value pairs, in order. *)
Definition SearchParams := list (string * string).

(** [searchParams.set(name, v)]: the first pair named [name] takes the value
    and the later ones go; without one the pair is added at the end. *)
Fixpoint spSet (name v : string) (sp : SearchParams) : SearchParams :=
  match sp with
  | [] => [(name, v)]
  | (k, x) :: r =>
      if String.eqb k name then (name, v) :: removeKey name r
      else (k, x) :: spSet name v r
  end.

(** [searchParams.append(name, v)] *)
Definition spAppend (name v : string) (sp : SearchParams) : SearchParams :=
  (sp ++ [(name, v)])%list.

(** [searchParams.append(name, String(v))] for each pair in turn. *)
Fixpoint appendAll (sp : SearchParams) (pairs : list (string * value))
  : Result SearchParams :=
  match pairs with
  | [] => Ok sp
  | (name, v) :: r =>
      match valueText v with
      | Ok t => appendAll (spAppend name t sp) r
      | Throw e => Throw e
      end
  end.

(** The body of the loop of [getSearchParams]: the [switch (typeof value)]. *)
Definition encodeEntry (sp : SearchParams) (kv : string * value)
  : Result SearchParams :=
  let (key, v) := kv in
  match v with
  | VString s => Ok (spSet key s sp)
  | VBool _ | VNumber _ =>
      match valueText v with
      | Ok t => Ok (spSet key t sp)
      | Throw e => Throw e
      end
  | VNull => Ok sp
  | VArray items => appendAll sp (map (fun item => (key, item)) items)
  | VObject entries =>
      appendAll sp (map (fun e => (key ++ "[" ++ fst e ++ "]", snd e)) entries)
  | VUndefined | VSymbol _ | VFunction _ => Ok sp
  end.

(** The loop of [getSearchParams] over the entries. *)
Fixpoint encodeSearch (sp : SearchParams) (entries : list (string * value))
  : Result SearchParams :=
  match entries with
  | [] => Ok sp
  | kv :: r =>
      match encodeEntry sp kv with
      | Ok sp' => encodeSearch sp' r
      | Throw e => Throw e
      end
  end.

(** ** Request engine ([createAPIClient] of [src/index.ts]) *)

Inductive Method : Type := GET | POST | PUT | PATCH | DELETE.

(** [RequestMethodSchema] *)
Definition methodOfString (s : string) : option Method :=
  if String.eqb s "GET" then Some GET
  else if String.eqb s "POST" then Some POST
  else if String.eqb s "PUT" then Some PUT
  else if String.eqb s "PATCH" then Some PATCH
  else if String.eqb s "DELETE" then Some DELETE
  else None.

Definition isGET (m : Method) : bool :=
  match m with GET => true | _ => false end.

(** [s.split(sep)] for a one-character separator. *)
Fixpoint splitChar (sep : ascii) (acc : string) (s : string) : list string :=
  match s with
  | EmptyString => [acc]
  | String c r =>
      if Ascii.eqb c sep then acc :: splitChar sep EmptyString r
      else splitChar sep (acc ++ String c EmptyString) r
  end.

(** [z.tuple([RequestMethodSchema, z.string()]).parse(endpoint.split(" "))] *)
Definition parseEndpoint (endpoint : string) : Result (Method * string) :=
  match splitChar " "%char EmptyString endpoint with
  | [m; path] =>
      match methodOfString m with
      | Some method => Ok (method, path)
      | None => Throw (ZodError "method")
      end
  | _ => Throw (ZodError "endpoint")
  end.

(** A Zod schema, as far as the engine uses it: [schema.parseAsync(input)]
    gives the parsed output or throws. *)
Definition Schema := value -> Result value.

(** A key of a route object: [key in route] and [route.key] are separate
    questions in JavaScript. *)
Inductive Field (A : Type) : Type :=
| Absent                   (* no such key *)
| Undefined                (* the key is there, holding [undefined] *)
| Present (a : A).
Arguments Absent {A}.
Arguments Undefined {A}.
Arguments Present {A} a.

(** [EndpointOptions].  [params] is not a key of that type and the engine
    never reads it; an endpoint object may carry one all the same (the data
    model of the specification lists a params schema), so it has a place
    here. *)
Record EndpointOptions : Type := {
  params : option (Params -> Result Params);
  search : Field Schema;
  body : Field Schema;
  expects_success : Schema;
  expects_failure : option Schema
}.

(** [Headers]: names in lower case, one pair per name. *)
Definition Headers := list (string * string).

Fixpoint getHeader (h : Headers) (name : string) : option string :=
  match h with
  | [] => None
  | (k, v) :: r => if String.eqb k name then Some v else getHeader r name
  end.

(** [headers.append(name, v)]: a repeated name joins its values. *)
Definition headerAppend (h : Headers) (kv : string * string) : Headers :=
  let name := mapString toLower (fst kv) in
  match getHeader h name with
  | Some old => setProp name (old ++ ", " ++ snd kv) h
  | None => setProp name (snd kv) h
  end.

(** [new Headers(init)], for an [init] of valid header names and values
    without surrounding whitespace (the order of the pairs is not
    modelled). *)
Definition newHeaders (init : list (string * string)) : Headers :=
  fold_left headerAppend init [].

(** [mergeHeaders(...sources)]; every source is a [Headers] object here, so
    the [isObject] guard never fires. *)
Definition mergeHeaders (sources : list Headers) : Headers :=
  newHeaders
    (fold_left
       (fun result source =>
          fold_left
            (fun res kv =>
               if String.eqb (snd kv) "undefined" then removeKey (fst kv) res
               else setProp (fst kv) (snd kv) res)
            (newHeaders source) result)
       sources []).

(** [URL]: the base and the reference given to [new URL(reference, base)],
    and the pairs the engine sets or appends through [url.searchParams].
    The reference is kept as text; the pairs are the whole query of the URL
    when neither the reference nor the base holds a question mark. *)
Record URL : Type := {
  base : string;
  reference : string;
  searchParams : SearchParams
}.

(** What [new Request(url, init)] is given: the URL, and the method, headers,
    signal and body of [init].  The signal holds its [aborted] flag. *)
Record Request : Type := {
  rq_url : URL;
  rq_method : Method;
  rq_headers : Headers;
  rq_signal : option bool;
  rq_body : option string
}.


Record Response : Type := {
  status : Z;
  contentType : option string;   (* [headers.get("content-type")] *)
  text : string                  (* what [response.text()] resolves to *)
}.

(** What a call does to the outside, in order. *)
Inductive Event : Type :=
| EvCredentials               (* the credentials hook ran *)
| EvFetch (request : Request) (* the transport sent a request *)
| EvReadBody                  (* [response.text()] *)
| EvLog (key : string).       (* [console.log], the duration left out *)

(** Computations of the engine: the events in order, then a value or the
    error thrown. *)
Definition M (A : Type) : Type := (list Event * Result A)%type.

Definition ret {A : Type} (a : A) : M A := ([], Ok a).
Definition throw {A : Type} (e : Err) : M A := ([], Throw e).
Definition emit (ev : Event) : M unit := ([ev], Ok tt).
Definition lift {A : Type} (r : Result A) : M A := ([], r).

Definition bind {A B : Type} (m : M A) (f : A -> M B) : M B :=
  match m with
  | (t, Ok a) => let (t', r) := f a in ((t ++ t')%list, r)
  | (t, Throw e) => (t, Throw e)
  end.

Notation "x <- m ;; k" := (bind m (fun x => k))
  (at level 61, m at next level, right associativity).
Notation "m ;;; k" := (bind m (fun _ => k))
  (at level 61, right associativity).

(** [RequestOptions] and its [variables]: an absent key is [None]. *)
Record Variables : Type := {
  var_params : option Params;
  var_search : option value;
  var_body : option value
}.

Record RequestOptions : Type := {
  variables : option Variables;
  headers : list (string * string);
  signal : option bool
}.

Definition Measurer : Type := string -> M value -> M value.

(** [APIClientConfiguration], with the headers of its [fetch] options. *)
Record Configuration : Type := {
  baseURL : string;
  endpoints : list (string * EndpointOptions);
  fetch_headers : list (string * string);
  cfg_measure : option Measurer;
  credentials : option (URL -> Headers -> option string -> Result (URL * Headers))
}.

(** [endpoint in configuration.endpoints] and [configuration.endpoints[endpoint]] *)
Fixpoint lookupEndpoint (eps : list (string * EndpointOptions)) (endpoint : string)
  : option EndpointOptions :=
  match eps with
  | [] => None
  | (k, route) :: r => if String.eqb k endpoint then Some route else lookupEndpoint r endpoint
  end.

(** The default [measure]: run the thunk, log in the [finally] block. *)
Definition measure (key : string) (fn : M value) : M value :=
  ((fst fn ++ [EvLog key])%list, snd fn).

(** [getURL(path, params)]; without params [generatePath] falls back to its
    default, the empty object. *)
Definition getURL (cfg : Configuration) (path : string) (ps : option Params) : M URL :=
  generated <- lift (generatePath path (match ps with Some p => p | None => [] end)) ;;
  ret {| base := baseURL cfg; reference := slice1 generated; searchParams := [] |}.

(** [getSearchParams(endpoint, url, options)] *)
Definition getSearchParams (route : EndpointOptions) (url : URL) (options : value)
  : M URL :=
  match search route with
  | Absent => ret url
  | Undefined => throw EntriesOfNullish
  | Present schema =>
      parsed <- lift (schema options) ;;
      entries <- lift (objectEntries parsed) ;;
      sp <- lift (encodeSearch (searchParams url) entries) ;;
      ret {| base := base url; reference := reference url; searchParams := sp |}
  end.

Section Engine.

Variable JSON_text : value -> string.
Variable JSON_read : string -> option value.

(** The transport: [fetch(request)] resolves to a response or rejects. *)
Variable fetch : Request -> Result Response.

(** [getBody(endpoint, options)]: [None] is [undefined], no body. *)
Definition getBody (route : EndpointOptions) (options : value) : M (option string) :=
  match body route with
  | Absent => ret None
  | Undefined => ret (serialize JSON_text VUndefined)
  | Present schema =>
      parsed <- lift (schema options) ;;
      ret (serialize JSON_text parsed)
  end.

(** The two result shapes of the engine. *)
Definition successResult (data : value) : value :=
  VObject [("status", VString "success"); ("data", data)].

Definition failureResult (data : value) (code : Z) : value :=
  VObject [("status", VString "failure"); ("data", data); ("code", VNumber code)].

(** The status mapping at the end of the measured thunk. *)
Definition classify (endpoint : string) (route : EndpointOptions)
           (response : Response) (parsed : value) : M value :=
  if (200 <=? status response)%Z && (status response <? 300)%Z then
    match expects_failure route with
    | None => lift (expects_success route parsed)
    | Some _ =>
        data <- lift (expects_success route parsed) ;;
        ret (successResult data)
    end
  else if (400 <=? status response)%Z && (status response <? 500)%Z then
    match expects_failure route with
    | None => throw (MissingFailureSchema endpoint)
    | Some FailureSchema =>
        data <- lift (FailureSchema parsed) ;;
        ret (failureResult data (status response))
    end
  else throw (StatusError endpoint (status response)).

(** The thunk handed to the measurer: dispatch, then read and classify. *)
Definition dispatch (endpoint : string) (route : EndpointOptions)
           (request : Request) : M value :=
  emit (EvFetch request) ;;;
  response <- lift (fetch request) ;;
  if negb (match contentType response with
           | Some ct => includes "json" ct   (* [?.includes("json")] *)
           | None => false
           end)
  then throw (NonJsonResponse endpoint)
  else
    emit EvReadBody ;;;
    parsed <- lift (match parse JSON_read (text response) with
                    | Some b => Ok b
                    | None => Throw (InvalidJsonResponse endpoint)
                    end) ;;
    classify endpoint route response parsed.

(** First half of [request]: the endpoint guards, the URL with its query,
    the merged headers and the credentials hook.  The endpoint is a string
    by its type, so the [typeof] guard is not modelled. *)
Definition buildTarget (cfg : Configuration) (token : option string)
           (endpoint : string) (options : RequestOptions)
  : M (EndpointOptions * Method * URL * Headers) :=
  match lookupEndpoint (endpoints cfg) endpoint with
  | None => throw (MissingEndpoint endpoint)
  | Some route =>
      mp <- lift (parseEndpoint endpoint) ;;
      url <- getURL cfg (snd mp)
               (match variables options with
                | Some vars => var_params vars
                | None => None
                end) ;;
      url <- match variables options with
             | Some {| var_search := Some s |} => getSearchParams route url s
             | _ => ret url
             end ;;
      let hs := mergeHeaders [newHeaders (fetch_headers cfg);
                              newHeaders (headers options)] in
      uh <- match credentials cfg with
            | Some hook => emit EvCredentials ;;; lift (hook url hs token)
            | None => ret (url, hs)
            end ;;
      ret (route, fst mp, fst uh, snd uh)
  end.

(** [if (options?.signal) { if (options.signal.aborted) throw ... }] *)
Definition checkSignal (options : RequestOptions) : M unit :=
  match signal options with
  | Some true => throw AbortError
  | _ => ret tt
  end.

(** [if (method !== "GET" && "variables" in options && "body" in
    options.variables) init.body = await getBody(...)] *)
Definition buildBody (method : Method) (options : RequestOptions)
           (route : EndpointOptions) : M (option string) :=
  match variables options with
  | Some {| var_body := Some bv |} =>
      if isGET method then ret None else getBody route bv
  | _ => ret None
  end.

(** Everything [request] does before it calls the measurer. *)
Definition prepare (cfg : Configuration) (token : option string)
           (endpoint : string) (options : RequestOptions)
  : M (EndpointOptions * Request) :=
  target <- buildTarget cfg token endpoint options ;;
  let '(route, method, url, hs) := target in
  checkSignal options ;;;
  b <- buildBody method options route ;;
  ret (route,
       {| rq_url := url; rq_method := method; rq_headers := hs;
          rq_signal := signal options; rq_body := b |}).

(** The measurer in force. *)
Definition measurerOf (cfg : Configuration) : Measurer :=
  match cfg_measure cfg with Some m => m | None => measure end.

(** [client.request(endpoint, options)] *)
Definition request (cfg : Configuration) (token : option string)
           (endpoint : string) (options : RequestOptions) : M value :=
  rr <- prepare cfg token endpoint options ;;
  measurerOf cfg endpoint (dispatch endpoint (fst rr) (snd rr)).

End Engine.

(** The text of each error, as the engine words it. *)
Definition message (e : Err) : string :=
  match e with
  | MissingParam key => "Missing " ++ dq ++ ":" ++ key ++ dq ++ " param"
  | EndpointNotString => "The endpoint must be a string."
  | MissingEndpoint endpoint =>
      "Missing endpoint " ++ dq ++ endpoint ++ dq
      ++ ". You can add it to your API client configuration."
  | ZodError what => what
  | AbortError => "Aborted"
  | NonJsonResponse endpoint =>
      "The endpoint " ++ dq ++ endpoint ++ dq ++ " returned a non-JSON response."
  | InvalidJsonResponse endpoint =>
      "The endpoint " ++ dq ++ endpoint ++ dq ++ " returned an invalid JSON response."
  | MissingFailureSchema endpoint =>
      "Missing " ++ dq ++ "failure" ++ dq ++ " schema for endpoint "
      ++ dq ++ endpoint ++ dq ++ "."
  | StatusError endpoint code =>
      "The endpoint " ++ dq ++ endpoint ++ dq ++ " throw a " ++ stringOfZ code ++ " code."
  | EntriesOfNullish => "Cannot convert undefined or null to object"
  | SymbolToString => "Cannot convert a Symbol value to a string"
  | HookError what => what
  end.

(** ** Notions the specification uses to describe the engine *)

Definition isLog (ev : Event) : bool :=
  match ev with EvLog _ => true | _ => false end.

(** The contract of a measurer: it runs the thunk once, hands its outcome on
    unchanged, and does nothing but logging around it. *)
Definition relays (m : Measurer) : Prop :=
  forall key fn, exists pre post,
    forallb isLog pre = true /\ forallb isLog post = true
    /\ m key fn = ((pre ++ fst fn ++ post)%list, snd fn).

(** The requests the transport was asked to send. *)
Definition dispatched (t : list Event) : list Request :=
  flat_map (fun ev => match ev with EvFetch rq => [rq] | _ => [] end) t.

(** How often a response body was read. *)
Definition bodyReads (t : list Event) : nat :=
  List.length (filter (fun ev => match ev with EvReadBody => true | _ => false end) t).

(** [response.headers.get("content-type")?.includes("json")] *)
Definition saysJson (response : Response) : bool :=
  match contentType response with
  | Some ct => includes "json" ct
  | None => false
  end.

(** The route parameters a call supplies ([generatePath]'s default when it
    supplies none). *)
Definition suppliedParams (options : RequestOptions) : Params :=
  match variables options with
  | Some {| var_params := Some ps |} => ps
  | _ => []
  end.


(** ** Notions the specification uses to describe the templater *)

(** The segments the templater works on. *)
Definition segmentsOf (template : string) : list string :=
  splitSlashes (normalizeStar template).

(** The keys of the required named parameters, in template order. *)
Definition requiredKeys (segments : list string) : list string :=
  flat_map (fun seg => match keyMatch seg with
                       | Some (k, false) => [k]
                       | _ => []
                       end) segments.

(** The keys of the optional named parameters, in template order. *)
Definition optionalKeys (segments : list string) : list string :=
  flat_map (fun seg => match keyMatch seg with
                       | Some (k, true) => [k]
                       | _ => []
                       end) segments.

(** The required keys with no usable entry in [ps]. *)
Definition missingKeys (ps : Params) (segments : list string) : list string :=
  filter (fun k => isNullish (getParam ps k)) (requiredKeys segments).

(** What a segment stands for once the parameters are substituted. *)
Definition substitute (ps : Params) (isLastSegment : bool) (segment : string) : PVal :=
  if isLastSegment && String.eqb segment "*" then getParam ps "*"
  else match keyMatch segment with
       | Some (k, _) =>
           if isNullish (getParam ps k) then PStr EmptyString else getParam ps k
       | None => PStr (stripOptionalMarker segment)
       end.

Fixpoint substituteAll (ps : Params) (segments : list string) : list PVal :=
  match segments with
  | [] => []
  | [seg] => [substitute ps true seg]
  | seg :: rest => substitute ps false seg :: substituteAll ps rest
  end.

(** The text of the segments that survive the removal of empty ones. *)
Definition keptTexts (vs : list PVal) : list string :=
  map pvalText (filter truthy vs).

(** A text that survives as a segment of its own: not empty, no slash. *)
Fixpoint slashFree (s : string) : bool :=
  match s with
  | EmptyString => true
  | String c r => negb (isSlash c) && slashFree r
  end.

Definition plainText (s : string) : bool :=
  negb (String.eqb s EmptyString) && slashFree s.


(** ** Notions the specification uses to describe the codec *)

(** A key in the internal casing: letters only, a small letter first, no two
    capitals in a row. *)
Fixpoint camelTail (afterCapital : bool) (s : string) : bool :=
  match s with
  | EmptyString => true
  | String c r =>
      if isLower c then camelTail false r
      else if isUpper c then negb afterCapital && camelTail true r
      else false
  end.

Definition isCamelCase (key : string) : bool :=
  match key with
  | String c r => isLower c && camelTail false r
  | EmptyString => false
  end.

Fixpoint uniqueKeys (keys : list string) : bool :=
  match keys with
  | [] => true
  | k :: r => negb (existsb (String.eqb k) r) && uniqueKeys r
  end.

(** A JSON-compatible value: null, booleans, numbers, strings, arrays and
    objects of such, an object holding each key once. *)
Fixpoint isJson (v : value) : bool :=
  match v with
  | VUndefined | VSymbol _ | VFunction _ => false
  | VArray items => forallb isJson items
  | VObject entries =>
      forallb (fun kv => isJson (snd kv)) entries && uniqueKeys (map fst entries)
  | _ => true
  end.

(** Every object key, at any depth, is in the internal casing. *)
Fixpoint camelKeys (v : value) : bool :=
  match v with
  | VArray items => forallb camelKeys items
  | VObject entries =>
      forallb (fun kv => isCamelCase (fst kv) && camelKeys (snd kv)) entries
  | _ => true
  end.

(** The same value with every object key renamed, at any depth. *)
Fixpoint renameKeys (f : string -> string) (v : value) : value :=
  match v with
  | VArray items => VArray (map (renameKeys f) items)
  | VObject entries =>
      VObject (map (fun kv => (f (fst kv), renameKeys f (snd kv))) entries)
  | _ => v
  end.

(** The wire form of a key in the internal casing: an underscore and the
    small letter for every capital. *)
Fixpoint snake (s : string) : string :=
  match s with
  | EmptyString => EmptyString
  | String c r =>
      if isUpper c then String "_"%char (String (toLower c) (snake r))
      else String c (snake r)
  end.

(** The compact text [JSON.stringify] writes for a document whose strings
    need no escape. *)
Fixpoint compactText (d : value) : string :=
  match d with
  | VNull => "null"
  | VBool true => "true"
  | VBool false => "false"
  | VNumber n => stringOfZ n
  | VString s => dq ++ s ++ dq
  | VArray items => "[" ++ join "," (map compactText items) ++ "]"
  | VObject entries =>
      "{" ++ join "," (map (fun kv => dq ++ fst kv ++ dq ++ ":" ++ compactText (snd kv))
                           entries) ++ "}"
  | VUndefined | VSymbol _ | VFunction _ => "null"
  end.

(** A reader that knows the one text of the codec's test suite,
    [{"foo_bar":"baz"}]: enough to run [parse] on that example. *)
Definition suiteDocument : value := VObject [("foo_bar", VString "baz")].

Definition suiteText : string :=
  "{" ++ dq ++ "foo_bar" ++ dq ++ ":" ++ dq ++ "baz" ++ dq ++ "}".

Definition suiteRead (input : string) : option value :=
  if String.eqb input suiteText then Some suiteDocument else None.

(** ** The scenarios of the test suite, to run the engine on *)

(** A schema that accepts everything and returns it, and one that rejects
    every route-parameter object. *)
Definition acceptAll : Schema := fun v => Ok v.

Definition rejectParams : Params -> Result Params :=
  fun _ => Throw (ZodError "params").

Definition userRoute (failure : option Schema) : EndpointOptions :=
  {| params := None; search := Absent; body := Absent;
     expects_success := acceptAll; expects_failure := failure |}.

Definition createRoute : EndpointOptions :=
  {| params := None; search := Absent; body := Present acceptAll;
     expects_success := acceptAll; expects_failure := None |}.

(** An endpoint object that carries a params schema rejecting everything. *)
Definition guardedRoute : EndpointOptions :=
  {| params := Some rejectParams; search := Absent; body := Absent;
     expects_success := acceptAll; expects_failure := None |}.

Definition suiteConfig (failure : option Schema) : Configuration :=
  {| baseURL := "http://example.com";
     endpoints := [("GET /users/:userId", userRoute failure);
                   ("POST /users", createRoute);
                   ("GET /guarded/:userId", guardedRoute)];
     fetch_headers := [];
     cfg_measure := None;
     credentials := None |}.

(** The server of the scenarios: user 123 exists, user 456 does not, user 500
    breaks the server, anything else is answered in plain text. *)
Definition jsonResponse (code : Z) : Response :=
  {| status := code; contentType := Some "application/json"; text := suiteText |}.

Definition plainResponse : Response :=
  {| status := 200; contentType := Some "text/plain";
     text := "Internal server error" |}.

Definition suiteFetch (rq : Request) : Result Response :=
  let target := reference (rq_url rq) in
  if String.eqb target "users/123" then Ok (jsonResponse 200)
  else if String.eqb target "users/456" then Ok (jsonResponse 404)
  else if String.eqb target "users/500" then Ok (jsonResponse 500)
  else if String.eqb target "users" then Ok (jsonResponse 201)
  else Ok plainResponse.

(** The body of the JSON answers, parsed. *)
Definition suiteUser : value := VObject [("fooBar", VString "baz")].

(** The request the engine builds for a user. *)
Definition userRequest (userId : string) (sig : option bool) : Request :=
  {| rq_url := {| base := "http://example.com";
                  reference := "users/" ++ userId;
                  searchParams := [] |};
     rq_method := GET; rq_headers := []; rq_signal := sig; rq_body := None |}.

(** [{ variables: { params: { userId } }, signal }] *)
Definition userOptions (userId : string) (sig : option bool) : RequestOptions :=
  {| variables := Some {| var_params := Some [("userId", PStr userId)];
                          var_search := None; var_body := None |};
     headers := [];
     signal := sig |}.

(** [{ variables: { body } }] *)
Definition bodyOptions (b : value) : RequestOptions :=
  {| variables := Some {| var_params := None; var_search := None;
                          var_body := Some b |};
     headers := [];
     signal := None |}.

(** The same endpoint, or configuration, with other params schemas: what the
    specification would have the engine consult. *)
Definition withParams (schema : option (Params -> Result Params))
           (route : EndpointOptions) : EndpointOptions :=
  {| params := schema; search := search route; body := body route;
     expects_success := expects_success route;
     expects_failure := expects_failure route |}.

Definition withParamsSchemas
           (choose : string -> option (Params -> Result Params))
           (cfg : Configuration) : Configuration :=
  {| baseURL := baseURL cfg;
     endpoints := map (fun kv => (fst kv, withParams (choose (fst kv)) (snd kv)))
                      (endpoints cfg);
     fetch_headers := fetch_headers cfg;
     cfg_measure := cfg_measure cfg;
     credentials := credentials cfg |}.

(** The result of a computation seen through [f]. *)
Definition onResult {A B : Type} (f : A -> B) (m : M A) : M B :=
  (fst m, match snd m with Ok a => Ok (f a) | Throw e => Throw e end).

(** [getURL(path, endpoint, options)] as the previous revision of the engine
    had it, when [EndpointOptions] still listed a [params] schema. *)
Definition getURL_previous (cfg : Configuration) (path : string)
           (route : EndpointOptions) (options : option Params) : M URL :=
  ps <- match params route, options with
        | Some schema, Some given => lift (schema given)
        | _, _ => ret []
        end ;;
  generated <- lift (generatePath path ps) ;;
  ret {| base := baseURL cfg; reference := slice1 generated; searchParams := [] |}.

(** ** Further notions, for the properties beyond the specification *)

(** A segment the templater copies as it is: not empty, no slash, not a
    named parameter, no optional marker at its end. *)
Definition literalSegment (s : string) : bool :=
  plainText s
  && match keyMatch s with None => true | Some _ => false end
  && negb (endsWith "?" s).

(** A template made of the given segments, with or without a slash before
    and after. *)
Definition templateOf (leading trailing : bool) (segments : list string) : string :=
  (if leading then "/" else EmptyString)
  ++ join "/" segments
  ++ (if trailing then "/" else EmptyString).

(** Modelled from the spec: a named parameter segment is a colon, a name of
    one or more word characters and, for an optional parameter, a question
    mark after the name.  [readName] reads the name and says whether the
    marker follows it. *)
Fixpoint readName (s : string) : option (string * bool) :=
  match s with
  | EmptyString => Some (EmptyString, false)
  | String c r =>
      if isWordChar c then
        match readName r with
        | Some (name, optional) => Some (String c name, optional)
        | None => None
        end
      else if Ascii.eqb c "?"%char && String.eqb r EmptyString
           then Some (EmptyString, true)
           else None
  end.

Definition namedParam (segment : string) : option (string * bool) :=
  match segment with
  | String c r =>
      if Ascii.eqb c ":"%char then
        match readName r with
        | Some (name, optional) =>
            if String.eqb name EmptyString then None else Some (name, optional)
        | None => None
        end
      else None
  | EmptyString => None
  end.

(** Modelled from the spec: the names of the required parameters of a
    template, in template order, and of all its named parameters. *)
Definition requiredNames (segments : list string) : list string :=
  flat_map (fun seg => match namedParam seg with
                       | Some (name, false) => [name]
                       | _ => []
                       end) segments.

Definition parameterNames (segments : list string) : list string :=
  flat_map (fun seg => match namedParam seg with
                       | Some (name, _) => [name]
                       | None => []
                       end) segments.

(** Modelled from the spec: the parameter mappings of the templater's own
    signature, strings and nulls, and the text the specification has a
    segment become: the entry of a parameter (nothing when it is absent or
    null), the final star's entry, or the literal text without its optional
    marker. *)
Definition stringParams (ps : Params) : bool :=
  forallb (fun kv => match snd kv with
                     | PStr _ | PNull | PUndefined => true
                     | _ => false
                     end) ps.

Definition entryText (ps : Params) (name : string) : string :=
  match ownParam ps name with
  | Some (PStr s) => s
  | _ => EmptyString
  end.

Definition expected (ps : Params) (isLastSegment : bool) (segment : string) : string :=
  if isLastSegment && String.eqb segment "*" then entryText ps "*"
  else match namedParam segment with
       | Some (name, _) => entryText ps name
       | None => if endsWith "?" segment then dropLast 1 segment else segment
       end.

Fixpoint expectedAll (ps : Params) (segments : list string) : list string :=
  match segments with
  | [] => []
  | [seg] => [expected ps true seg]
  | seg :: rest => expected ps false seg :: expectedAll ps rest
  end.

Definition nonEmpty (s : string) : bool := negb (String.eqb s EmptyString).

(** The parameter keys a list of segments reads: the named ones and, for a
    final wildcard, the star. *)
Definition readKeys (segments : list string) : list string :=
  (requiredKeys segments ++ optionalKeys segments
   ++ (if String.eqb (last segments EmptyString) "*" then ["*"] else []))%list.

(** No two keys of one object become the same key under [f], at any depth. *)
Fixpoint distinctAfter (f : string -> string) (v : value) : bool :=
  match v with
  | VArray items => forallb (distinctAfter f) items
  | VObject entries =>
      uniqueKeys (map (fun kv => f (fst kv)) entries)
      && forallb (fun kv => distinctAfter f (snd kv)) entries
  | _ => true
  end.

(** A key in the wire casing: small letters in words joined by single
    underscores, a first word of one letter or more, the others of two or
    more.  [need] counts the letters the current word still owes. *)
Fixpoint snakeTail (need : nat) (s : string) : bool :=
  match s with
  | EmptyString => Nat.eqb need 0
  | String c r =>
      if isLower c then snakeTail (Nat.pred need) r
      else if Ascii.eqb c "_"%char then Nat.eqb need 0 && snakeTail 2 r
      else false
  end.

Definition isSnakeCase (key : string) : bool :=
  match key with
  | String c r => isLower c && snakeTail 0 r
  | EmptyString => false
  end.

(** Every object key, at any depth, is in the wire casing. *)
Fixpoint snakeKeys (v : value) : bool :=
  match v with
  | VArray items => forallb snakeKeys items
  | VObject entries =>
      forallb (fun kv => isSnakeCase (fst kv) && snakeKeys (snd kv)) entries
  | _ => true
  end.

(** [String] applied to each value of a list, in order. *)
Fixpoint allTexts (vs : list value) : Result (list string) :=
  match vs with
  | [] => Ok []
  | v :: r =>
      match valueText v with
      | Throw e => Throw e
      | Ok t => match allTexts r with
                | Throw e => Throw e
                | Ok ts => Ok (t :: ts)
                end
      end
  end.

(** Modelled from the spec: the pairs one top-level entry of the validated
    search structure contributes to the query.  A string, a boolean or a
    number gives [key=String(value)]; an array gives [key=String(element)]
    for each element in order; any other object gives [key[k]=String(v)] for
    each own entry; [null] and every other type give nothing. *)
Definition queryPairs (kv : string * value) : Result (list (string * string)) :=
  let (key, v) := kv in
  match v with
  | VString _ | VBool _ | VNumber _ =>
      match valueText v with
      | Ok t => Ok [(key, t)]
      | Throw e => Throw e
      end
  | VArray items =>
      match allTexts items with
      | Ok ts => Ok (map (fun t => (key, t)) ts)
      | Throw e => Throw e
      end
  | VObject entries =>
      match allTexts (map snd entries) with
      | Ok ts =>
          Ok (combine (map (fun e => key ++ "[" ++ fst e ++ "]") entries) ts)
      | Throw e => Throw e
      end
  | _ => Ok []
  end.

(** Modelled from the spec: the query of a whole search structure, the
    pairs of its entries one after the other. *)
Fixpoint queryOf (entries : list (string * value))
  : Result (list (string * string)) :=
  match entries with
  | [] => Ok []
  | kv :: r =>
      match queryPairs kv with
      | Throw e => Throw e
      | Ok ps => match queryOf r with
                 | Throw e => Throw e
                 | Ok qs => Ok (ps ++ qs)%list
                 end
      end
  end.

(** Keys that cannot be taken for the [key[k]] names of an object entry. *)
Definition bracketFree (entries : list (string * value)) : bool :=
  forallb (fun kv => negb (includes "[" (fst kv))) entries.

(** The pairs a value that is neither an array nor an object contributes
    under its key: one for a string, a boolean or a number, none otherwise. *)
Definition scalarPairs (kv : string * value) : list (string * string) :=
  match snd kv with
  | VString s => [(fst kv, s)]
  | VBool true => [(fst kv, "true")]
  | VBool false => [(fst kv, "false")]
  | VNumber n => [(fst kv, stringOfZ n)]
  | _ => []
  end.

Definition isFlat (v : value) : bool :=
  match v with
  | VArray _ | VObject _ => false
  | _ => true
  end.

(** The same options without search variables. *)
Definition withoutSearch (options : RequestOptions) : RequestOptions :=
  {| variables :=
       match variables options with
       | Some vars => Some {| var_params := var_params vars;
                              var_search := None;
                              var_body := var_body vars |}
       | None => None
       end;
     headers := headers options;
     signal := signal options |}.

(** Headers as a [Headers] object holds them: every name once, in lower
    case. *)
Definition lowerNames (h : Headers) : bool :=
  forallb (fun kv => String.eqb (mapString toLower (fst kv)) (fst kv)) h.

Definition normalHeaders (h : Headers) : bool :=
  uniqueKeys (map fst h) && lowerNames h.

(** What a header source says about a name: nothing, a value, or the text
    [undefined] that asks for its removal. *)
Definition afterSource (before : option string) (source : Headers) (name : string)
  : option string :=
  match getHeader source name with
  | Some v => if String.eqb v "undefined" then None else Some v
  | None => before
  end.


(** The text of a method in an endpoint identifier. *)
Definition methodName (m : Method) : string :=
  match m with
  | GET => "GET"
  | POST => "POST"
  | PUT => "PUT"
  | PATCH => "PATCH"
  | DELETE => "DELETE"
  end.

Fixpoint spaceFree (s : string) : bool :=
  match s with
  | EmptyString => true
  | String c r => negb (Ascii.eqb c " "%char) && spaceFree r
  end.

(** The same configuration with another measurer. *)
Definition withMeasure (m : option Measurer) (cfg : Configuration) : Configuration :=
  {| baseURL := baseURL cfg;
     endpoints := endpoints cfg;
     fetch_headers := fetch_headers cfg;
     cfg_measure := m;
     credentials := credentials cfg |}.

(** The log lines of a trace. *)
Definition logged (t : list Event) : list string :=
  flat_map (fun ev => match ev with EvLog key => [key] | _ => [] end) t.

(** How often the credentials hook ran. *)
Definition hookRuns (t : list Event) : nat :=
  List.length (filter (fun ev => match ev with EvCredentials => true | _ => false end) t).

(** The same configuration with another credentials hook, or none. *)
Definition withCredentials
           (hook : option (URL -> Headers -> option string -> Result (URL * Headers)))
           (cfg : Configuration) : Configuration :=
  {| baseURL := baseURL cfg;
     endpoints := endpoints cfg;
     fetch_headers := fetch_headers cfg;
     cfg_measure := cfg_measure cfg;
     credentials := hook |}.

(** The same configuration with other client-wide headers. *)
Definition withClientHeaders (hs : list (string * string)) (cfg : Configuration)
  : Configuration :=
  {| baseURL := baseURL cfg;
     endpoints := endpoints cfg;
     fetch_headers := hs;
     cfg_measure := cfg_measure cfg;
     credentials := credentials cfg |}.







(** The headers the engine merges before the hook sees them. *)
Definition baseHeaders (cfg : Configuration) (options : RequestOptions) : Headers :=
  mergeHeaders [newHeaders (fetch_headers cfg); newHeaders (headers options)].

(** What the search stage leaves in the query of the URL. *)
Definition searchOutcome (route : EndpointOptions) (options : RequestOptions)
           (sp : SearchParams) : Prop :=
  match variables options with
  | Some {| var_search := Some s |} =>
      match search route with
      | Absent => sp = []
      | Undefined => False
      | Present schema =>
          exists parsed entries,
            schema s = Ok parsed /\ objectEntries parsed = Ok entries
            /\ encodeSearch [] entries = Ok sp
      end
  | _ => sp = []
  end.

(** ** Further scenarios of the test suite *)

(** [credentials({ headers, token }) { if (token) headers.set("Authorization",
    token) }], and a hook that throws. *)
Definition headerHook (url : URL) (hs : Headers) (token : option string)
  : Result (URL * Headers) :=
  match token with
  | Some t => Ok (url, setProp "authorization" t hs)
  | None => Ok (url, hs)
  end.

Definition refusingHook (url : URL) (hs : Headers) (token : option string)
  : Result (URL * Headers) :=
  Throw (HookError "no credentials").

(** An endpoint with a search schema, and one whose identifier is not a
    method and a path. *)
Definition listRoute : EndpointOptions :=
  {| params := None; search := Present acceptAll; body := Absent;
     expects_success := acceptAll; expects_failure := None |}.

(** A schema that rejects everything, and an endpoint whose schemas are
    that one. *)
Definition rejectAll : Schema := fun _ => Throw (ZodError "rejected").

Definition strictRoute (b : Field Schema) : EndpointOptions :=
  {| params := None; search := Absent; body := b;
     expects_success := rejectAll; expects_failure := Some rejectAll |}.

Definition listConfig : Configuration :=
  {| baseURL := "http://example.com";
     endpoints := [("GET /users", listRoute); ("FETCH /users", listRoute);
                   ("POST /strict", strictRoute (Present rejectAll));
                   ("GET /strict", strictRoute Absent);
                   ("POST /users", createRoute)];
     fetch_headers := [("X-Client", "MyClient"); ("Accept", "text/html")];
     cfg_measure := None;
     credentials := None |}.

(** [{ variables: { search }, headers }] *)
Definition listOptions (s : value) (hs : list (string * string)) : RequestOptions :=
  {| variables := Some {| var_params := None; var_search := Some s;
                          var_body := None |};
     headers := hs;
     signal := None |}.

(** Servers that answer every request alike: with the JSON document of the
    suite, with a body that is not JSON under a JSON content type, or not at
    all. *)
Definition steadyFetch (code : Z) (rq : Request) : Result Response :=
  Ok (jsonResponse code).

Definition brokenFetch (rq : Request) : Result Response :=
  Ok {| status := 200; contentType := Some "application/json";
        text := "Internal server error" |}.

Definition downFetch (rq : Request) : Result Response :=
  Throw AbortError.

(** The request the engine builds for the strict endpoint. *)
Definition strictRequest : Request :=
  {| rq_url := {| base := "http://example.com"; reference := "strict";
                  searchParams := [] |};
     rq_method := GET;
     rq_headers := [("x-client", "MyClient"); ("accept", "text/html")];
     rq_signal := None; rq_body := None |}.

Definition plainOptions : RequestOptions :=
  {| variables := None; headers := []; signal := None |}.

(** A call that lists users, with search variables and headers of its own,
    and the request the engine builds for it. *)
Definition pagedOptions : RequestOptions :=
  listOptions (VObject [("page", VNumber 2);
                        ("tags", VArray [VString "a"; VString "b"])])
              [("Accept", "application/json"); ("X-Client", "undefined")].

Definition pagedRequest : Request :=
  {| rq_url := {| base := "http://example.com"; reference := "users";
                  searchParams := [("page", "2"); ("tags", "a"); ("tags", "b")] |};
     rq_method := GET;
     rq_headers := [("accept", "application/json")];
     rq_signal := None; rq_body := None |}.


(* ================================================================== *)
(** * Part II — properties                                              *)
(* ================================================================== *)

(** ** Strings *)

Lemma substring_0_0 (s : string) : substring 0 0 s = EmptyString.
Proof. destruct s; reflexivity. Qed.

Lemma endsWith_char (a : ascii) (s : string) :
  endsWith (String a EmptyString) s =
  match lastChar s with Some c => Ascii.eqb c a | None => false end.
Proof.
  unfold endsWith. induction s as [|c r IH]; [reflexivity|].
  destruct r as [|d r'].
  - cbn. now destruct (Ascii.eqb c a).
  - change (lastChar (String c (String d r'))) with (lastChar (String d r')).
    rewrite <- IH. cbn [String.length].
    replace (S (S (String.length r')) - 1) with (S (String.length r')) by lia.
    replace (S (String.length r') - 1) with (String.length r') by lia.
    reflexivity.
Qed.

Lemma lastChar_app (s : string) (c : ascii) :
  lastChar (s ++ String c EmptyString) = Some c.
Proof.
  induction s as [|d r IH]; [reflexivity|].
  cbn [append]. destruct (r ++ String c "") eqn:E.
  - destruct r; discriminate.
  - cbn [lastChar]. exact IH.
Qed.

Lemma lastChar_app2 (s t : string) (c : ascii) :
  lastChar (s ++ String c t) = lastChar (String c t).
Proof.
  induction s as [|d r IH]; [reflexivity|].
  cbn [append]. destruct (r ++ String c t) eqn:E.
  - destruct r; discriminate.
  - rewrite <- IH. reflexivity.
Qed.

Lemma prefix_slash (s : string) :
  startsWith "/" s = match s with String c _ => Ascii.eqb c "/"%char | EmptyString => false end.
Proof.
  destruct s as [|c r]; [reflexivity|]. unfold startsWith. cbn [prefix].
  destruct (ascii_dec "/" c) as [<-|N].
  - destruct r; reflexivity.
  - symmetry. apply Ascii.eqb_neq. congruence.
Qed.

Lemma dropLast1_cons (c d : ascii) (r : string) :
  dropLast 1 (String c (String d r)) = String c (dropLast 1 (String d r)).
Proof.
  unfold dropLast. cbn [String.length].
  replace (S (S (String.length r)) - 1) with (S (String.length r)) by lia.
  replace (S (String.length r) - 1) with (String.length r) by lia.
  reflexivity.
Qed.

Lemma pathPrefix_normalizeStar (t : string) :
  pathPrefix (normalizeStar t) = pathPrefix t.
Proof.
  unfold normalizeStar, needsStarRewrite.
  destruct (endsWith "*" t) eqn:E1; cbn [andb]; [|reflexivity].
  destruct (String.eqb t "*") eqn:E2; cbn [andb negb]; [reflexivity|].
  destruct (endsWith "/*" t); cbn [negb]; [reflexivity|].
  unfold pathPrefix. rewrite !prefix_slash.
  destruct t as [|c [|d r]].
  - discriminate.
  - rewrite endsWith_char in E1. cbn in E1. apply Ascii.eqb_eq in E1. subst.
    discriminate.
  - rewrite dropLast1_cons. reflexivity.
Qed.

Lemma pathTrailingSlash_normalizeStar (t : string) :
  pathTrailingSlash (normalizeStar t) = pathTrailingSlash t.
Proof.
  unfold normalizeStar, needsStarRewrite.
  destruct (endsWith "*" t) eqn:E1; cbn [andb]; [|reflexivity].
  destruct (String.eqb t "*") eqn:E2; cbn [andb negb]; [reflexivity|].
  destruct (endsWith "/*" t); cbn [negb]; [reflexivity|].
  unfold pathTrailingSlash. rewrite !endsWith_char.
  rewrite endsWith_char in E1.
  change "/*" with (String "/"%char (String "*"%char "")).
  rewrite lastChar_app2. cbn [lastChar].
  destruct (lastChar t) as [l|]; [|discriminate].
  apply Ascii.eqb_eq in E1. subst. reflexivity.
Qed.

(** ** Path templater *)

Lemma keyMatch_star : keyMatch "*" = None.
Proof. reflexivity. Qed.

Lemma resolveSegment_spec (ps : Params) (isLast : bool) (seg : string) :
  resolveSegment ps isLast seg =
  match missingKeys ps [seg] with
  | k :: _ => Throw (MissingParam k)
  | [] => Ok (substitute ps isLast seg)
  end.
Proof.
  unfold resolveSegment, substitute, missingKeys, requiredKeys.
  cbn [flat_map]. rewrite app_nil_r.
  destruct (isLast && String.eqb seg "*") eqn:E.
  - apply andb_true_iff in E. destruct E as [_ E].
    apply String.eqb_eq in E. subst seg. reflexivity.
  - destruct (keyMatch seg) as [[k [|]]|]; cbn [filter]; try reflexivity.
    destruct (isNullish (getParam ps k)); reflexivity.
Qed.

Lemma missingKeys_cons (ps : Params) (seg : string) (rest : list string) :
  missingKeys ps (seg :: rest) = (missingKeys ps [seg] ++ missingKeys ps rest)%list.
Proof.
  unfold missingKeys, requiredKeys. cbn [flat_map].
  rewrite app_nil_r. apply filter_app.
Qed.

Lemma mapSegments_spec (ps : Params) (segs : list string) :
  mapSegments ps segs =
  match missingKeys ps segs with
  | k :: _ => Throw (MissingParam k)
  | [] => Ok (substituteAll ps segs)
  end.
Proof.
  induction segs as [|seg rest IH]; [reflexivity|].
  cbn [mapSegments]. rewrite missingKeys_cons, resolveSegment_spec, IH.
  destruct (missingKeys ps [seg]) as [|k ks]; [|reflexivity].
  cbn [app]. destruct (missingKeys ps rest) as [|k ks]; [|reflexivity].
  destruct rest; reflexivity.
Qed.

Lemma generatePath_spec (t : string) (ps : Params) :
  generatePath t ps =
  match missingKeys ps (segmentsOf t) with
  | k :: _ => Throw (MissingParam k)
  | [] => Ok (pathPrefix t
              ++ join "/" (keptTexts (substituteAll ps (segmentsOf t)))
              ++ pathTrailingSlash t)
  end.
Proof.
  unfold generatePath, segmentsOf. rewrite mapSegments_spec.
  destruct (missingKeys ps (splitSlashes (normalizeStar t))); [|reflexivity].
  now rewrite pathPrefix_normalizeStar, pathTrailingSlash_normalizeStar.
Qed.

Lemma append_assoc (a b c : string) : (a ++ b) ++ c = a ++ (b ++ c).
Proof. induction a; cbn; congruence. Qed.

Lemma append_empty_r (a : string) : a ++ EmptyString = a.
Proof. induction a; cbn; congruence. Qed.

Lemma splitRun_slashFree (x : string) :
  slashFree x = true ->
  forall acc rest,
    splitRun (Some acc) (x ++ rest) = splitRun (Some (acc ++ x)) rest.
Proof.
  induction x as [|c r IH]; intros H acc rest.
  - now rewrite append_empty_r.
  - cbn in H. apply andb_true_iff in H. destruct H as [Hc Hr].
    cbn [append splitRun]. apply negb_true_iff in Hc. rewrite Hc.
    rewrite IH by exact Hr. now rewrite append_assoc.
Qed.

Lemma splitRun_None_plain (x rest : string) :
  plainText x = true ->
  splitRun None (x ++ rest) = splitRun (Some x) rest.
Proof.
  unfold plainText. intros H. apply andb_true_iff in H. destruct H as [Hn Hs].
  destruct x as [|c r]; [discriminate|].
  cbn in Hs. apply andb_true_iff in Hs. destruct Hs as [Hc Hr].
  apply negb_true_iff in Hc. cbn [append splitRun]. rewrite Hc.
  cbn [append]. now rewrite splitRun_slashFree by exact Hr.
Qed.

Lemma splitRun_join (xs : list string) (x : string) (tail : string) :
  forallb plainText (x :: xs) = true ->
  splitRun None (join "/" (x :: xs) ++ tail) =
  (removelast (x :: xs) ++ splitRun (Some (last (x :: xs) EmptyString)) tail)%list.
Proof.
  revert x. induction xs as [|y ys IH]; intros x H.
  - cbn in H. rewrite andb_true_r in H. cbn [join removelast last app].
    now apply splitRun_None_plain.
  - cbn [forallb] in H. apply andb_true_iff in H. destruct H as [Hx Hr].
    change (join "/" (x :: y :: ys)) with (x ++ "/" ++ join "/" (y :: ys)).
    rewrite !append_assoc. rewrite splitRun_None_plain by exact Hx.
    cbn [append splitRun isSlash]. cbn [Ascii.eqb Bool.eqb].
    rewrite IH by exact Hr. reflexivity.
Qed.

Lemma removelast_last_app (l tl : list string) :
  l <> [] -> (removelast l ++ last l EmptyString :: tl)%list = (l ++ tl)%list.
Proof.
  intros N. rewrite (app_removelast_last EmptyString N) at 3.
  now rewrite <- app_assoc.
Qed.

Lemma splitSlashes_expansion (pre post : bool) (x : string) (xs : list string) :
  forallb plainText (x :: xs) = true ->
  splitSlashes ((if pre then "/" else EmptyString) ++ join "/" (x :: xs)
                ++ (if post then "/" else EmptyString)) =
  ((if pre then [EmptyString] else []) ++ (x :: xs)
   ++ (if post then [EmptyString] else []))%list.
Proof.
  intros H. unfold splitSlashes.
  assert (T : forall s, splitRun (Some s) (if post then "/" else "") =
                        (s :: (if post then [""] else []))%list)
    by (intros s; destruct post; reflexivity).
  assert (N : x :: xs <> []) by discriminate.
  destruct pre.
  - cbn [append splitRun]. change (isSlash "/") with true. cbn iota.
    rewrite splitRun_join by exact H. rewrite T.
    rewrite removelast_last_app by exact N. reflexivity.
  - cbn [append]. rewrite app_nil_l.
    pose proof (@splitRun_join xs x (if post then "/" else "") H) as J.
    rewrite T, removelast_last_app in J by exact N. rewrite <- J.
    destruct x as [|c r]; [discriminate|].
    cbn in H. apply andb_true_iff in H. destruct H as [H _].
    apply andb_true_iff in H. destruct H as [Hc _]. apply negb_true_iff in Hc.
    destruct xs as [|y ys]; cbn [join append splitRun]; rewrite Hc; reflexivity.
Qed.

Lemma requiredKeys_In (segs : list string) (k : string) :
  In k (requiredKeys segs) <-> exists seg, In seg segs /\ keyMatch seg = Some (k, false).
Proof.
  unfold requiredKeys. rewrite in_flat_map. split; intros [seg [Hin H]]; exists seg; split; auto.
  - destruct (keyMatch seg) as [[k' [|]]|]; cbn in H; try tauto.
    destruct H as [->|[]]. reflexivity.
  - rewrite H. now left.
Qed.

Lemma missingKeys_nil (ps : Params) (segs : list string) :
  missingKeys ps segs = [] <->
  forall k, In k (requiredKeys segs) -> isNullish (getParam ps k) = false.
Proof.
  unfold missingKeys. split.
  - intros H k Hk. destruct (isNullish (getParam ps k)) eqn:E; [|reflexivity].
    assert (In k (filter (fun k => isNullish (getParam ps k)) (requiredKeys segs)))
      by (apply filter_In; auto).
    rewrite H in H0. destruct H0.
  - intros H. induction (requiredKeys segs) as [|k ks IH]; [reflexivity|].
    cbn [filter]. rewrite (H k (or_introl eq_refl)). apply IH.
    intros k' Hk'. apply H. now right.
Qed.

Lemma missingKeys_head (ps : Params) (segs : list string) (k : string) (ks : list string) :
  missingKeys ps segs = k :: ks ->
  In k (requiredKeys segs) /\ isNullish (getParam ps k) = true.
Proof.
  intros H. assert (I : In k (missingKeys ps segs)) by (rewrite H; now left).
  unfold missingKeys in I. now apply filter_In in I.
Qed.

Lemma substituteAll_nth (ps : Params) (segs : list string) (i : nat) (seg : string) :
  nth_error segs i = Some seg ->
  nth_error (substituteAll ps segs) i =
  Some (substitute ps (Nat.eqb (S i) (List.length segs)) seg).
Proof.
  revert i. induction segs as [|a rest IH]; intros i H; [destruct i; discriminate|].
  destruct rest as [|b rest'].
  - destruct i as [|i]; cbn in H; [|destruct i; discriminate].
    injection H as ->. reflexivity.
  - destruct i as [|i].
    + cbn in H. injection H as ->. reflexivity.
    + change (nth_error (substituteAll ps (a :: b :: rest')) (S i))
        with (nth_error (substituteAll ps (b :: rest')) i).
      cbn [nth_error] in H. rewrite (IH i H). reflexivity.
Qed.

Lemma generatePath_throw_inv (t : string) (ps : Params) (e : Err) :
  generatePath t ps = Throw e ->
  exists k, e = MissingParam k
            /\ In k (requiredKeys (segmentsOf t))
            /\ isNullish (getParam ps k) = true.
Proof.
  intros He. rewrite generatePath_spec in He.
  destruct (missingKeys ps (segmentsOf t)) as [|k ks] eqn:E; [discriminate|].
  injection He as <-. exists k. split; [reflexivity|].
  exact (missingKeys_head _ _ E).
Qed.

Lemma generatePath_present (t : string) (ps : Params) :
  (forall k, In k (requiredKeys (segmentsOf t)) ->
             isNullish (getParam ps k) = false) ->
  generatePath t ps =
  Ok (pathPrefix t
      ++ join "/" (keptTexts (substituteAll ps (segmentsOf t)))
      ++ pathTrailingSlash t).
Proof.
  intros H. apply missingKeys_nil in H. now rewrite generatePath_spec, H.
Qed.

(** Examples from the specification and the test suite. *)
Example generatePath_user :
  generatePath "/users/:userId" [("userId", PNum 123)] = Ok "/users/123".
Proof. reflexivity. Qed.

Example generatePath_missing :
  generatePath "/users/:userId" [] = Throw (MissingParam "userId").
Proof. reflexivity. Qed.

Example generatePath_optional :
  generatePath "/users/:userId?/posts/" [] = Ok "/users/posts/".
Proof. reflexivity. Qed.


(** ** Wildcard segment *)

Lemma splitRun_nonempty (acc : option string) (s : string) : splitRun acc s <> [].
Proof.
  revert acc. induction s as [|c r IH]; intros acc; cbn [splitRun]; [discriminate|].
  destruct (isSlash c); [destruct acc|]; try apply IH; discriminate.
Qed.

Lemma last_cons_nonempty (a : string) (l : list string) (d : string) :
  l <> [] -> last (a :: l) d = last l d.
Proof. destruct l; [congruence|reflexivity]. Qed.

Lemma splitRun_last_slash (s : string) :
  lastChar s = Some "/"%char ->
  forall acc, last (splitRun acc s) EmptyString = EmptyString.
Proof.
  induction s as [|c r IH]; intros H acc; [discriminate|].
  destruct r as [|d r'].
  - cbn in H. injection H as ->. cbn. destruct acc; reflexivity.
  - change (lastChar (String c (String d r'))) with (lastChar (String d r')) in H.
    specialize (IH H). remember (String d r') as r eqn:Er. clear Er H.
    cbn [splitRun]. destruct (isSlash c); [destruct acc|]; try apply IH.
    rewrite last_cons_nonempty by apply splitRun_nonempty. apply IH.
Qed.

Lemma wildcard_last_no_trailing_slash (t : string) :
  last (segmentsOf t) EmptyString = "*" -> pathTrailingSlash t = EmptyString.
Proof.
  intros H. rewrite <- pathTrailingSlash_normalizeStar.
  unfold pathTrailingSlash. rewrite endsWith_char.
  destruct (lastChar (normalizeStar t)) as [c|] eqn:E; [|reflexivity].
  destruct (Ascii.eqb c "/") eqn:Ec; [|reflexivity].
  apply Ascii.eqb_eq in Ec. subst c.
  unfold segmentsOf, splitSlashes in H.
  rewrite (splitRun_last_slash _ E) in H. discriminate.
Qed.

Lemma substituteAll_last (ps : Params) (segs : list string) :
  segs <> [] ->
  substituteAll ps segs =
  (map (substitute ps false) (removelast segs)
   ++ [substitute ps true (last segs EmptyString)])%list.
Proof.
  induction segs as [|a rest IH]; [congruence|]. intros _.
  destruct rest as [|b rest']; [reflexivity|].
  change (substituteAll ps (a :: b :: rest'))
    with (substitute ps false a :: substituteAll ps (b :: rest')).
  rewrite IH by discriminate. reflexivity.
Qed.

Lemma keptTexts_app (xs ys : list PVal) :
  keptTexts (xs ++ ys) = (keptTexts xs ++ keptTexts ys)%list.
Proof. unfold keptTexts. now rewrite filter_app, map_app. Qed.

Lemma spanWord_word (s w t : string) (c : ascii) :
  spanWord s = (String c w, t) -> isWordChar c = true.
Proof.
  destruct s as [|d r]; cbn; [discriminate|].
  destruct (isWordChar d) eqn:E; [|discriminate].
  destruct (spanWord r). intros H. injection H as <- _ _. exact E.
Qed.

Lemma keyMatch_not_star (seg : string) (optional : bool) :
  keyMatch seg <> Some ("*", optional).
Proof.
  unfold keyMatch. destruct seg as [|c r]; [discriminate|].
  destruct (Ascii.eqb c ":"); [|discriminate].
  destruct (spanWord r) as [w u] eqn:E.
  destruct (String.eqb w "") eqn:Ew; [discriminate|].
  intros H.
  assert (W : w = "*").
  { destruct (String.eqb u ""); [congruence|].
    destruct (String.eqb u "?"); congruence. }
  subst w. apply spanWord_word in E. discriminate.
Qed.

Example generatePath_wildcard_absent :
  generatePath "/files/*" [] = Ok "/files".
Proof. reflexivity. Qed.

Example generatePath_wildcard_with_missing_name :
  generatePath "/:dir/*" [] = Throw (MissingParam "dir").
Proof. reflexivity. Qed.

(** C9 — when the last segment of a template is the wildcard and the
    parameters give it no value, the wildcard raises nothing: it resolves to
    the absent value and is dropped, the result is built from the other
    segments alone, and an error, if any, names a required [:name] key,
    never the wildcard. *)
Theorem wildcard_absent_is_dropped (t : string) (ps : Params) :
  last (segmentsOf t) EmptyString = "*" ->
  isNullish (getParam ps "*") = true ->
  resolveSegment ps true "*" = Ok (getParam ps "*")
  /\ keptTexts [getParam ps "*"] = []
  /\ (forall e, generatePath t ps = Throw e ->
        exists k, e = MissingParam k /\ k <> "*"
                  /\ In k (requiredKeys (segmentsOf t))
                  /\ isNullish (getParam ps k) = true)
  /\ ((forall k, In k (requiredKeys (segmentsOf t)) ->
                 isNullish (getParam ps k) = false) ->
      generatePath t ps =
        Ok (pathPrefix t
            ++ join "/" (keptTexts (map (substitute ps false)
                                        (removelast (segmentsOf t)))))).
Proof.
  intros Hlast Hnull.
  assert (K : keptTexts [getParam ps "*"] = []).
  { unfold keptTexts. cbn [filter].
    destruct (getParam ps "*"); try discriminate; reflexivity. }
  pose proof (@generatePath_throw_inv t ps) as F.
  pose proof (@generatePath_present t ps) as S.
  split; [reflexivity|split; [exact K|split]].
  - intros e He. destruct (F e He) as [k [-> [Hin Hn]]].
    exists k. repeat split; auto.
    intros ->. apply requiredKeys_In in Hin. destruct Hin as [seg [_ Hm]].
    exact (keyMatch_not_star _ Hm).
  - intros H. rewrite (S H).
    rewrite (wildcard_last_no_trailing_slash t Hlast), append_empty_r.
    rewrite substituteAll_last by apply splitRun_nonempty.
    rewrite Hlast, keptTexts_app.
    change (substitute ps true "*") with (getParam ps "*").
    now rewrite K, app_nil_r.
Qed.

Lemma wildcard_absent_is_dropped_witness :
  last (segmentsOf "/files/*") EmptyString = "*"
  /\ isNullish (getParam [("id", PStr "7")] "*") = true
  /\ generatePath "/files/*" [("id", PStr "7")] = Ok "/files".
Proof.
  split; [reflexivity|split; [reflexivity|]].
  destruct (@wildcard_absent_is_dropped "/files/*" [("id", PStr "7")]
              eq_refl eq_refl) as [_ [_ [_ H]]].
  rewrite H; [reflexivity|]. intros k []. 
Defined.

(** ** Inflector *)

Local Ltac by_cases_on_char c :=
  destruct c as [[] [] [] [] [] [] [] []]; try discriminate; try reflexivity.

Lemma isLower_not_upper (c : ascii) : isLower c = true -> isUpper c = false.
Proof. by_cases_on_char c. Qed.

Lemma isLower_not_digit (c : ascii) : isLower c = true -> isDigit c = false.
Proof. by_cases_on_char c. Qed.

Lemma isUpper_not_digit (c : ascii) : isUpper c = true -> isDigit c = false.
Proof. by_cases_on_char c. Qed.

Lemma isUpper_not_lower (c : ascii) : isUpper c = true -> isLower c = false.
Proof. by_cases_on_char c. Qed.

Lemma toLower_lower (c : ascii) : isLower c = true -> toLower c = c.
Proof. by_cases_on_char c. Qed.

Lemma toLower_upper_isLower (c : ascii) : isUpper c = true -> isLower (toLower c) = true.
Proof. by_cases_on_char c. Qed.

Lemma toUpper_toLower (c : ascii) : isUpper c = true -> toUpper (toLower c) = c.
Proof. by_cases_on_char c. Qed.

Lemma isLower_word (c : ascii) : isLower c = true -> isWordChar c = true.
Proof. by_cases_on_char c. Qed.

Lemma isLower_plain (c : ascii) :
  isLower c = true ->
  Ascii.eqb c "_" = false /\ Ascii.eqb c "/" = false /\ Ascii.eqb c "-" = false.
Proof. by_cases_on_char c; intros _; repeat split. Qed.

Lemma isUpper_plain (c : ascii) :
  isUpper c = true -> Ascii.eqb c "-" = false.
Proof. by_cases_on_char c. Qed.

Lemma breakAcronyms_camel (s : string) :
  forall (afterCapital : bool) (run : string),
    camelTail afterCapital s = true ->
    String.length run <= 1 ->
    (afterCapital = false -> run = EmptyString) ->
    breakAcronyms run s = run ++ s.
Proof.
  induction s as [|c r IH]; intros p run H L R; cbn [breakAcronyms].
  - now rewrite append_empty_r.
  - cbn [camelTail] in H. destruct (isLower c) eqn:El.
    + rewrite (isLower_not_upper c El), (isLower_not_digit c El). cbn [orb].
      replace (Nat.leb 2 (String.length run)) with false
        by (symmetry; apply Nat.leb_gt; lia).
      cbn [andb]. rewrite (IH false EmptyString H); cbn; auto.
    + destruct (isUpper c) eqn:Eu; [|discriminate]. cbn [orb].
      apply andb_true_iff in H. destruct H as [Hp H].
      apply negb_true_iff in Hp. subst p. rewrite (R eq_refl).
      cbn [append]. rewrite (IH true (String c EmptyString) H); cbn; auto.
      discriminate.
Qed.

Lemma breakWords_camel (s : string) :
  forall (afterCapital : bool) (p : ascii),
    camelTail afterCapital s = true ->
    (if afterCapital then isUpper p else isLower p) = true ->
    mapString toLower (mapString dashToUnderscore (breakWords (Some p) s)) = snake s.
Proof.
  induction s as [|c r IH]; intros pu p H P; [reflexivity|].
  cbn [breakWords snake camelTail] in *. destruct (isLower c) eqn:El.
  - rewrite (isLower_not_upper c El), andb_false_r.
    cbn [mapString]. rewrite (IH false c H El).
    destruct (isLower_plain c El) as [_ [_ D]]. unfold dashToUnderscore.
    now rewrite D, (toLower_lower c El).
  - destruct (isUpper c) eqn:Eu; [|discriminate].
    apply andb_true_iff in H. destruct H as [Hp H].
    apply negb_true_iff in Hp. subst pu. rewrite P. cbn [orb andb mapString].
    rewrite (IH true c H Eu). unfold dashToUnderscore at 1 2.
    rewrite (isUpper_plain c Eu). reflexivity.
Qed.

Lemma underscore_camel (c : ascii) (r : string) :
  isCamelCase (String c r) = true ->
  underscore (String c r) = String c (snake r).
Proof.
  cbn [isCamelCase]. intros H. apply andb_true_iff in H. destruct H as [Hc Hr].
  unfold underscore.
  rewrite (@breakAcronyms_camel (String c r) false EmptyString).
  - cbn [append breakWords mapString].
    rewrite (breakWords_camel r false c Hr Hc).
    destruct (isLower_plain c Hc) as [_ [_ D]]. unfold dashToUnderscore.
    now rewrite D, (toLower_lower c Hc).
  - cbn [camelTail]. now rewrite Hc.
  - cbn. lia.
  - reflexivity.
Qed.

Lemma capitalizeParts_snake (s : string) (afterCapital : bool) :
  camelTail afterCapital s = true ->
  capitalizeParts false (snake s) = s.
Proof.
  revert afterCapital. induction s as [|c r IH]; intros p H; [reflexivity|].
  cbn [snake camelTail] in *. destruct (isLower c) eqn:El.
  - rewrite (isLower_not_upper c El). cbn [capitalizeParts].
    destruct (isLower_plain c El) as [U [S _]]. rewrite U, S, El, orb_true_r.
    cbn [orb]. now rewrite (IH false H).
  - destruct (isUpper c) eqn:Eu; [|discriminate].
    apply andb_true_iff in H. destruct H as [_ H].
    cbn [capitalizeParts]. change (Ascii.eqb "_" "_") with true. cbn iota.
    pose proof (toLower_upper_isLower c Eu) as L.
    destruct (isLower_plain _ L) as [U [S _]]. rewrite U, S, L, orb_true_r.
    cbn [orb]. now rewrite (toUpper_toLower c Eu), (IH true H).
Qed.

Lemma camelize_underscore (key : string) :
  isCamelCase key = true -> camelize (underscore key) = key.
Proof.
  destruct key as [|c r]; [discriminate|]. intros H.
  rewrite (underscore_camel c r H).
  cbn [isCamelCase] in H. apply andb_true_iff in H. destruct H as [Hc Hr].
  unfold camelize. rewrite (isLower_word c Hc), (toLower_lower c Hc).
  cbn [capitalizeParts]. destruct (isLower_plain c Hc) as [U [S _]].
  rewrite U, S, Hc, orb_true_r. cbn [orb].
  now rewrite (capitalizeParts_snake r false Hr).
Qed.

Example underscore_fooBar : underscore "fooBar" = "foo_bar".
Proof. reflexivity. Qed.

Example camelize_foo_bar : camelize "foo_bar" = "fooBar".
Proof. reflexivity. Qed.

(** ** Key-casing codec *)

Section ValueInduction.

Variable P : value -> Prop.
Hypothesis Pundefined : P VUndefined.
Hypothesis Pnull : P VNull.
Hypothesis Pbool : forall b, P (VBool b).
Hypothesis Pnumber : forall n, P (VNumber n).
Hypothesis Pstring : forall s, P (VString s).
Hypothesis Parray : forall items, Forall P items -> P (VArray items).
Hypothesis Pobject :
  forall entries, Forall (fun kv => P (snd kv)) entries -> P (VObject entries).
Hypothesis Psymbol : forall d, P (VSymbol d).
Hypothesis Pfunction : forall s, P (VFunction s).

Fixpoint value_deep_ind (v : value) : P v :=
  match v with
  | VUndefined => Pundefined
  | VNull => Pnull
  | VBool b => Pbool b
  | VNumber n => Pnumber n
  | VString s => Pstring s
  | VArray items =>
      Parray ((fix go (l : list value) : Forall P l :=
                 match l with
                 | [] => Forall_nil _
                 | x :: r => Forall_cons x (value_deep_ind x) (go r)
                 end) items)
  | VObject entries =>
      Pobject ((fix go (l : list (string * value))
                : Forall (fun kv => P (snd kv)) l :=
                  match l with
                  | [] => Forall_nil _
                  | kv :: r => Forall_cons kv (value_deep_ind (snd kv)) (go r)
                  end) entries)
  | VSymbol d => Psymbol d
  | VFunction s => Pfunction s
  end.

End ValueInduction.

Lemma setProp_fresh {A : Type} (k : string) (v : A) (o : list (string * A)) :
  existsb (String.eqb k) (map fst o) = false ->
  setProp k v o = (o ++ [(k, v)])%list.
Proof.
  induction o as [|[k' v'] r IH]; intros H; [reflexivity|].
  cbn in H. apply orb_false_iff in H. destruct H as [Hk Hr].
  cbn [setProp app]. rewrite String.eqb_sym, Hk. now rewrite IH.
Qed.

Lemma existsb_app_false (k : string) (xs ys : list string) :
  existsb (String.eqb k) (xs ++ ys) = false <->
  existsb (String.eqb k) xs = false /\ existsb (String.eqb k) ys = false.
Proof. rewrite existsb_app. apply orb_false_iff. Qed.

Lemma uniqueKeys_app_cons (xs ys : list string) (k : string) :
  uniqueKeys (xs ++ k :: ys) = true ->
  existsb (String.eqb k) xs = false /\ uniqueKeys ((xs ++ [k]) ++ ys) = true.
Proof.
  induction xs as [|x r IH]; cbn [app uniqueKeys existsb]; intros H.
  - split; [reflexivity|exact H].
  - apply andb_true_iff in H. destruct H as [Hx Hr].
    destruct (IH Hr) as [I1 I2]. apply negb_true_iff in Hx.
    apply existsb_app_false in Hx. destruct Hx as [Hx1 Hx2].
    cbn [existsb] in Hx2. apply orb_false_iff in Hx2. destruct Hx2 as [Hxk Hx2].
    split.
    + rewrite String.eqb_sym, Hxk. exact I1.
    + rewrite I2, andb_true_r. apply negb_true_iff.
      rewrite <- app_assoc. apply existsb_app_false. split; [exact Hx1|].
      cbn [app existsb]. now rewrite Hxk, Hx2.
Qed.

Lemma fold_setProp_unique {A : Type} (es acc : list (string * A)) :
  uniqueKeys (map fst (acc ++ es)) = true ->
  fold_left (fun o kv => setProp (fst kv) (snd kv) o) es acc = (acc ++ es)%list.
Proof.
  revert acc. induction es as [|[k v] r IH]; intros acc H.
  - now rewrite app_nil_r.
  - cbn [fold_left fst snd]. rewrite map_app in H. cbn [map fst] in H.
    apply uniqueKeys_app_cons in H. destruct H as [Hf Hu].
    rewrite setProp_fresh by exact Hf.
    rewrite IH.
    + now rewrite <- app_assoc.
    + rewrite !map_app. exact Hu.
Qed.

Lemma fromEntries_unique (es : list (string * value)) :
  uniqueKeys (map fst es) = true -> fromEntries es = es.
Proof. intros H. unfold fromEntries. now rewrite fold_setProp_unique. Qed.

Lemma existsb_underscore (k : string) (ks : list string) :
  isCamelCase k = true ->
  forallb isCamelCase ks = true ->
  existsb (String.eqb (underscore k)) (map underscore ks) = existsb (String.eqb k) ks.
Proof.
  intros Hk. induction ks as [|x r IH]; intros H; [reflexivity|].
  cbn [forallb] in H. apply andb_true_iff in H. destruct H as [Hx Hr].
  cbn [map existsb]. rewrite (IH Hr). f_equal.
  destruct (String.eqb k x) eqn:E.
  - apply String.eqb_eq in E. subst. apply String.eqb_refl.
  - apply String.eqb_neq. intros U. apply String.eqb_neq in E. apply E.
    rewrite <- (camelize_underscore k Hk), <- (camelize_underscore x Hx).
    now rewrite U.
Qed.

Lemma uniqueKeys_underscore (ks : list string) :
  forallb isCamelCase ks = true ->
  uniqueKeys ks = true ->
  uniqueKeys (map underscore ks) = true.
Proof.
  induction ks as [|k r IH]; intros H U; [reflexivity|].
  cbn [forallb] in H. apply andb_true_iff in H. destruct H as [Hk Hr].
  cbn [uniqueKeys] in U. apply andb_true_iff in U. destruct U as [Uk Ur].
  cbn [map uniqueKeys]. rewrite (existsb_underscore k r Hk Hr), Uk. exact (IH Hr Ur).
Qed.

Lemma camel_entries_keys (entries : list (string * value)) :
  forallb (fun kv => isCamelCase (fst kv) && camelKeys (snd kv)) entries = true ->
  forallb isCamelCase (map fst entries) = true.
Proof.
  induction entries as [|kv r IH]; cbn [forallb map]; [reflexivity|].
  intros H. apply andb_true_iff in H. destruct H as [H Hr].
  apply andb_true_iff in H. destruct H as [Hk _]. now rewrite Hk, IH.
Qed.

Lemma height_item (x : value) (items : list value) :
  In x items -> height x <= fold_right (fun y n => Nat.max (height y) n) 0 items.
Proof.
  induction items as [|y r IH]; [intros []|].
  intros [->|H]; cbn [fold_right]; [lia|]. specialize (IH H). lia.
Qed.

Lemma height_entry (kv : string * value) (entries : list (string * value)) :
  In kv entries ->
  height (snd kv) <= fold_right (fun e n => Nat.max (height (snd e)) n) 0 entries.
Proof.
  induction entries as [|y r IH]; [intros []|].
  intros [->|H]; cbn [fold_right]; [lia|]. specialize (IH H). lia.
Qed.

Lemma walkItems_docs (walk : string -> value -> Walk) (f : value -> value)
      (items : list value) :
  (forall key x, In x items -> walk key x = Doc (f x)) ->
  forall index, walkItems walk index items = Some (map f items).
Proof.
  induction items as [|x r IH]; intros H index; [reflexivity|].
  cbn [walkItems map]. rewrite (H _ x (or_introl eq_refl)).
  rewrite IH; [reflexivity|]. intros key y Hy. apply H. now right.
Qed.

Lemma walkEntries_docs (walk : string -> value -> Walk) (g : string -> string)
      (f : value -> value) (entries : list (string * value)) :
  (forall key kv, In kv entries -> walk key (snd kv) = Doc (f (snd kv))) ->
  walkEntries walk (map (fun kv => (g (fst kv), snd kv)) entries) =
  Some (map (fun kv => (g (fst kv), f (snd kv))) entries).
Proof.
  induction entries as [|[k x] r IH]; intros H; [reflexivity|].
  cbn [walkEntries map fst snd]. rewrite (H _ (k, x) (or_introl eq_refl)).
  cbn [snd]. rewrite IH; [reflexivity|]. intros key y Hy. apply H. now right.
Qed.

(** The walk of [serialize] never runs out of fuel on a JSON-compatible
    value and writes the value with its keys in the wire casing. *)
Lemma stringifyWalk_wire (x : value) :
  isJson x = true -> camelKeys x = true ->
  forall fuel key, height x < fuel ->
    stringifyWalk fuel serializeReplacer key x = Doc (renameKeys underscore x).
Proof.
  induction x as [| | | | |items IH|entries IH| |] using value_deep_ind;
    intros J C fuel key F; try discriminate;
    (destruct fuel as [|fuel]; [lia|]); try reflexivity.
  - cbn [stringifyWalk serializeReplacer renameKeys].
    rewrite (@walkItems_docs _ (renameKeys underscore)); [reflexivity|].
    intros k x Hx. rewrite Forall_forall in IH. apply (IH x Hx).
    + cbn [isJson] in J. rewrite forallb_forall in J. now apply J.
    + cbn [camelKeys] in C. rewrite forallb_forall in C. now apply C.
    + pose proof (height_item x items Hx). cbn [height] in F. lia.
  - cbn [stringifyWalk serializeReplacer renameKeys].
    cbn [isJson] in J. apply andb_true_iff in J. destruct J as [J U].
    cbn [camelKeys] in C.
    rewrite fromEntries_unique.
    + rewrite (@walkEntries_docs _ underscore (renameKeys underscore)); [reflexivity|].
      intros k kv Hkv. rewrite Forall_forall in IH. apply (IH kv Hkv).
      * rewrite forallb_forall in J. now apply J.
      * rewrite forallb_forall in C. specialize (C kv Hkv).
        now apply andb_true_iff in C.
      * pose proof (height_entry kv entries Hkv). cbn [height] in F. lia.
    + rewrite map_map. cbn [fst]. rewrite <- (map_map fst underscore).
      apply uniqueKeys_underscore; [now apply camel_entries_keys|exact U].
Qed.

Lemma setProp_In {A : Type} (k : string) (v : A) (o : list (string * A))
      (kv : string * A) :
  In kv (setProp k v o) -> kv = (k, v) \/ In kv o.
Proof.
  induction o as [|[k' v'] r IH]; cbn [setProp].
  - intros [<-|[]]. now left.
  - destruct (String.eqb k' k).
    + intros [<-|H]; [now left|right; now right].
    + intros [<-|H]; [right; now left|].
      destruct (IH H) as [->|H']; [now left|right; now right].
Qed.

Lemma fromEntries_In (es : list (string * value)) (kv : string * value) :
  In kv (fromEntries es) -> In kv es.
Proof.
  unfold fromEntries.
  enough (G : forall acc, In kv (fold_left (fun o e => setProp (fst e) (snd e) o) es acc)
                          -> In kv acc \/ In kv es).
  { intros H. destruct (G [] H) as [[]|H']. exact H'. }
  induction es as [|[k v] r IH]; intros acc H; [now left|].
  cbn [fold_left fst snd] in H. destruct (IH _ H) as [H'|H']; [|right; now right].
  apply setProp_In in H'. destruct H' as [->|H']; [right; now left|now left].
Qed.

Lemma walkItems_total (walk : string -> value -> Walk) (items : list value) :
  (forall key x, In x items -> walk key x <> OutOfFuel) ->
  forall index, walkItems walk index items <> None.
Proof.
  induction items as [|x r IH]; intros H index; [discriminate|].
  cbn [walkItems]. specialize (H (stringOfZ (Z.of_nat index)) x (or_introl eq_refl)) as Hx.
  assert (Hr : walkItems walk (S index) r <> None)
    by (apply IH; intros key y Hy; apply H; now right).
  destruct (walk _ x); [congruence| |];
    destruct (walkItems walk (S index) r); congruence.
Qed.

Lemma walkEntries_total (walk : string -> value -> Walk)
      (entries : list (string * value)) :
  (forall key kv, In kv entries -> walk key (snd kv) <> OutOfFuel) ->
  walkEntries walk entries <> None.
Proof.
  induction entries as [|[k x] r IH]; intros H; [discriminate|].
  cbn [walkEntries]. specialize (H k (k, x) (or_introl eq_refl)) as Hx. cbn in Hx.
  assert (Hr : walkEntries walk r <> None)
    by (apply IH; intros key y Hy; apply H; now right).
  destruct (walk k x); [congruence| |];
    destruct (walkEntries walk r); congruence.
Qed.

(** The walk of [serialize] has fuel enough on every value: the replacer
    renames keys and never deepens what it is given. *)
Lemma stringifyWalk_total (x : value) :
  forall fuel key, height x < fuel ->
    stringifyWalk fuel serializeReplacer key x <> OutOfFuel.
Proof.
  induction x as [| | | | |items IH|entries IH| |] using value_deep_ind;
    intros fuel key F; (destruct fuel as [|fuel]; [lia|]);
    cbn [stringifyWalk serializeReplacer]; try discriminate.
  - assert (W : walkItems (stringifyWalk fuel serializeReplacer) 0 items <> None).
    { apply walkItems_total. intros k x Hx. rewrite Forall_forall in IH.
      apply (IH x Hx). pose proof (height_item x items Hx). cbn [height] in F. lia. }
    destruct (walkItems _ 0 items); [discriminate|congruence].
  - assert (W : walkEntries (stringifyWalk fuel serializeReplacer)
                  (fromEntries (map (fun kv => (underscore (fst kv), snd kv)) entries))
                <> None).
    { apply walkEntries_total. intros k kv Hkv. apply fromEntries_In in Hkv.
      apply in_map_iff in Hkv. destruct Hkv as [e [<- He]]. cbn [snd].
      rewrite Forall_forall in IH. apply (IH e He).
      pose proof (height_entry e entries He). cbn [height] in F. lia. }
    destruct (walkEntries _ _); [discriminate|congruence].
Qed.

Lemma isJson_defined (x : value) :
  isJson x = true -> match x with VUndefined => false | _ => true end = true.
Proof. destruct x; auto. Qed.

(** The walk of [parse] gives the internal value back from its wire form. *)
Lemma reviveWalk_wire (x : value) :
  isJson x = true -> camelKeys x = true ->
  forall key, reviveWalk parseReviver key (renameKeys underscore x) = x.
Proof.
  induction x as [| | | | |items IH|entries IH| |] using value_deep_ind;
    intros J C key; try discriminate; try reflexivity.
  - cbn [renameKeys reviveWalk parseReviver]. f_equal.
    cbn [isJson] in J. cbn [camelKeys] in C. generalize 0.
    induction items as [|x r IHr]; intros index; [reflexivity|].
    cbn [forallb] in J, C. apply andb_true_iff in J. apply andb_true_iff in C.
    destruct J as [Jx Jr]. destruct C as [Cx Cr].
    inversion IH as [|? ? Hx Hr]; subst. cbn [map]. f_equal.
    + now apply Hx.
    + now apply IHr.
  - cbn [renameKeys reviveWalk parseReviver].
    cbn [isJson] in J. apply andb_true_iff in J. destruct J as [J U].
    cbn [camelKeys] in C. rewrite forallb_forall in J, C.
    rewrite map_map. cbn [fst snd].
    assert (E : map (fun kv : string * value =>
                       (underscore (fst kv),
                        reviveWalk parseReviver (underscore (fst kv))
                                   (renameKeys underscore (snd kv)))) entries
                = map (fun kv => (underscore (fst kv), snd kv)) entries).
    { apply map_ext_in. intros kv Hkv. f_equal.
      rewrite Forall_forall in IH. apply (IH kv Hkv); [now apply J|].
      specialize (C kv Hkv). now apply andb_true_iff in C. }
    rewrite E. clear E.
    assert (K : filter (fun kv : string * value =>
                          match snd kv with VUndefined => false | _ => true end)
                       (map (fun kv => (underscore (fst kv), snd kv)) entries)
                = map (fun kv => (underscore (fst kv), snd kv)) entries).
    { apply forallb_filter_id. apply forallb_forall. intros kv Hkv.
      apply in_map_iff in Hkv. destruct Hkv as [e [<- He]]. cbn [snd].
      apply isJson_defined. now apply J. }
    rewrite K, map_map. cbn [fst snd]. clear K.
    assert (R : map (fun kv : string * value => (camelize (underscore (fst kv)), snd kv))
                    entries = entries).
    { rewrite <- (map_id entries) at 2. apply map_ext_in. intros [k v] Hkv.
      cbn [fst snd]. f_equal. apply camelize_underscore.
      specialize (C _ Hkv). now apply andb_true_iff in C. }
    rewrite R. now rewrite fromEntries_unique.
Qed.

Section CodecRoundTrip.

Variable JSON_text : value -> string.
Variable JSON_read : string -> option value.

Lemma serialize_wire (x : value) :
  isJson x = true -> camelKeys x = true ->
  serialize JSON_text x = Some (JSON_text (renameKeys underscore x)).
Proof.
  intros J C. unfold serialize.
  rewrite stringifyWalk_wire; auto.
Qed.

(** C4 — for a JSON-compatible value whose object keys are all in the
    internal casing, [serialize] gives a text and [parse] of that text is
    the value again, provided the JSON text layer of the platform reads back
    the document it wrote. *)
Theorem parse_serialize_round_trip (x : value) :
  isJson x = true ->
  camelKeys x = true ->
  JSON_read (JSON_text (renameKeys underscore x)) = Some (renameKeys underscore x) ->
  exists wire,
    serialize JSON_text x = Some wire /\ parse JSON_read wire = Some x.
Proof.
  intros J C T. exists (JSON_text (renameKeys underscore x)). split.
  - now apply serialize_wire.
  - unfold parse. rewrite T. f_equal. now apply reviveWalk_wire.
Qed.

End CodecRoundTrip.

Lemma parse_serialize_round_trip_witness :
  exists wire,
    serialize compactText (VObject [("fooBar", VString "baz")]) = Some wire
    /\ parse suiteRead wire = Some (VObject [("fooBar", VString "baz")]).
Proof.
  apply (@parse_serialize_round_trip compactText suiteRead
           (VObject [("fooBar", VString "baz")])); reflexivity.
Defined.

(** The two tests of the codec. *)
Example serialize_suite :
  serialize compactText (VObject [("fooBar", VString "baz")]) = Some suiteText.
Proof. reflexivity. Qed.

Example parse_suite :
  parse suiteRead suiteText = Some (VObject [("fooBar", VString "baz")]).
Proof. reflexivity. Qed.

(** Outside the internal casing the round trip is lost: two capitals in a
    row come back as one. *)
Example camelize_underscore_userID : camelize (underscore "userID") = "userId".
Proof. reflexivity. Qed.

(** ** Query encoder *)


Lemma combine_map_l {A B C : Type} (f : A -> B) (g : A -> C) (xs : list A) :
  combine (map f xs) (map g xs) = map (fun x => (f x, g x)) xs.
Proof. induction xs as [|x r IH]; cbn; [reflexivity|now rewrite IH]. Qed.




(** [String] never fails on a JSON-compatible value. *)
Lemma valueText_json (v : value) :
  isJson v = true -> exists t, valueText v = Ok t.
Proof.
  induction v as [| |b|n|s|items IH|entries IH| |] using value_deep_ind;
    intros J; try discriminate; try (eexists; reflexivity).
  - destruct b; eexists; reflexivity.
  - cbn [isJson] in J. cbn [valueText].
    match goal with |- context [match ?m with Ok _ => _ | Throw _ => _ end] =>
      assert (E : exists ts, m = Ok ts) end.
    { induction items as [|x r IHr]; [now exists []|].
      cbn [forallb] in J. apply andb_true_iff in J. destruct J as [Jx Jr].
      inversion IH as [|? ? Hx Hr]; subst.
      destruct (IHr Hr Jr) as [ts Ets]. destruct (Hx Jx) as [t Et].
      rewrite Ets.
      destruct x; try discriminate; try (rewrite Et); eexists; reflexivity. }
    destruct E as [ts ->]. eexists; reflexivity.
Qed.

Example encode_id_list :
  encodeSearch [] [("id", VArray [VNumber 1; VNumber 2; VNumber 3])]
  = Ok [("id", "1"); ("id", "2"); ("id", "3")].
Proof. reflexivity. Qed.

Example encode_filter_object :
  encodeSearch []
    [("filter", VObject [("color", VString "red"); ("quantity", VNumber 1)])]
  = Ok [("filter[color]", "red"); ("filter[quantity]", "1")].
Proof. reflexivity. Qed.

(** The search variables of the test suite. *)
Example encode_suite :
  encodeSearch []
    [("name", VString "Sergio"); ("age", VNumber 30); ("isActive", VBool true);
     ("nullish", VNull); ("list", VArray [VString "a"; VString "b"]);
     ("record", VObject [("a", VString "a"); ("b", VString "b")]);
     ("symbol", VSymbol "")]
  = Ok [("name", "Sergio"); ("age", "30"); ("isActive", "true");
        ("list", "a"); ("list", "b"); ("record[a]", "a"); ("record[b]", "b")].
Proof. reflexivity. Qed.

Lemma spSet_fresh (k v : string) (sp : SearchParams) :
  existsb (String.eqb k) (map fst sp) = false ->
  spSet k v sp = (sp ++ [(k, v)])%list.
Proof.
  induction sp as [|[k' x] r IH]; intros H; [reflexivity|].
  cbn in H. apply orb_false_iff in H. destruct H as [Hk Hr].
  cbn [spSet app]. rewrite String.eqb_sym, Hk. now rewrite IH.
Qed.

Lemma existsb_false_iff (k : string) (l : list string) :
  existsb (String.eqb k) l = false <-> ~ In k l.
Proof.
  split.
  - intros H I. assert (T : existsb (String.eqb k) l = true).
    { apply existsb_exists. exists k. split; [exact I|apply String.eqb_refl]. }
    congruence.
  - intros N. destruct (existsb (String.eqb k) l) eqn:E; [|reflexivity].
    apply existsb_exists in E. destruct E as [x [I E]].
    apply String.eqb_eq in E. subst. contradiction.
Qed.

Lemma appendAll_allTexts (names : list string) :
  forall (vs : list value) (sp : SearchParams),
    List.length names = List.length vs ->
    appendAll sp (combine names vs)
    = match allTexts vs with
      | Ok ts => Ok (sp ++ combine names ts)%list
      | Throw e => Throw e
      end.
Proof.
  induction names as [|n ns IH]; intros vs sp L.
  - destruct vs; [|discriminate]. cbn. now rewrite app_nil_r.
  - destruct vs as [|v vs']; [discriminate|]. injection L as L.
    cbn [combine appendAll allTexts]. destruct (valueText v) as [t|e]; [|reflexivity].
    rewrite (IH vs' _ L). destruct (allTexts vs') as [ts|e]; [|reflexivity].
    unfold spAppend. cbn [combine]. now rewrite <- app_assoc.
Qed.

Lemma combine_const {A : Type} (key : string) (xs : list A) (ts : list string) :
  List.length xs = List.length ts ->
  combine (map (fun _ => key) xs) ts = map (fun t => (key, t)) ts.
Proof.
  revert ts. induction xs as [|x r IH]; intros [|t ts] L; try discriminate;
    [reflexivity|].
  injection L as L. cbn. now rewrite (IH ts L).
Qed.

Lemma allTexts_length (vs : list value) (ts : list string) :
  allTexts vs = Ok ts -> List.length vs = List.length ts.
Proof.
  revert ts. induction vs as [|v r IH]; intros ts H.
  - injection H as <-. reflexivity.
  - cbn [allTexts] in H. destruct (valueText v); [|discriminate].
    destruct (allTexts r) as [ts'|]; [|discriminate].
    injection H as <-. cbn. now rewrite (IH ts' eq_refl).
Qed.

(** One turn of the loop adds the pairs the specification gives the entry,
    when the query holds nothing under the entry's key yet. *)
Lemma encodeEntry_pairs (sp : SearchParams) (kv : string * value) :
  existsb (String.eqb (fst kv)) (map fst sp) = false ->
  encodeEntry sp kv
  = match queryPairs kv with
    | Ok ps => Ok (sp ++ ps)%list
    | Throw e => Throw e
    end.
Proof.
  destruct kv as [key v]. cbn [fst]. intros N.
  destruct v as [| |b|n|s|items|entries|d|src]; cbn [encodeEntry queryPairs];
    rewrite ?app_nil_r; try reflexivity.
  - destruct b; cbn [valueText]; now rewrite spSet_fresh.
  - cbn [valueText]. now rewrite spSet_fresh.
  - cbn [valueText]. now rewrite spSet_fresh.
  - rewrite <- (combine_map_l (fun _ => key) (fun item => item) items), map_id.
    rewrite appendAll_allTexts by apply length_map.
    destruct (allTexts items) as [ts|e] eqn:T; [|reflexivity].
    now rewrite (combine_const key items ts (allTexts_length _ T)).
  - rewrite <- (combine_map_l (fun e => key ++ "[" ++ fst e ++ "]") snd entries).
    rewrite appendAll_allTexts by (now rewrite !length_map).
    now destruct (allTexts (map snd entries)).
Qed.

Lemma includes_bracket (key rest : string) :
  includes "[" (key ++ "[" ++ rest) = true.
Proof.
  induction key as [|c r IH].
  - cbn [append includes String.prefix].
    destruct (ascii_dec "["%char "["%char) as [_|N]; [|now destruct N].
    now destruct rest.
  - cbn [append includes] in *. rewrite IH. apply orb_true_r.
Qed.

Lemma queryPairs_names (kv : string * value) (ps : list (string * string)) :
  queryPairs kv = Ok ps ->
  forall n, In n (map fst ps) -> n = fst kv \/ includes "[" n = true.
Proof.
  destruct kv as [key v]. cbn [fst]. intros Q n I.
  assert (S : forall t, Ok [(key, t)] = Ok ps -> n = key).
  { intros t H. injection H as <-. destruct I as [<-|[]]. reflexivity. }
  destruct v as [| |b|m|s|items|entries|d|src]; cbn [queryPairs valueText] in Q.
  - injection Q as <-. destruct I.
  - injection Q as <-. destruct I.
  - left. destruct b; exact (S _ Q).
  - left. exact (S _ Q).
  - left. exact (S _ Q).
  - left. destruct (allTexts items) as [ts|]; [|discriminate].
    injection Q as <-. rewrite map_map in I. cbn [fst] in I.
    apply in_map_iff in I. destruct I as [t [E _]]. now symmetry.
  - right. destruct (allTexts (map snd entries)) as [ts|]; [|discriminate].
    injection Q as <-. apply in_map_iff in I. destruct I as [[a b] [E I]].
    cbn [fst] in E. subst a. apply in_combine_l in I.
    apply in_map_iff in I. destruct I as [e [E _]]. subst n.
    apply includes_bracket.
  - injection Q as <-. destruct I.
  - injection Q as <-. destruct I.
Qed.

(** The loop adds the pairs of the entries one after the other, as long as
    no entry can overwrite what an earlier one added. *)
Lemma encodeSearch_closed (entries : list (string * value)) :
  forall sp,
    uniqueKeys (map fst entries) = true ->
    bracketFree entries = true ->
    (forall kv, In kv entries -> ~ In (fst kv) (map fst sp)) ->
    encodeSearch sp entries
    = match queryOf entries with
      | Ok ps => Ok (sp ++ ps)%list
      | Throw e => Throw e
      end.
Proof.
  induction entries as [|kv r IH]; intros sp U B D.
  - cbn. now rewrite app_nil_r.
  - cbn [map uniqueKeys] in U. apply andb_true_iff in U. destruct U as [Uk Ur].
    unfold bracketFree in B. cbn [forallb] in B. apply andb_true_iff in B.
    destruct B as [Bk Br].
    cbn [encodeSearch queryOf]. rewrite encodeEntry_pairs
      by (apply existsb_false_iff; apply D; now left).
    destruct (queryPairs kv) as [ps|e] eqn:Q; [|reflexivity].
    rewrite IH; [|exact Ur|exact Br|].
    + destruct (queryOf r) as [qs|e]; [|reflexivity]. now rewrite <- app_assoc.
    + intros kv' I N. rewrite map_app in N. apply in_app_or in N.
      destruct N as [N|N]; [exact (D kv' (or_intror I) N)|].
      destruct (queryPairs_names _ Q _ N) as [E|E].
      * apply negb_true_iff in Uk. apply existsb_false_iff in Uk. apply Uk.
        rewrite <- E. apply in_map. exact I.
      * rewrite forallb_forall in Br. specialize (Br kv' I).
        apply negb_true_iff in Br. congruence.
Qed.




(** ** Request engine *)

Lemma bind_ok {A B : Type} (m : M A) (f : A -> M B) (t : list Event) (a : A) :
  m = (t, Ok a) -> bind m f = ((t ++ fst (f a))%list, snd (f a)).
Proof. intros ->. unfold bind. now destruct (f a). Qed.

Lemma bind_throw {A B : Type} (m : M A) (f : A -> M B) (t : list Event) (e : Err) :
  m = (t, Throw e) -> bind m f = (t, Throw e).
Proof. now intros ->. Qed.

Lemma bind_fst_ok {A B : Type} (m : M A) (f : A -> M B) (a : A) :
  snd m = Ok a -> fst (bind m f) = (fst m ++ fst (f a))%list.
Proof. destruct m as [t r]. cbn. intros ->. now destruct (f a). Qed.

Lemma bind_snd_ok {A B : Type} (m : M A) (f : A -> M B) (a : A) :
  snd m = Ok a -> snd (bind m f) = snd (f a).
Proof. destruct m as [t r]. cbn. intros ->. now destruct (f a). Qed.

Lemma bind_fst_throw {A B : Type} (m : M A) (f : A -> M B) (e : Err) :
  snd m = Throw e -> fst (bind m f) = fst m.
Proof. destruct m as [t r]. cbn. now intros ->. Qed.

Lemma bind_snd_throw {A B : Type} (m : M A) (f : A -> M B) (e : Err) :
  snd m = Throw e -> snd (bind m f) = Throw e.
Proof. destruct m as [t r]. cbn. now intros ->. Qed.

Lemma measure_relays : relays measure.
Proof.
  intros key fn. exists [], [EvLog key]. repeat split. Qed.

Lemma passthrough_relays : relays (fun _ fn => fn).
Proof.
  intros key fn. exists [], []. repeat split.
  cbn. rewrite app_nil_r. now destruct fn.
Qed.

Lemma dispatched_app (t u : list Event) :
  dispatched (t ++ u) = (dispatched t ++ dispatched u)%list.
Proof. unfold dispatched. apply flat_map_app. Qed.

Lemma bodyReads_app (t u : list Event) :
  bodyReads (t ++ u) = bodyReads t + bodyReads u.
Proof. unfold bodyReads. now rewrite filter_app, length_app. Qed.

Lemma logs_dispatch_nothing (t : list Event) :
  forallb isLog t = true -> dispatched t = [] /\ bodyReads t = 0.
Proof.
  induction t as [|ev r IH]; [now split|].
  cbn [forallb]. intros H. apply andb_true_iff in H. destruct H as [He Hr].
  destruct ev; try discriminate. exact (IH Hr).
Qed.

Section EngineFacts.

Variable JSON_text : value -> string.
Variable JSON_read : string -> option value.
Variable fetch : Request -> Result Response.

Lemma getURL_trace (cfg : Configuration) (path : string) (ps : option Params) :
  fst (getURL cfg path ps) = [].
Proof. unfold getURL, lift, bind, ret. now destruct (generatePath _ _). Qed.

Lemma getSearchParams_trace (route : EndpointOptions) (url : URL) (s : value) :
  fst (getSearchParams route url s) = [].
Proof.
  unfold getSearchParams, lift, bind, ret, throw.
  destruct (search route) as [| |schema]; try reflexivity.
  destruct (schema s) as [parsed|]; [|reflexivity].
  destruct (objectEntries parsed) as [entries|]; [|reflexivity].
  now destruct (encodeSearch (searchParams url) entries).
Qed.

Lemma getBody_trace (route : EndpointOptions) (bv : value) :
  fst (getBody JSON_text route bv) = [].
Proof.
  unfold getBody, lift, bind, ret.
  destruct (body route) as [| |schema]; try reflexivity.
  now destruct (schema bv).
Qed.

Lemma buildBody_trace (method : Method) (options : RequestOptions)
      (route : EndpointOptions) :
  fst (buildBody JSON_text method options route) = [].
Proof.
  unfold buildBody. destruct (variables options) as [[p s [bv|]]|]; try reflexivity.
  destruct (isGET method); [reflexivity|apply getBody_trace].
Qed.

Lemma buildTarget_trace (cfg : Configuration) (token : option string)
      (endpoint : string) (options : RequestOptions) :
  dispatched (fst (buildTarget cfg token endpoint options)) = []
  /\ bodyReads (fst (buildTarget cfg token endpoint options)) = 0.
Proof.
  unfold buildTarget.
  destruct (lookupEndpoint (endpoints cfg) endpoint) as [route|]; [|now split].
  destruct (parseEndpoint endpoint) as [mp|e]; [|now split].
  cbn [lift bind app].
  match goal with |- context [getURL ?c ?p ?q] =>
    pose proof (getURL_trace c p q) as U; destruct (getURL c p q) as [tu [url|e]] end;
    cbn [fst] in U; subst tu; [|now split].
  cbn [bind app].
  match goal with |- context [bind ?m _] =>
    assert (S : fst m = []);
      [destruct (variables options) as [[p [s|] b]|];
         try reflexivity; apply getSearchParams_trace|];
      destruct m as [ts [url'|e]] end;
    cbn [fst] in S; subst ts; [|now split].
  cbn [bind app].
  destruct (credentials cfg) as [hook|].
  - cbn [emit bind lift app]. destruct (hook _ _ _); now split.
  - now split.
Qed.

Lemma prepare_trace (cfg : Configuration) (token : option string)
      (endpoint : string) (options : RequestOptions) :
  dispatched (fst (prepare JSON_text cfg token endpoint options)) = []
  /\ bodyReads (fst (prepare JSON_text cfg token endpoint options)) = 0.
Proof.
  unfold prepare.
  pose proof (buildTarget_trace cfg token endpoint options) as [D R].
  destruct (buildTarget cfg token endpoint options) as [t [[[[route method] url] hs]|e]];
    cbn [fst] in D, R; [|now split].
  cbn [bind]. unfold checkSignal.
  destruct (signal options) as [[|]|]; cbn [throw ret bind app];
    try (rewrite app_nil_r; now split).
  - pose proof (buildBody_trace method options route) as B.
    destruct (buildBody JSON_text method options route) as [tb [b|e]];
      cbn [fst] in B; subst tb; cbn; rewrite app_nil_r; now split.
  - pose proof (buildBody_trace method options route) as B.
    destruct (buildBody JSON_text method options route) as [tb [b|e]];
      cbn [fst] in B; subst tb; cbn; rewrite app_nil_r; now split.
Qed.


Lemma request_unprepared (cfg : Configuration) (token : option string)
      (endpoint : string) (options : RequestOptions) (e : Err) :
  snd (prepare JSON_text cfg token endpoint options) = Throw e ->
  request JSON_text JSON_read fetch cfg token endpoint options
  = (fst (prepare JSON_text cfg token endpoint options), Throw e).
Proof.
  intros H. unfold request.
  destruct (prepare JSON_text cfg token endpoint options) as [t r].
  cbn in H. subst r. reflexivity.
Qed.

Lemma request_prepared (cfg : Configuration) (token : option string)
      (endpoint : string) (options : RequestOptions)
      (t : list Event) (route : EndpointOptions) (rq : Request) :
  prepare JSON_text cfg token endpoint options = (t, Ok (route, rq)) ->
  relays (measurerOf cfg) ->
  exists pre post,
    forallb isLog pre = true /\ forallb isLog post = true
    /\ request JSON_text JSON_read fetch cfg token endpoint options
       = ((t ++ pre ++ fst (dispatch JSON_read fetch endpoint route rq) ++ post)%list,
          snd (dispatch JSON_read fetch endpoint route rq)).
Proof.
  intros P R. unfold request. rewrite P. cbn [bind fst snd].
  destruct (R endpoint (dispatch JSON_read fetch endpoint route rq))
    as [pre [post [Hpre [Hpost E]]]].
  exists pre, post. rewrite E. auto.
Qed.

Lemma classify_trace (endpoint : string) (route : EndpointOptions)
      (response : Response) (parsed : value) :
  fst (classify endpoint route response parsed) = [].
Proof.
  unfold classify, lift, bind, ret, throw.
  destruct (_ && _).
  - destruct (expects_failure route); [|reflexivity].
    now destruct (expects_success route parsed).
  - destruct (_ && _); [|reflexivity].
    destruct (expects_failure route) as [F|]; [|reflexivity].
    now destruct (F parsed).
Qed.

Lemma dispatch_non_json (endpoint : string) (route : EndpointOptions)
      (rq : Request) (response : Response) :
  fetch rq = Ok response ->
  saysJson response = false ->
  dispatch JSON_read fetch endpoint route rq
  = ([EvFetch rq], Throw (NonJsonResponse endpoint)).
Proof.
  intros F J. unfold dispatch, saysJson in *. rewrite F.
  cbn [emit lift bind app]. rewrite J. reflexivity.
Qed.

Lemma dispatch_json (endpoint : string) (route : EndpointOptions)
      (rq : Request) (response : Response) (parsed : value) :
  fetch rq = Ok response ->
  saysJson response = true ->
  parse JSON_read (text response) = Some parsed ->
  dispatch JSON_read fetch endpoint route rq
  = ([EvFetch rq; EvReadBody], snd (classify endpoint route response parsed)).
Proof.
  intros F J P. unfold dispatch, saysJson in *. rewrite F.
  cbn [emit lift bind app]. rewrite J, P. cbn [negb bind app].
  pose proof (classify_trace endpoint route response parsed) as C.
  destruct (classify endpoint route response parsed) as [tc r].
  cbn in C. subst tc. reflexivity.
Qed.

Lemma buildTarget_inv (cfg : Configuration) (token : option string)
      (endpoint : string) (options : RequestOptions) (t : list Event)
      (route : EndpointOptions) (method : Method) (url : URL) (hs : Headers) :
  buildTarget cfg token endpoint options = (t, Ok (route, method, url, hs)) ->
  lookupEndpoint (endpoints cfg) endpoint = Some route
  /\ exists path generated,
       parseEndpoint endpoint = Ok (method, path)
       /\ generatePath path (suppliedParams options) = Ok generated
       /\ (credentials cfg = None -> reference url = slice1 generated).
Proof.
  unfold buildTarget.
  destruct (lookupEndpoint (endpoints cfg) endpoint) as [r0|]; [|discriminate].
  destruct (parseEndpoint endpoint) as [[m p]|]; [|discriminate].
  cbn [lift bind app fst snd]. unfold getURL.
  assert (PS : match variables options with
               | Some vars => match var_params vars with Some q => q | None => [] end
               | None => []
               end = suppliedParams options).
  { unfold suppliedParams. destruct (variables options) as [[[q|] s b]|]; reflexivity. }
  assert (G : generatePath p
                match match variables options with
                      | Some vars => var_params vars
                      | None => None
                      end with
                | Some q => q
                | None => []
                end = generatePath p (suppliedParams options)).
  { rewrite <- PS. destruct (variables options) as [[[q|] s b]|]; reflexivity. }
  rewrite G. clear G PS.
  destruct (generatePath p (suppliedParams options)) as [generated|] eqn:GP;
    [|discriminate].
  cbn [lift bind ret app fst snd].
  match goal with |- context [bind ?m _] =>
    assert (S : forall ts u, m = (ts, Ok u) -> reference u = slice1 generated);
      [|destruct m as [ts [url'|]]; [|discriminate]] end.
  { intros ts u. destruct (variables options) as [[q [sv|] b]|];
      try (intros H; now injection H as _ <-).
    unfold getSearchParams. destruct (search _) as [| |schema]; cbn;
      try discriminate; try (intros H; now injection H as _ <-).
    destruct (schema sv) as [parsed|]; [|discriminate]. cbn.
    destruct (objectEntries parsed) as [entries|]; [|discriminate]. cbn.
    destruct (encodeSearch _ entries); [|discriminate]. cbn.
    intros H. now injection H as _ <-. }
  specialize (S _ _ eq_refl). cbn [bind].
  destruct (credentials cfg) as [hook|].
  - cbn [emit lift bind app]. destruct (hook _ _ _) as [[u h]|]; cbn;
      [|discriminate].
    intros H. injection H as _ <- <- _ _.
    split; [reflexivity|]. exists p, generated.
    split; [reflexivity|split; [exact GP|intros C; discriminate C]].
  - cbn. intros H. injection H as _ <- <- <- _.
    split; [reflexivity|]. exists p, generated.
    split; [reflexivity|split; [exact GP|intros _; exact S]].
Qed.

Lemma prepare_inv (cfg : Configuration) (token : option string)
      (endpoint : string) (options : RequestOptions)
      (t : list Event) (route : EndpointOptions) (rq : Request) :
  prepare JSON_text cfg token endpoint options = (t, Ok (route, rq)) ->
  exists tt tb,
    buildTarget cfg token endpoint options
    = (tt, Ok (route, rq_method rq, rq_url rq, rq_headers rq))
    /\ signal options <> Some true
    /\ buildBody JSON_text (rq_method rq) options route = (tb, Ok (rq_body rq))
    /\ rq_signal rq = signal options.
Proof.
  unfold prepare.
  destruct (buildTarget cfg token endpoint options)
    as [tt [[[[r0 m0] u0] h0]|]]; [|discriminate].
  cbn [bind]. unfold checkSignal.
  destruct (signal options) as [[|]|] eqn:Sg; cbn [throw ret bind app];
    try discriminate.
  - destruct (buildBody JSON_text m0 options r0) as [tb [b|]] eqn:B; [|discriminate].
    cbn. intros H. injection H as _ <- <-. cbn.
    exists tt, tb. repeat split; auto. discriminate.
  - destruct (buildBody JSON_text m0 options r0) as [tb [b|]] eqn:B; [|discriminate].
    cbn. intros H. injection H as _ <- <-. cbn.
    exists tt, tb. repeat split; auto. discriminate.
Qed.

Lemma prepare_route (cfg : Configuration) (token : option string)
      (endpoint : string) (options : RequestOptions)
      (t : list Event) (route : EndpointOptions) (rq : Request) :
  prepare JSON_text cfg token endpoint options = (t, Ok (route, rq)) ->
  lookupEndpoint (endpoints cfg) endpoint = Some route.
Proof.
  intros H. apply prepare_inv in H. destruct H as [tt [tb [B _]]].
  now apply buildTarget_inv in B.
Qed.

End EngineFacts.

(** ** Response classification *)

Section Classified.

Variable JSON_text : value -> string.
Variable JSON_read : string -> option value.
Variable fetch : Request -> Result Response.

Variable cfg : Configuration.
Variable token : option string.
Variable endpoint : string.
Variable options : RequestOptions.

(** The call got as far as a response that says it is JSON and whose body
    parses. *)
Variable t : list Event.
Variable route : EndpointOptions.
Variable rq : Request.
Variable response : Response.
Variable parsed : value.
Hypothesis Hprepared :
  prepare JSON_text cfg token endpoint options = (t, Ok (route, rq)).
Hypothesis Hrelays : relays (measurerOf cfg).
Hypothesis Hresponse : fetch rq = Ok response.
Hypothesis Hjson : saysJson response = true.
Hypothesis Hparsed : parse JSON_read (text response) = Some parsed.

Lemma request_classifies :
  snd (request JSON_text JSON_read fetch cfg token endpoint options)
  = snd (classify endpoint route response parsed).
Proof.
  destruct (@request_prepared JSON_text JSON_read fetch cfg token endpoint
              options t route rq Hprepared Hrelays)
    as [pre [post [_ [_ E]]]].
  rewrite E. cbn [snd].
  now rewrite (@dispatch_json JSON_read fetch endpoint route rq response parsed
                 Hresponse Hjson Hparsed).
Qed.

(** C1 — on a response with a status from 200 to 299 the engine validates
    the parsed body against the success schema of the endpoint and returns
    the validated value itself when the endpoint has no failure schema, and
    the object [{status: "success", data}] when it has one: the shape
    follows the configuration, whatever the response. *)
Theorem success_result_shape (validated : value) :
  (200 <= status response < 300)%Z ->
  expects_success route parsed = Ok validated ->
  lookupEndpoint (endpoints cfg) endpoint = Some route
  /\ snd (request JSON_text JSON_read fetch cfg token endpoint options)
     = Ok (match expects_failure route with
           | None => validated
           | Some _ =>
               VObject [("status", VString "success"); ("data", validated)]
           end).
Proof.
  intros [Lo Hi] V. split; [exact (@prepare_route JSON_text cfg token endpoint options t route rq
                           Hprepared)|].
  rewrite request_classifies. unfold classify.
  apply Z.leb_le in Lo. apply Z.ltb_lt in Hi. rewrite Lo, Hi. cbn [andb].
  destruct (expects_failure route); unfold lift, bind, ret; now rewrite V.
Qed.

(** C2 — on a response with a status from 400 to 499 the engine throws the
    missing-failure-schema error naming the endpoint when the endpoint has
    no failure schema, and otherwise returns
    [{status: "failure", data, code}] with the body validated against that
    schema and the status code; on any status outside 200-299 and 400-499
    (so 300-399, and 500 and above) it throws the error naming the endpoint
    and the status code. *)
Theorem failure_and_error_statuses :
  ((400 <= status response < 500)%Z ->
   match expects_failure route with
   | None =>
       snd (request JSON_text JSON_read fetch cfg token endpoint options)
       = Throw (MissingFailureSchema endpoint)
   | Some FailureSchema =>
       forall data, FailureSchema parsed = Ok data ->
         snd (request JSON_text JSON_read fetch cfg token endpoint options)
         = Ok (VObject [("status", VString "failure"); ("data", data);
                        ("code", VNumber (status response))])
   end)
  /\ (~ (200 <= status response < 300)%Z ->
      ~ (400 <= status response < 500)%Z ->
      snd (request JSON_text JSON_read fetch cfg token endpoint options)
      = Throw (StatusError endpoint (status response)))
  /\ ((300 <= status response < 400)%Z \/ (500 <= status response)%Z ->
      snd (request JSON_text JSON_read fetch cfg token endpoint options)
      = Throw (StatusError endpoint (status response))).
Proof.
  assert (O : ~ (200 <= status response < 300)%Z ->
              ~ (400 <= status response < 500)%Z ->
              snd (request JSON_text JSON_read fetch cfg token endpoint options)
              = Throw (StatusError endpoint (status response))).
  { intros N2 N4. rewrite request_classifies. unfold classify.
    destruct ((200 <=? status response)%Z && (status response <? 300)%Z) eqn:E2.
    - exfalso. apply N2. apply andb_true_iff in E2. destruct E2 as [A B].
      apply Z.leb_le in A. apply Z.ltb_lt in B. lia.
    - destruct ((400 <=? status response)%Z && (status response <? 500)%Z) eqn:E4;
        [|reflexivity].
      exfalso. apply N4. apply andb_true_iff in E4. destruct E4 as [A B].
      apply Z.leb_le in A. apply Z.ltb_lt in B. lia. }
  split; [|split; [exact O|]].
  - intros [Lo Hi]. rewrite request_classifies. unfold classify.
    replace ((200 <=? status response)%Z && (status response <? 300)%Z) with false
      by (symmetry; apply andb_false_iff; right; apply Z.ltb_ge; lia).
    apply Z.leb_le in Lo. apply Z.ltb_lt in Hi. rewrite Lo, Hi. cbn [andb].
    destruct (expects_failure route) as [F|]; [|reflexivity].
    intros data D. unfold lift, bind, ret. now rewrite D.
  - intros H. apply O; lia.
Qed.

End Classified.

Lemma success_result_shape_witness :
  snd (request compactText suiteRead suiteFetch (suiteConfig None) None
               "GET /users/:userId" (userOptions "123" None))
  = Ok suiteUser
  /\ snd (request compactText suiteRead suiteFetch (suiteConfig (Some acceptAll)) None
                  "GET /users/:userId" (userOptions "123" None))
     = Ok (VObject [("status", VString "success"); ("data", suiteUser)]).
Proof.
  split.
  - refine (proj2 (@success_result_shape compactText suiteRead suiteFetch
                     (suiteConfig None) None "GET /users/:userId"
                     (userOptions "123" None) [] (userRoute None)
                     (userRequest "123" None)
                     (jsonResponse 200) suiteUser _ _ _ _ _ suiteUser _ _)).
    + reflexivity.
    + exact measure_relays.
    + reflexivity.
    + reflexivity.
    + reflexivity.
    + cbn. lia.
    + reflexivity.
  - refine (proj2 (@success_result_shape compactText suiteRead suiteFetch
                     (suiteConfig (Some acceptAll)) None "GET /users/:userId"
                     (userOptions "123" None) [] (userRoute (Some acceptAll))
                     (userRequest "123" None)
                     (jsonResponse 200) suiteUser _ _ _ _ _ suiteUser _ _)).
    + reflexivity.
    + exact measure_relays.
    + reflexivity.
    + reflexivity.
    + reflexivity.
    + cbn. lia.
    + reflexivity.
Defined.

Lemma failure_and_error_statuses_witness :
  snd (request compactText suiteRead suiteFetch (suiteConfig None) None
               "GET /users/:userId" (userOptions "456" None))
  = Throw (MissingFailureSchema "GET /users/:userId")
  /\ snd (request compactText suiteRead suiteFetch (suiteConfig (Some acceptAll)) None
                  "GET /users/:userId" (userOptions "456" None))
     = Ok (VObject [("status", VString "failure"); ("data", suiteUser);
                    ("code", VNumber 404)])
  /\ snd (request compactText suiteRead suiteFetch (suiteConfig (Some acceptAll)) None
                  "GET /users/:userId" (userOptions "500" None))
     = Throw (StatusError "GET /users/:userId" 500).
Proof.
  split; [|split].
  - refine (proj1 (@failure_and_error_statuses compactText suiteRead suiteFetch
                     (suiteConfig None) None "GET /users/:userId"
                     (userOptions "456" None) [] (userRoute None)
                     (userRequest "456" None) (jsonResponse 404) suiteUser
                     _ _ _ _ _) _).
    + reflexivity.
    + exact measure_relays.
    + reflexivity.
    + reflexivity.
    + reflexivity.
    + cbn. lia.
  - refine (proj1 (@failure_and_error_statuses compactText suiteRead suiteFetch
                     (suiteConfig (Some acceptAll)) None "GET /users/:userId"
                     (userOptions "456" None) [] (userRoute (Some acceptAll))
                     (userRequest "456" None) (jsonResponse 404) suiteUser
                     _ _ _ _ _) _ suiteUser _).
    + reflexivity.
    + exact measure_relays.
    + reflexivity.
    + reflexivity.
    + reflexivity.
    + cbn. lia.
    + reflexivity.
  - refine (proj2 (proj2 (@failure_and_error_statuses compactText suiteRead suiteFetch
                     (suiteConfig (Some acceptAll)) None "GET /users/:userId"
                     (userOptions "500" None) [] (userRoute (Some acceptAll))
                     (userRequest "500" None) (jsonResponse 500) suiteUser
                     _ _ _ _ _)) _).
    + reflexivity.
    + exact measure_relays.
    + reflexivity.
    + reflexivity.
    + reflexivity.
    + right. cbn. lia.
Defined.

(** The wording of the errors, as the test suite expects it. *)
Example message_missing_failure :
  message (MissingFailureSchema "GET /users")
  = "Missing " ++ dq ++ "failure" ++ dq ++ " schema for endpoint "
    ++ dq ++ "GET /users" ++ dq ++ ".".
Proof. reflexivity. Qed.

Example message_status :
  message (StatusError "GET /users" 500)
  = "The endpoint " ++ dq ++ "GET /users" ++ dq ++ " throw a 500 code.".
Proof. reflexivity. Qed.

Example message_non_json :
  message (NonJsonResponse "GET /users")
  = "The endpoint " ++ dq ++ "GET /users" ++ dq ++ " returned a non-JSON response.".
Proof. reflexivity. Qed.

(** ** Content type, cancellation, body and route parameters *)

Lemma prefix_app (p s : string) :
  String.prefix p s = true <-> exists b, s = p ++ b.
Proof.
  revert s. induction p as [|c r IH]; intros s.
  - split; [intros _; now exists s|]. intros _. now destruct s.
  - destruct s as [|d u]; cbn [String.prefix].
    + split; [discriminate|]. intros [b H]. discriminate.
    + destruct (ascii_dec c d) as [<-|N].
      * rewrite IH. split; intros [b H]; exists b.
        -- cbn. now rewrite H.
        -- cbn in H. now injection H.
      * split; [discriminate|]. intros [b H]. cbn in H. congruence.
Qed.

(** [includes] is the substring test. *)
Lemma includes_spec (p s : string) :
  includes p s = true <-> exists a b, s = a ++ p ++ b.
Proof.
  induction s as [|c r IH].
  - cbn [includes]. rewrite orb_false_r, prefix_app. split.
    + intros [b H]. now exists EmptyString, b.
    + intros [a [b H]]. destruct a; [now exists b|discriminate].
  - cbn [includes]. rewrite orb_true_iff, prefix_app, IH. split.
    + intros [[b H]|[a [b H]]].
      * now exists EmptyString, b.
      * exists (String c a), b. cbn. now rewrite H.
    + intros [a [b H]]. destruct a as [|d a'].
      * left. now exists b.
      * right. exists a', b. cbn in H. congruence.
Qed.

Section Dispatching.

Variable JSON_text : value -> string.
Variable JSON_read : string -> option value.
Variable fetch : Request -> Result Response.

(** C6 — when the Content-Type header of the response is absent or does not
    contain [json], the engine throws the non-JSON-response error naming the
    endpoint; the request was sent once and the body is not read. *)
Theorem non_json_response_rejected
        (cfg : Configuration) (token : option string) (endpoint : string)
        (options : RequestOptions) (t : list Event) (route : EndpointOptions)
        (rq : Request) (response : Response) :
  prepare JSON_text cfg token endpoint options = (t, Ok (route, rq)) ->
  relays (measurerOf cfg) ->
  fetch rq = Ok response ->
  match contentType response with
  | Some ct => ~ (exists a b, ct = a ++ "json" ++ b)
  | None => True
  end ->
  snd (request JSON_text JSON_read fetch cfg token endpoint options)
  = Throw (NonJsonResponse endpoint)
  /\ bodyReads (fst (request JSON_text JSON_read fetch cfg token endpoint options)) = 0
  /\ dispatched (fst (request JSON_text JSON_read fetch cfg token endpoint options))
     = [rq].
Proof.
  intros P R F C.
  assert (J : saysJson response = false).
  { unfold saysJson. destruct (contentType response) as [ct|]; [|reflexivity].
    destruct (includes "json" ct) eqn:E; [|reflexivity].
    exfalso. apply C. now apply includes_spec. }
  destruct (@request_prepared JSON_text JSON_read fetch cfg token endpoint
              options t route rq P R) as [pre [post [Lpre [Lpost E]]]].
  rewrite E, (@dispatch_non_json JSON_read fetch endpoint route rq response F J).
  cbn [fst snd].
  destruct (logs_dispatch_nothing pre Lpre) as [D1 B1].
  destruct (logs_dispatch_nothing post Lpost) as [D2 B2].
  destruct (@prepare_trace JSON_text cfg token endpoint options) as [D0 B0].
  rewrite P in D0, B0. cbn [fst] in D0, B0.
  split; [reflexivity|split].
  - rewrite !bodyReads_app, B0, B1, B2. reflexivity.
  - rewrite !dispatched_app, D0, D1, D2. reflexivity.
Qed.

(** C7 — a call whose cancellation signal is already aborted sends
    nothing and ends in an error: the cancellation error as soon as the
    endpoint guards, the URL, the headers and the credentials hook have gone
    through, and otherwise the error of the stage that failed before the
    signal was looked at. *)
Theorem aborted_signal_never_dispatches
        (cfg : Configuration) (token : option string) (endpoint : string)
        (options : RequestOptions) :
  signal options = Some true ->
  dispatched (fst (request JSON_text JSON_read fetch cfg token endpoint options)) = []
  /\ (exists e, snd (request JSON_text JSON_read fetch cfg token endpoint options)
                = Throw e)
  /\ (forall target,
        snd (buildTarget cfg token endpoint options) = Ok target ->
        snd (request JSON_text JSON_read fetch cfg token endpoint options)
        = Throw AbortError)
  /\ (forall e,
        snd (buildTarget cfg token endpoint options) = Throw e ->
        snd (request JSON_text JSON_read fetch cfg token endpoint options)
        = Throw e).
Proof.
  intros S.
  assert (P : snd (prepare JSON_text cfg token endpoint options)
              = match snd (buildTarget cfg token endpoint options) with
                | Ok _ => Throw AbortError
                | Throw e => Throw e
                end).
  { unfold prepare, checkSignal. rewrite S.
    destruct (buildTarget cfg token endpoint options)
      as [tt [[[[route method] url] hs]|e]]; reflexivity. }
  assert (Q : forall e, snd (prepare JSON_text cfg token endpoint options) = Throw e ->
              dispatched (fst (request JSON_text JSON_read fetch cfg token
                                       endpoint options)) = []
              /\ snd (request JSON_text JSON_read fetch cfg token endpoint options)
                 = Throw e).
  { intros e H. rewrite (@request_unprepared JSON_text JSON_read fetch cfg token
                           endpoint options e H).
    cbn [fst snd]. split; [|reflexivity]. apply prepare_trace. }
  destruct (snd (buildTarget cfg token endpoint options)) as [target|e0] eqn:B.
  - destruct (Q _ P) as [D E]. split; [exact D|split; [now exists AbortError|split]].
    + intros _ _. exact E.
    + discriminate.
  - destruct (Q _ P) as [D E]. split; [exact D|split; [now exists e0|split]].
    + discriminate.
    + intros e H. injection H as <-. exact E.
Qed.

End Dispatching.

Lemma non_json_response_rejected_witness :
  snd (request compactText suiteRead suiteFetch (suiteConfig None) None
               "GET /users/:userId" (userOptions "plain" None))
  = Throw (NonJsonResponse "GET /users/:userId")
  /\ bodyReads (fst (request compactText suiteRead suiteFetch (suiteConfig None) None
                             "GET /users/:userId" (userOptions "plain" None))) = 0.
Proof.
  destruct (@non_json_response_rejected compactText suiteRead suiteFetch
              (suiteConfig None) None "GET /users/:userId"
              (userOptions "plain" None) [] (userRoute None)
              (userRequest "plain" None) plainResponse
              eq_refl measure_relays eq_refl) as [E [B _]].
  - change (~ exists a b, "text/plain" = a ++ "json" ++ b).
    intros H. apply includes_spec in H. discriminate H.
  - split; [exact E|exact B].
Defined.

Lemma aborted_signal_never_dispatches_witness :
  dispatched (fst (request compactText suiteRead suiteFetch (suiteConfig None) None
                           "GET /users/:userId" (userOptions "123" (Some true)))) = []
  /\ snd (request compactText suiteRead suiteFetch (suiteConfig None) None
                  "GET /users/:userId" (userOptions "123" (Some true)))
     = Throw AbortError.
Proof.
  destruct (@aborted_signal_never_dispatches compactText suiteRead suiteFetch
              (suiteConfig None) None "GET /users/:userId"
              (userOptions "123" (Some true)) eq_refl) as [D [_ [A _]]].
  split; [exact D|]. eapply A. reflexivity.
Defined.

Section Building.

Variable JSON_text : value -> string.
Variable JSON_read : string -> option value.
Variable fetch : Request -> Result Response.

Lemma dispatch_dispatched (endpoint : string) (route : EndpointOptions)
      (rq : Request) :
  dispatched (fst (dispatch JSON_read fetch endpoint route rq)) = [rq].
Proof.
  unfold dispatch. destruct (fetch rq) as [response|e]; [|reflexivity].
  cbn [emit lift bind app]. destruct (negb _); [reflexivity|].
  cbn [emit lift bind app].
  destruct (parse JSON_read (text response)) as [parsed|]; [|reflexivity].
  cbn [bind app].
  pose proof (classify_trace endpoint route response parsed) as C.
  destruct (classify endpoint route response parsed) as [tc r].
  cbn in C. subst tc. reflexivity.
Qed.

Lemma request_dispatches_prepared
      (cfg : Configuration) (token : option string) (endpoint : string)
      (options : RequestOptions) (t : list Event) (route : EndpointOptions)
      (rq : Request) :
  prepare JSON_text cfg token endpoint options = (t, Ok (route, rq)) ->
  relays (measurerOf cfg) ->
  dispatched (fst (request JSON_text JSON_read fetch cfg token endpoint options))
  = [rq].
Proof.
  intros P R.
  destruct (@request_prepared JSON_text JSON_read fetch cfg token endpoint
              options t route rq P R) as [pre [post [Lpre [Lpost E]]]].
  rewrite E. cbn [fst].
  destruct (logs_dispatch_nothing pre Lpre) as [D1 _].
  destruct (logs_dispatch_nothing post Lpost) as [D2 _].
  destruct (@prepare_trace JSON_text cfg token endpoint options) as [D0 _].
  rewrite P in D0. cbn [fst] in D0.
  now rewrite !dispatched_app, D0, D1, D2, dispatch_dispatched.
Qed.

Lemma buildBody_none (method : Method) (options : RequestOptions)
      (route : EndpointOptions) :
  isGET method = true
  \/ (forall vars, variables options = Some vars -> var_body vars = None)
  \/ body route = Absent ->
  buildBody JSON_text method options route = ([], Ok None).
Proof.
  unfold buildBody, getBody.
  destruct (variables options) as [[p s [bv|]]|]; try reflexivity.
  intros [G|[V|A]].
  - now rewrite G.
  - specialize (V _ eq_refl). discriminate.
  - rewrite A. now destruct (isGET method).
Qed.

Lemma buildBody_some (method : Method) (options : RequestOptions)
      (route : EndpointOptions) (tb : list Event) (b : string) :
  buildBody JSON_text method options route = (tb, Ok (Some b)) ->
  method <> GET
  /\ exists vars bv schema parsed,
       variables options = Some vars /\ var_body vars = Some bv
       /\ body route = Present schema /\ schema bv = Ok parsed
       /\ serialize JSON_text parsed = Some b.
Proof.
  unfold buildBody, getBody.
  destruct (variables options) as [[p s [bv|]]|]; try discriminate.
  intros H.
  assert (G : isGET method = false) by (destruct (isGET method); [discriminate|reflexivity]).
  rewrite G in H. split; [intros ->; discriminate|].
  destruct (body route) as [| |schema]; try discriminate.
  destruct (schema bv) as [parsed|] eqn:V; [|discriminate].
  cbn in H. injection H as _ H.
  exists {| var_params := p; var_search := s; var_body := Some bv |},
         bv, schema, parsed.
  now repeat split.
Qed.

(** C10 — the request the engine sends has a body only when the method is
    not GET, the caller gave a body variable and the endpoint has a body
    schema, and the body is then the serialized validated variable; with a
    GET method, without a body variable, or for an endpoint without a body
    schema, the body step does nothing and raises nothing, and the request
    goes out without a body. *)
Theorem body_only_when_declared
        (cfg : Configuration) (token : option string) (endpoint : string)
        (options : RequestOptions) :
  (forall t route rq b,
      prepare JSON_text cfg token endpoint options = (t, Ok (route, rq)) ->
      rq_body rq = Some b ->
      rq_method rq <> GET
      /\ exists vars bv schema parsed,
           variables options = Some vars /\ var_body vars = Some bv
           /\ body route = Present schema /\ schema bv = Ok parsed
           /\ serialize JSON_text parsed = Some b)
  /\ (forall method route,
        isGET method = true
        \/ (forall vars, variables options = Some vars -> var_body vars = None)
        \/ body route = Absent ->
        buildBody JSON_text method options route = ([], Ok None))
  /\ (forall tt route method url hs,
        buildTarget cfg token endpoint options = (tt, Ok (route, method, url, hs)) ->
        signal options <> Some true ->
        isGET method = true
        \/ (forall vars, variables options = Some vars -> var_body vars = None)
        \/ body route = Absent ->
        prepare JSON_text cfg token endpoint options
        = (tt, Ok (route,
                   {| rq_url := url; rq_method := method; rq_headers := hs;
                      rq_signal := signal options; rq_body := None |})))
  /\ (forall t route rq,
        prepare JSON_text cfg token endpoint options = (t, Ok (route, rq)) ->
        relays (measurerOf cfg) ->
        dispatched (fst (request JSON_text JSON_read fetch cfg token endpoint options))
        = [rq]).
Proof.
  split; [|split; [|split]].
  - intros t route rq b P B. apply prepare_inv in P.
    destruct P as [tt [tb [_ [_ [Hb _]]]]]. rewrite B in Hb.
    exact (buildBody_some _ _ _ Hb).
  - intros method route. apply buildBody_none.
  - intros tt route method url hs T S C. unfold prepare. rewrite T.
    cbn [bind]. unfold checkSignal.
    rewrite (buildBody_none method options route C).
    destruct (signal options) as [[|]|]; [congruence| |];
      cbn; now rewrite app_nil_r.
  - intros t route rq. apply request_dispatches_prepared.
Qed.

End Building.

(** The body scenario of the test suite, and the same variable on a GET. *)
Example post_carries_body :
  prepare compactText (suiteConfig None) None "POST /users"
          (bodyOptions (VObject [("fooBar", VString "baz")]))
  = ([], Ok (createRoute,
             {| rq_url := {| base := "http://example.com"; reference := "users";
                             searchParams := [] |};
                rq_method := POST; rq_headers := []; rq_signal := None;
                rq_body := Some suiteText |})).
Proof. reflexivity. Qed.

Lemma lookupEndpoint_withParams
      (choose : string -> option (Params -> Result Params))
      (eps : list (string * EndpointOptions)) (endpoint : string) :
  lookupEndpoint (map (fun kv => (fst kv, withParams (choose (fst kv)) (snd kv))) eps)
                 endpoint
  = match lookupEndpoint eps endpoint with
    | Some route => Some (withParams (choose endpoint) route)
    | None => None
    end.
Proof.
  induction eps as [|[k route] r IH]; [reflexivity|].
  cbn [map lookupEndpoint fst snd]. destruct (String.eqb k endpoint) eqn:E.
  - apply String.eqb_eq in E. now subst.
  - exact IH.
Qed.

Lemma bind_onResult_after {A B C : Type} (f : B -> C) (m : M A)
      (k : A -> M B) (k' : A -> M C) :
  (forall a, k' a = onResult f (k a)) ->
  bind m k' = onResult f (bind m k).
Proof.
  intros H. destruct m as [t [a|e]]; [|reflexivity].
  cbn [bind]. rewrite H. unfold onResult. now destruct (k a).
Qed.

Lemma bind_onResult_before {A B C : Type} (g : A -> B) (m : M A) (k : B -> M C) :
  bind (onResult g m) k = bind m (fun a => k (g a)).
Proof. now destruct m as [t [a|e]]. Qed.

Lemma bind_ext {A B : Type} (m : M A) (k k' : A -> M B) :
  (forall a, k a = k' a) -> bind m k = bind m k'.
Proof. intros H. destruct m as [t [a|e]]; [|reflexivity]. cbn. now rewrite H. Qed.

Section RouteParameters.

Variable JSON_text : value -> string.
Variable JSON_read : string -> option value.
Variable fetch : Request -> Result Response.

Lemma buildTarget_withParamsSchemas
      (choose : string -> option (Params -> Result Params))
      (cfg : Configuration) (token : option string) (endpoint : string)
      (options : RequestOptions) :
  buildTarget (withParamsSchemas choose cfg) token endpoint options
  = onResult (fun target : EndpointOptions * Method * URL * Headers =>
                let '(route, method, url, hs) := target in
                (withParams (choose endpoint) route, method, url, hs))
             (buildTarget cfg token endpoint options).
Proof.
  unfold buildTarget, withParamsSchemas.
  cbn [endpoints baseURL fetch_headers cfg_measure credentials].
  rewrite lookupEndpoint_withParams.
  destruct (lookupEndpoint (endpoints cfg) endpoint) as [route|]; [|reflexivity].
  apply bind_onResult_after. intros mp.
  apply bind_onResult_after. intros url.
  apply bind_onResult_after. intros url'.
  apply bind_onResult_after. intros uh.
  reflexivity.
Qed.

Lemma prepare_withParamsSchemas
      (choose : string -> option (Params -> Result Params))
      (cfg : Configuration) (token : option string) (endpoint : string)
      (options : RequestOptions) :
  prepare JSON_text (withParamsSchemas choose cfg) token endpoint options
  = onResult (fun rr : EndpointOptions * Request =>
                (withParams (choose endpoint) (fst rr), snd rr))
             (prepare JSON_text cfg token endpoint options).
Proof.
  unfold prepare. rewrite buildTarget_withParamsSchemas, bind_onResult_before.
  apply bind_onResult_after. intros [[[route method] url] hs].
  apply bind_onResult_after. intros _.
  apply bind_onResult_after. intros b.
  reflexivity.
Qed.

(** Whatever params schemas the endpoints carry, a call does the same. *)
Lemma request_ignores_params_schemas
      (choose : string -> option (Params -> Result Params))
      (cfg : Configuration) (token : option string) (endpoint : string)
      (options : RequestOptions) :
  request JSON_text JSON_read fetch (withParamsSchemas choose cfg) token
          endpoint options
  = request JSON_text JSON_read fetch cfg token endpoint options.
Proof.
  unfold request. rewrite prepare_withParamsSchemas, bind_onResult_before.
  apply bind_ext. intros [route rq]. reflexivity.
Qed.

(** C3, as the engine has it — the route parameters of a call reach the
    path templater exactly as the caller supplied them (the empty object
    when none is supplied): a prepared request is addressed to the expansion
    of the path template with them, an expansion that fails fails the call
    with its error before anything is sent, and no params schema an endpoint
    object may carry changes anything. *)
Theorem route_params_used_as_supplied
        (cfg : Configuration) (token : option string) (endpoint : string)
        (options : RequestOptions) :
  (forall t route rq,
      prepare JSON_text cfg token endpoint options = (t, Ok (route, rq)) ->
      exists path generated,
        parseEndpoint endpoint = Ok (rq_method rq, path)
        /\ generatePath path (suppliedParams options) = Ok generated
        /\ (credentials cfg = None -> reference (rq_url rq) = slice1 generated))
  /\ (forall route method path e,
        lookupEndpoint (endpoints cfg) endpoint = Some route ->
        parseEndpoint endpoint = Ok (method, path) ->
        generatePath path (suppliedParams options) = Throw e ->
        request JSON_text JSON_read fetch cfg token endpoint options
        = ([], Throw e))
  /\ (forall choose,
        request JSON_text JSON_read fetch (withParamsSchemas choose cfg) token
                endpoint options
        = request JSON_text JSON_read fetch cfg token endpoint options).
Proof.
  split; [|split].
  - intros t route rq P. apply prepare_inv in P.
    destruct P as [tt [tb [B _]]]. apply buildTarget_inv in B.
    exact (proj2 B).
  - intros route method path e L PE G.
    unfold request, prepare, buildTarget, getURL. rewrite L, PE.
    cbn [lift bind app fst snd].
    replace (generatePath path _) with (generatePath path (suppliedParams options)).
    + now rewrite G.
    + unfold suppliedParams.
      destruct (variables options) as [[[q|] s b]|]; reflexivity.
  - intros choose. apply request_ignores_params_schemas.
Qed.

End RouteParameters.

(** C3, as the specification has it, fails: this endpoint carries a params
    schema that rejects the parameters of the call, and the call is prepared
    and sent to the path expanded from them all the same. *)
Lemma params_schema_not_consulted :
  lookupEndpoint (endpoints (suiteConfig None)) "GET /guarded/:userId"
  = Some guardedRoute
  /\ params guardedRoute = Some rejectParams
  /\ rejectParams [("userId", PStr "1")] = Throw (ZodError "params")
  /\ prepare compactText (suiteConfig None) None "GET /guarded/:userId"
             (userOptions "1" None)
     = ([], Ok (guardedRoute,
                {| rq_url := {| base := "http://example.com";
                                reference := "guarded/1"; searchParams := [] |};
                   rq_method := GET; rq_headers := []; rq_signal := None;
                   rq_body := None |}))
  /\ dispatched (fst (request compactText suiteRead suiteFetch (suiteConfig None) None
                              "GET /guarded/:userId" (userOptions "1" None)))
     = [{| rq_url := {| base := "http://example.com";
                        reference := "guarded/1"; searchParams := [] |};
           rq_method := GET; rq_headers := []; rq_signal := None;
           rq_body := None |}].
Proof. repeat split. Qed.

(** The previous revision did consult the schema, when the endpoint had one
    and the call supplied parameters; it expanded the path with the empty
    object otherwise. *)
Lemma getURL_previous_validates (cfg : Configuration) (path : string)
      (route : EndpointOptions) (schema : Params -> Result Params) (ps : Params) :
  params route = Some schema ->
  getURL_previous cfg path route (Some ps)
  = (validated <- lift (schema ps) ;;
     generated <- lift (generatePath path validated) ;;
     ret {| base := baseURL cfg; reference := slice1 generated; searchParams := [] |}).
Proof. intros H. unfold getURL_previous. now rewrite H. Qed.

(** ** Path templater: templates without parameters, unused parameters,
    the bare star *)

Lemma length_append (x y : string) :
  String.length (x ++ y) = String.length x + String.length y.
Proof. induction x as [|c r IH]; cbn [append String.length]; [reflexivity|now rewrite IH]. Qed.

Lemma substring_whole (p : string) : substring 0 (String.length p) p = p.
Proof. induction p as [|c r IH]; cbn [String.length substring]; [reflexivity|now rewrite IH]. Qed.

Lemma substring_skip (x p : string) (n : nat) :
  substring (String.length x) n (x ++ p) = substring 0 n p.
Proof. induction x as [|c r IH]; cbn [append String.length substring]; [reflexivity|exact IH]. Qed.

Lemma endsWith_app (p x : string) : endsWith p (x ++ p) = true.
Proof.
  unfold endsWith. rewrite length_append.
  replace (String.length x + String.length p - String.length p) with (String.length x)
    by lia.
  rewrite substring_skip, substring_whole, String.eqb_refl, andb_true_r.
  apply Nat.leb_le. lia.
Qed.

Lemma normalizeStar_idempotent (t : string) :
  normalizeStar (normalizeStar t) = normalizeStar t.
Proof.
  assert (U : forall u, needsStarRewrite u = false -> normalizeStar u = u)
    by (intros u H; unfold normalizeStar; now rewrite H).
  destruct (needsStarRewrite t) eqn:E.
  - assert (N : normalizeStar t = dropLast 1 t ++ "/*")
      by (unfold normalizeStar; now rewrite E).
    rewrite N. apply U. unfold needsStarRewrite.
    rewrite (endsWith_app "/*" (dropLast 1 t)). cbn [negb].
    now rewrite andb_false_r.
  - now rewrite (U t E), (U t E).
Qed.

Lemma generatePath_normalized (t : string) (ps : Params) :
  generatePath (normalizeStar t) ps = generatePath t ps.
Proof. unfold generatePath. now rewrite normalizeStar_idempotent. Qed.

(** X1 — a template that ends in a star not preceded by a slash is expanded
    exactly as the template with [/*] in place of that star: the rewrite
    only warns, it changes no outcome and raises nothing of its own. *)
Theorem bare_star_is_slash_star (t : string) (ps : Params) :
  endsWith "*" t = true ->
  t <> "*" ->
  endsWith "/*" t = false ->
  generatePath t ps = generatePath (dropLast 1 t ++ "/*") ps.
Proof.
  intros E N S. rewrite <- (generatePath_normalized t ps).
  unfold normalizeStar, needsStarRewrite. rewrite E, S.
  apply String.eqb_neq in N. now rewrite N.
Qed.

Lemma bare_star_is_slash_star_witness :
  generatePath "/files*" [("*", PStr "a.txt")] = Ok "/files/a.txt".
Proof.
  rewrite (@bare_star_is_slash_star "/files*" [("*", PStr "a.txt")]).
  - reflexivity.
  - reflexivity.
  - discriminate.
  - reflexivity.
Defined.

Lemma optionalKeys_In (segs : list string) (k : string) :
  In k (optionalKeys segs) <-> exists seg, In seg segs /\ keyMatch seg = Some (k, true).
Proof.
  unfold optionalKeys. rewrite in_flat_map. split; intros [seg [Hin H]]; exists seg; split; auto.
  - destruct (keyMatch seg) as [[k' [|]]|]; cbn in H; try tauto.
    destruct H as [->|[]]. reflexivity.
  - rewrite H. now left.
Qed.

Lemma substitute_same (ps ps' : Params) (isLast : bool) (seg : string) :
  (forall k optional, keyMatch seg = Some (k, optional) -> getParam ps k = getParam ps' k) ->
  (isLast = true -> seg = "*" -> getParam ps "*" = getParam ps' "*") ->
  substitute ps isLast seg = substitute ps' isLast seg.
Proof.
  intros K S. unfold substitute.
  destruct (isLast && String.eqb seg "*") eqn:E.
  - apply andb_true_iff in E. destruct E as [-> E]. apply String.eqb_eq in E.
    now apply S.
  - destruct (keyMatch seg) as [[k optional]|]; [|reflexivity].
    now rewrite (K k optional eq_refl).
Qed.

Lemma In_removelast {A : Type} (x : A) (l : list A) : In x (removelast l) -> In x l.
Proof.
  induction l as [|a r IH]; [intros []|].
  destruct r as [|b r']; [intros []|].
  cbn [removelast]. intros [<-|H]; [now left|right; now apply IH].
Qed.

Lemma last_In {A : Type} (l : list A) (d : A) : l <> [] -> In (last l d) l.
Proof.
  induction l as [|a r IH]; [congruence|]. intros _.
  destruct r as [|b r']; [now left|]. right. apply IH. discriminate.
Qed.

(** X2 — the templater reads the parameters only under the keys its template
    names (and under the star for a final wildcard): two parameter objects
    that agree on those keys give the same path, or the same error. *)
Theorem only_template_keys_are_read (t : string) (ps ps' : Params) :
  (forall k, In k (readKeys (segmentsOf t)) -> getParam ps k = getParam ps' k) ->
  generatePath t ps = generatePath t ps'.
Proof.
  intros H. rewrite !generatePath_spec.
  assert (N : segmentsOf t <> []) by apply splitRun_nonempty.
  set (segs := segmentsOf t) in *.
  assert (K : forall seg k optional,
             In seg segs -> keyMatch seg = Some (k, optional) ->
             getParam ps k = getParam ps' k).
  { intros seg k optional I M. apply H. unfold readKeys.
    destruct optional.
    - apply in_or_app. right. apply in_or_app. left.
      apply optionalKeys_In. now exists seg.
    - apply in_or_app. left. apply requiredKeys_In. now exists seg. }
  assert (M : missingKeys ps segs = missingKeys ps' segs).
  { unfold missingKeys. apply filter_ext_in. intros k I.
    apply requiredKeys_In in I. destruct I as [seg [I E]].
    now rewrite (K seg k false I E). }
  assert (S : substituteAll ps segs = substituteAll ps' segs).
  { rewrite !substituteAll_last by exact N. f_equal.
    - apply map_ext_in. intros seg I. apply substitute_same.
      + intros k optional. apply K. now apply In_removelast.
      + discriminate.
    - f_equal. apply substitute_same.
      + intros k optional. apply K. now apply last_In.
      + intros _ E. apply H. unfold readKeys. rewrite E.
        apply in_or_app. right. apply in_or_app. right. now left. }
  now rewrite M, S.
Qed.

Lemma only_template_keys_are_read_witness :
  generatePath "/users/:userId" [("userId", PStr "7"); ("page", PNum 2)]
  = generatePath "/users/:userId" [("userId", PStr "7")].
Proof.
  apply only_template_keys_are_read.
  intros k [<-|[]]. reflexivity.
Defined.

Lemma filter_head {A : Type} (f : A -> bool) (l : list A) (k : A) :
  (exists rest, filter f l = k :: rest) <->
  exists before after,
    l = (before ++ k :: after)%list /\ f k = true
    /\ forallb (fun x => negb (f x)) before = true.
Proof.
  induction l as [|a r IH].
  - split; [intros [rest H]; discriminate|].
    intros [before [after [H _]]]. destruct before; discriminate.
  - cbn [filter]. destruct (f a) eqn:E.
    + split.
      * intros [rest H]. injection H as -> _. now exists [], r.
      * intros [before [after [H [Fk B]]]]. destruct before as [|b bs].
        -- injection H as -> _. now exists (filter f r).
        -- injection H as -> _. cbn in B. rewrite E in B. discriminate.
    + rewrite IH. split.
      * intros [before [after [H [Fk B]]]]. exists (a :: before), after.
        cbn. now rewrite H, E, B.
      * intros [before [after [H [Fk B]]]]. destruct before as [|b bs].
        -- injection H as -> _. congruence.
        -- injection H as -> H. cbn in B. apply andb_true_iff in B.
           exists bs, after. tauto.
Qed.

Lemma readName_spanWord (r : string) :
  readName r
  = let (w, t) := spanWord r in
    if String.eqb t EmptyString then Some (w, false)
    else if String.eqb t "?" then Some (w, true)
    else None.
Proof.
  induction r as [|c r IH]; [reflexivity|].
  cbn [readName spanWord]. destruct (isWordChar c) eqn:W.
  - rewrite IH. destruct (spanWord r) as [w t].
    destruct (String.eqb t EmptyString); [reflexivity|].
    destruct (String.eqb t "?"); reflexivity.
  - change (String.eqb (String c r) EmptyString) with false.
    change (String.eqb (String c r) "?")
      with (Ascii.eqb c "?"%char && String.eqb r EmptyString).
    cbn iota. destruct (Ascii.eqb c "?"%char && String.eqb r EmptyString);
      reflexivity.
Qed.

(** The pattern the code matches segments against reads them as the
    specification does. *)
Lemma keyMatch_namedParam (segment : string) :
  keyMatch segment = namedParam segment.
Proof.
  destruct segment as [|c r]; [reflexivity|].
  unfold keyMatch, namedParam. destruct (Ascii.eqb c ":"%char); [|reflexivity].
  rewrite readName_spanWord. destruct (spanWord r) as [w t].
  destruct (String.eqb w EmptyString) eqn:Ew.
  - destruct (String.eqb t EmptyString); [now rewrite Ew|].
    destruct (String.eqb t "?"); [now rewrite Ew|reflexivity].
  - destruct (String.eqb t EmptyString); [now rewrite Ew|].
    destruct (String.eqb t "?"); [now rewrite Ew|reflexivity].
Qed.

Lemma requiredKeys_names (segments : list string) :
  requiredKeys segments = requiredNames segments.
Proof.
  unfold requiredKeys, requiredNames. induction segments as [|seg r IH];
    [reflexivity|].
  cbn [flat_map]. now rewrite keyMatch_namedParam, IH.
Qed.

(** C5 — the missing-parameter check looks a parameter up with
    [params[key]], which also finds what every object inherits: for a
    parameter named like such a property ([constructor], [toString], ...)
    and a parameter object with no entry under that name, [generatePath]
    never throws the missing-parameter error of that name, and returns a
    path made of the text of the inherited property where the specification
    has it fail.  A parameter that is present and holds the number zero is
    removed with the empty segments instead of being substituted. *)
Theorem inherited_name_is_not_missing :
  (forall t ps k,
      inherits k = true -> ownParam ps k = None ->
      generatePath t ps <> Throw (MissingParam k))
  /\ (requiredNames (segmentsOf "/users/:constructor") = ["constructor"]
      /\ ownParam [] "constructor" = None
      /\ generatePath "/users/:constructor" []
         = Ok "/users/function Object() { [native code] }")
  /\ (requiredNames (segmentsOf "/users/:id") = ["id"]
      /\ ownParam [("id", PNum 0)] "id" = Some (PNum 0)
      /\ generatePath "/users/:id" [("id", PNum 0)] = Ok "/users").
Proof.
  split; [|repeat split].
  intros t ps k I O H. apply generatePath_throw_inv in H.
  destruct H as [k' [E [_ N]]]. injection E as <-.
  unfold getParam in N. rewrite O, I in N. discriminate.
Qed.

Lemma inherited_name_is_not_missing_witness :
  generatePath "/users/:toString/:id" [] <> Throw (MissingParam "toString").
Proof.
  apply (proj1 inherited_name_is_not_missing); reflexivity.
Defined.

(** X3 — when several required parameters are missing the error names the
    leftmost one of the template: [generatePath] throws the missing-parameter
    error of a name exactly when that name is a required parameter of the
    template, reads as null or undefined in the parameter object, and every
    required parameter before it in the template reads as something else. *)
Theorem leftmost_missing_parameter_reported (t : string) (ps : Params) (k : string) :
  generatePath t ps = Throw (MissingParam k) <->
  exists before after,
    requiredNames (segmentsOf t) = (before ++ k :: after)%list
    /\ isNullish (getParam ps k) = true
    /\ forallb (fun k' => negb (isNullish (getParam ps k'))) before = true.
Proof.
  rewrite generatePath_spec, <- requiredKeys_names. unfold missingKeys.
  pose proof (filter_head (fun k' => isNullish (getParam ps k'))
                          (requiredKeys (segmentsOf t)) k) as F.
  cbn beta in F. rewrite <- F. clear F.
  destruct (filter _ (requiredKeys (segmentsOf t))) as [|k' rest].
  - split; [discriminate|]. intros [r H]. discriminate.
  - split.
    + intros H. injection H as ->. now exists rest.
    + intros [r H]. now injection H as -> _.
Qed.

Lemma leftmost_missing_parameter_reported_witness :
  generatePath "/:team/:user/:constructor" [("user", PNull)]
  = Throw (MissingParam "team")
  /\ generatePath "/:team/:user/:constructor" [("team", PStr "a"); ("user", PNull)]
     = Throw (MissingParam "user").
Proof.
  split.
  - apply (proj2 (leftmost_missing_parameter_reported
                    "/:team/:user/:constructor" [("user", PNull)] "team")).
    exists [], ["user"; "constructor"]. repeat split.
  - apply (proj2 (leftmost_missing_parameter_reported
                    "/:team/:user/:constructor"
                    [("team", PStr "a"); ("user", PNull)] "user")).
    exists ["team"], ["constructor"]. repeat split.
Defined.

Lemma ownParam_string (ps : Params) (k : string) (v : PVal) :
  stringParams ps = true -> ownParam ps k = Some v ->
  match v with PStr _ | PNull | PUndefined => True | _ => False end.
Proof.
  unfold stringParams. induction ps as [|[k' x] r IH]; [discriminate|].
  cbn [forallb snd ownParam]. intros H O. apply andb_true_iff in H.
  destruct H as [Hx Hr]. destruct (String.eqb k' k); [|now apply IH].
  injection O as <-. now destruct x.
Qed.

(** Under a name that nothing inherits the lookup gives the entry or
    [undefined], and its text and truth are those of that entry. *)
Lemma getParam_plain (ps : Params) (k : string) :
  stringParams ps = true -> inherits k = false ->
  pvalText (getParam ps k) = entryText ps k
  /\ truthy (getParam ps k) = nonEmpty (entryText ps k)
  /\ (isNullish (getParam ps k) = true <->
      ownParam ps k = None \/ ownParam ps k = Some PNull
      \/ ownParam ps k = Some PUndefined).
Proof.
  intros S I. unfold getParam, entryText. rewrite I.
  pose proof (@ownParam_string ps k) as T.
  destruct (ownParam ps k) as [v|].
  - specialize (T v S eq_refl). destruct v; try contradiction; cbn;
      repeat split; auto; try discriminate;
      intros [H|[H|H]]; congruence.
  - cbn. repeat split; auto.
Qed.

Lemma parameterNames_In (segs : list string) (seg name : string) (o : bool) :
  In seg segs -> namedParam seg = Some (name, o) ->
  In name (parameterNames segs).
Proof.
  intros I N. unfold parameterNames. apply in_flat_map. exists seg.
  split; [exact I|]. rewrite N. now left.
Qed.

Lemma substitute_expected (ps : Params) (isLast : bool) (seg : string) :
  stringParams ps = true ->
  (forall name o, namedParam seg = Some (name, o) -> inherits name = false) ->
  pvalText (substitute ps isLast seg) = expected ps isLast seg
  /\ truthy (substitute ps isLast seg) = nonEmpty (expected ps isLast seg).
Proof.
  intros S N. unfold substitute, expected. rewrite keyMatch_namedParam.
  destruct (isLast && String.eqb seg "*").
  - destruct (@getParam_plain ps "*" S eq_refl) as [T [B _]]. now split.
  - destruct (namedParam seg) as [[name o]|].
    + destruct (@getParam_plain ps name S (N name o eq_refl)) as [T [B Z]].
      destruct (isNullish (getParam ps name)) eqn:E.
      * assert (X : entryText ps name = EmptyString).
        { unfold entryText.
          destruct (proj1 Z eq_refl) as [X|[X|X]]; now rewrite X. }
        rewrite X. now split.
      * now split.
    + unfold stripOptionalMarker. now split.
Qed.

Lemma keptTexts_expected (ps : Params) (segs : list string) :
  stringParams ps = true ->
  forallb (fun k => negb (inherits k)) (parameterNames segs) = true ->
  keptTexts (substituteAll ps segs) = filter nonEmpty (expectedAll ps segs).
Proof.
  intros S H.
  assert (N : forall seg, In seg segs ->
                forall name o, namedParam seg = Some (name, o) ->
                               inherits name = false).
  { intros seg I name o E. rewrite forallb_forall in H.
    apply negb_true_iff. apply H. exact (parameterNames_In _ _ I E). }
  clear H. unfold keptTexts.
  induction segs as [|seg rest IH]; [reflexivity|].
  assert (IH' : map pvalText (filter truthy (substituteAll ps rest))
                = filter nonEmpty (expectedAll ps rest))
    by (apply IH; intros s I; apply N; now right).
  destruct rest as [|seg' rest'].
  - cbn [substituteAll expectedAll filter map].
    destruct (@substitute_expected ps true seg S (N seg (or_introl eq_refl)))
      as [T B].
    rewrite B. destruct (nonEmpty (expected ps true seg)); cbn [map];
      now rewrite ?T.
  - change (substituteAll ps (seg :: seg' :: rest'))
      with (substitute ps false seg :: substituteAll ps (seg' :: rest')).
    change (expectedAll ps (seg :: seg' :: rest'))
      with (expected ps false seg :: expectedAll ps (seg' :: rest')).
    cbn [filter].
    destruct (@substitute_expected ps false seg S (N seg (or_introl eq_refl)))
      as [T B].
    rewrite B. destruct (nonEmpty (expected ps false seg)); cbn [map];
      now rewrite ?T, IH'.
Qed.

Lemma requiredNames_parameterNames (segs : list string) (k : string) :
  In k (requiredNames segs) -> In k (parameterNames segs).
Proof.
  unfold requiredNames, parameterNames. rewrite !in_flat_map.
  intros [seg [I H]]. exists seg. split; [exact I|].
  destruct (namedParam seg) as [[name [|]]|]; cbn in *; tauto.
Qed.

(** X29 — for parameter mappings of strings and nulls, as the signature of
    [generatePath] has them, and templates none of whose parameters bears a
    name every object inherits, the templater keeps its contract: it throws
    exactly when a required parameter has no entry or a null one; and when
    every required parameter has a string, the result is the leading slash of
    the template, then the segments in template order, each parameter
    replaced by its entry and the segments that come out empty left out,
    joined by slashes, then the trailing slash of the template. *)
Theorem generatePath_contract_for_plain_names (t : string) (ps : Params) :
  stringParams ps = true ->
  forallb (fun k => negb (inherits k)) (parameterNames (segmentsOf t)) = true ->
  ((exists e, generatePath t ps = Throw e) <->
   (exists k, In k (requiredNames (segmentsOf t))
              /\ (ownParam ps k = None \/ ownParam ps k = Some PNull
                  \/ ownParam ps k = Some PUndefined)))
  /\ ((forall k, In k (requiredNames (segmentsOf t)) ->
                 exists s, ownParam ps k = Some (PStr s)) ->
      generatePath t ps
      = Ok ((if startsWith "/" t then "/" else EmptyString)
            ++ join "/" (filter nonEmpty (expectedAll ps (segmentsOf t)))
            ++ (if endsWith "/" t then "/" else EmptyString))).
Proof.
  intros S H.
  assert (P : forall k, In k (requiredNames (segmentsOf t)) ->
                (isNullish (getParam ps k) = true <->
                 ownParam ps k = None \/ ownParam ps k = Some PNull
                 \/ ownParam ps k = Some PUndefined)).
  { intros k I. apply getParam_plain; [exact S|].
    rewrite forallb_forall in H. apply negb_true_iff. apply H.
    now apply requiredNames_parameterNames. }
  split; [split|].
  - intros [e He]. apply generatePath_throw_inv in He.
    destruct He as [k [_ [I N]]]. rewrite requiredKeys_names in I.
    exists k. split; [exact I|]. now apply P.
  - intros [k [I A]]. apply P in A; [|exact I].
    rewrite generatePath_spec.
    destruct (missingKeys ps (segmentsOf t)) as [|k' ks] eqn:E.
    + rewrite missingKeys_nil in E. rewrite <- requiredKeys_names in I.
      rewrite (E k I) in A. discriminate.
    + now exists (MissingParam k').
  - intros A. rewrite generatePath_present.
    + now rewrite keptTexts_expected.
    + intros k I. rewrite requiredKeys_names in I.
      destruct (isNullish (getParam ps k)) eqn:E; [|reflexivity].
      apply P in E; [|exact I]. destruct (A k I) as [s Hs].
      rewrite Hs in E. destruct E as [E|[E|E]]; discriminate.
Qed.

Lemma generatePath_contract_for_plain_names_witness :
  generatePath "/users/:userId/posts/:postId?/" [("userId", PStr "7")]
  = Ok "/users/7/posts/".
Proof.
  apply (proj2 (@generatePath_contract_for_plain_names
                  "/users/:userId/posts/:postId?/" [("userId", PStr "7")]
                  eq_refl eq_refl)).
  intros k [<-|[]]. now exists "7".
Defined.

Example leftmost_of_two_missing :
  generatePath "/:team/:user" [] = Throw (MissingParam "team").
Proof. reflexivity. Qed.

Lemma join_last (sep x : string) (xs : list string) :
  exists p, join sep (x :: xs) = p ++ last (x :: xs) EmptyString.
Proof.
  revert x. induction xs as [|y ys IH]; intros x.
  - now exists EmptyString.
  - destruct (IH y) as [p E]. exists (x ++ sep ++ p).
    change (join sep (x :: y :: ys)) with (x ++ sep ++ join sep (y :: ys)).
    rewrite E, !append_assoc. reflexivity.
Qed.

Lemma plainText_inv (x : string) :
  plainText x = true ->
  exists c r, x = String c r /\ isSlash c = false /\ slashFree r = true.
Proof.
  unfold plainText. intros H. apply andb_true_iff in H. destruct H as [N S].
  destruct x as [|c r]; [discriminate N|]. cbn in S.
  apply andb_true_iff in S. destruct S as [C R]. apply negb_true_iff in C.
  now exists c, r.
Qed.

Lemma slashFree_lastChar (x : string) (c : ascii) :
  slashFree x = true -> lastChar x = Some c -> isSlash c = false.
Proof.
  induction x as [|d r IH]; [intros _ L; discriminate L|]. intros S L.
  cbn in S. apply andb_true_iff in S. destruct S as [D R]. apply negb_true_iff in D.
  destruct r as [|e r']; [cbn in L; now injection L as <-|].
  apply (IH R). exact L.
Qed.

Lemma lastChar_append (y x : string) :
  x <> EmptyString -> lastChar (y ++ x) = lastChar x.
Proof.
  intros N. destruct x as [|c r]; [congruence|]. apply lastChar_app2.
Qed.

Lemma literalSegment_inv (s : string) :
  literalSegment s = true ->
  plainText s = true /\ keyMatch s = None /\ endsWith "?" s = false.
Proof.
  unfold literalSegment. intros H. apply andb_true_iff in H. destruct H as [H Q].
  apply andb_true_iff in H. destruct H as [P K]. apply negb_true_iff in Q.
  destruct (keyMatch s); [discriminate|]. auto.
Qed.

(** Segments that resolve to themselves whatever the parameters. *)
Lemma substituteAll_passive (ps : Params) (segs : list string) :
  Forall (fun s => keyMatch s = None /\ endsWith "?" s = false) segs ->
  last segs EmptyString <> "*" ->
  substituteAll ps segs = map PStr segs.
Proof.
  induction segs as [|a rest IH]; intros F L; [reflexivity|].
  inversion F as [|? ? [Ka Qa] Fr]; subst.
  assert (P : forall b, (b && String.eqb a "*") = false ->
                        substitute ps b a = PStr a).
  { intros b E. unfold substitute, stripOptionalMarker. now rewrite E, Ka, Qa. }
  destruct rest as [|b rest'].
  - cbn [substituteAll map]. rewrite P; [reflexivity|].
    cbn [last] in L. apply String.eqb_neq in L. now rewrite L.
  - change (substituteAll ps (a :: b :: rest'))
      with (substitute ps false a :: substituteAll ps (b :: rest')).
    rewrite (P false eq_refl), IH; [reflexivity|exact Fr|exact L].
Qed.

Lemma keptTexts_literals (xs : list string) :
  forallb plainText xs = true -> keptTexts (map PStr xs) = xs.
Proof.
  induction xs as [|x r IH]; [reflexivity|]. cbn [forallb]. intros H.
  apply andb_true_iff in H. destruct H as [Hx Hr].
  unfold keptTexts in *. cbn [map filter truthy].
  unfold plainText in Hx. apply andb_true_iff in Hx. destruct Hx as [Hn _].
  rewrite Hn. cbn [map pvalText]. now rewrite IH.
Qed.

(** X4 — a template made of literal segments only (no named parameter, no
    optional marker, no final wildcard) is returned as it is, with its
    leading and trailing slash, whatever the parameters. *)
Theorem literal_template_unchanged
        (leading trailing : bool) (x : string) (xs : list string) (ps : Params) :
  forallb literalSegment (x :: xs) = true ->
  endsWith "*" (templateOf leading trailing (x :: xs)) = false ->
  generatePath (templateOf leading trailing (x :: xs)) ps
  = Ok (templateOf leading trailing (x :: xs)).
Proof.
  intros L Star. set (t := templateOf leading trailing (x :: xs)) in *.
  assert (Pl : forallb plainText (x :: xs) = true).
  { apply forallb_forall. intros s I. rewrite forallb_forall in L.
    specialize (L s I). now apply literalSegment_inv in L. }
  assert (Nz : normalizeStar t = t).
  { unfold normalizeStar, needsStarRewrite. now rewrite Star. }
  assert (Sg : segmentsOf t
               = ((if leading then [EmptyString] else []) ++ (x :: xs)
                  ++ (if trailing then [EmptyString] else []))%list).
  { unfold segmentsOf. rewrite Nz. now apply splitSlashes_expansion. }
  assert (Pa : Forall (fun s => keyMatch s = None /\ endsWith "?" s = false)
                      (segmentsOf t)).
  { rewrite Sg. apply Forall_app. split; [destruct leading; repeat constructor|].
    apply Forall_app. split; [|destruct trailing; repeat constructor].
    apply Forall_forall. intros s I. rewrite forallb_forall in L.
    specialize (L s I). now apply literalSegment_inv in L. }
  assert (La : last (segmentsOf t) EmptyString <> "*").
  { rewrite Sg. destruct trailing.
    - rewrite app_assoc, last_last. discriminate.
    - rewrite app_nil_r. intros E.
      assert (E' : last (x :: xs) EmptyString = "*").
      { destruct leading; [|exact E]. cbn [app] in E.
        rewrite last_cons_nonempty in E by discriminate. exact E. }
      destruct (join_last "/" x xs) as [p J].
      unfold t, templateOf in Star. rewrite J, E', append_empty_r in Star.
      rewrite <- append_assoc, endsWith_app in Star. discriminate. }
  assert (Kp : keptTexts (substituteAll ps (segmentsOf t)) = x :: xs).
  { rewrite (substituteAll_passive ps Pa La), Sg, !map_app, !keptTexts_app.
    rewrite (keptTexts_literals (x :: xs) Pl).
    assert (E : forall b : bool,
               keptTexts (map PStr (if b then [EmptyString] else [])) = [])
      by (intros []; reflexivity).
    now rewrite !E, app_nil_r. }
  destruct (plainText_inv x) as [c [r [Ex [Cx Rx]]]].
  { cbn [forallb] in Pl. now apply andb_true_iff in Pl. }
  assert (Pre : pathPrefix t = if leading then "/" else EmptyString).
  { unfold pathPrefix. rewrite prefix_slash. unfold t, templateOf.
    destruct leading; [reflexivity|]. cbn [append].
    destruct (join_last "/" x xs) as [p J].
    destruct xs as [|y ys]; cbn [join]; rewrite Ex; cbn [append];
      unfold isSlash in Cx; now rewrite Cx. }
  assert (Post : pathTrailingSlash t = if trailing then "/" else EmptyString).
  { unfold pathTrailingSlash. rewrite endsWith_char. unfold t, templateOf.
    destruct trailing.
    - rewrite <- append_assoc, lastChar_app. reflexivity.
    - rewrite append_empty_r. destruct (join_last "/" x xs) as [p J].
      rewrite J, <- append_assoc.
      assert (Il : In (last (x :: xs) EmptyString) (x :: xs))
        by (apply last_In; discriminate).
      rewrite forallb_forall in Pl. specialize (Pl _ Il).
      destruct (plainText_inv _ Pl) as [c' [r' [El [Cl Rl]]]].
      rewrite lastChar_append by (rewrite El; discriminate).
      destruct (lastChar (last (x :: xs) EmptyString)) as [lc|] eqn:Lc; [|reflexivity].
      assert (Sl : slashFree (last (x :: xs) EmptyString) = true)
        by (rewrite El; cbn; now rewrite Cl, Rl).
      pose proof (slashFree_lastChar _ Sl Lc) as Z. unfold isSlash in Z. now rewrite Z. }
  rewrite generatePath_present.
  - rewrite Kp, Pre, Post. reflexivity.
  - intros k I. apply requiredKeys_In in I. destruct I as [s [I M]].
    rewrite Forall_forall in Pa. destruct (Pa s I) as [Kn _]. congruence.
Qed.

Lemma literal_template_unchanged_witness :
  generatePath "/api/v1/users/" [("userId", PStr "7")] = Ok "/api/v1/users/".
Proof.
  apply (@literal_template_unchanged true true "api" ["v1"; "users"]
           [("userId", PStr "7")]); reflexivity.
Defined.

(** X5 — a final wildcard with a value puts that value, as it is (slashes
    included), at the end of the path, after the other segments; the path
    then has no trailing slash. *)
Theorem wildcard_value_ends_the_path (t : string) (ps : Params) (v : string) :
  last (segmentsOf t) EmptyString = "*" ->
  getParam ps "*" = PStr v ->
  v <> EmptyString ->
  (forall k, In k (requiredKeys (segmentsOf t)) -> isNullish (getParam ps k) = false) ->
  generatePath t ps =
  Ok (pathPrefix t
      ++ join "/" (keptTexts (map (substitute ps false) (removelast (segmentsOf t)))
                   ++ [v])%list).
Proof.
  intros Hlast Hv Hn Hreq. rewrite (generatePath_present t ps Hreq).
  rewrite (wildcard_last_no_trailing_slash t Hlast), append_empty_r.
  rewrite substituteAll_last by apply splitRun_nonempty.
  rewrite Hlast, keptTexts_app.
  change (substitute ps true "*") with (getParam ps "*"). rewrite Hv.
  unfold keptTexts at 2. cbn [filter truthy].
  apply String.eqb_neq in Hn. now rewrite Hn.
Qed.

Lemma wildcard_value_ends_the_path_witness :
  generatePath "/files/:owner/*" [("owner", PStr "ana"); ("*", PStr "docs/a.txt")]
  = Ok "/files/ana/docs/a.txt".
Proof.
  rewrite (@wildcard_value_ends_the_path "/files/:owner/*"
             [("owner", PStr "ana"); ("*", PStr "docs/a.txt")] "docs/a.txt").
  - reflexivity.
  - reflexivity.
  - reflexivity.
  - discriminate.
  - intros k [<-|[]]. reflexivity.
Defined.

(** ** Key-casing codec: renaming in general, collisions, the way back *)

Lemma walkEntries_docs2 (walk : string -> value -> Walk)
      (f : value -> value) (entries : list (string * value)) :
  (forall key kv, In kv entries -> walk key (snd kv) = Doc (f (snd kv))) ->
  walkEntries walk entries = Some (map (fun kv => (fst kv, f (snd kv))) entries).
Proof.
  induction entries as [|[k x] r IH]; intros H; [reflexivity|].
  cbn [walkEntries map fst snd]. rewrite (H _ (k, x) (or_introl eq_refl)).
  cbn [snd]. rewrite IH; [reflexivity|]. intros key y Hy. apply H. now right.
Qed.

(** The walk of [serialize] renames every key and touches nothing else, as
    long as no two sibling keys are renamed to the same. *)
Lemma stringifyWalk_renames (x : value) :
  isJson x = true -> distinctAfter underscore x = true ->
  forall fuel key, height x < fuel ->
    stringifyWalk fuel serializeReplacer key x = Doc (renameKeys underscore x).
Proof.
  induction x as [| | | | |items IH|entries IH| |] using value_deep_ind;
    intros J C fuel key F; try discriminate;
    (destruct fuel as [|fuel]; [lia|]); try reflexivity.
  - cbn [stringifyWalk serializeReplacer renameKeys].
    rewrite (@walkItems_docs _ (renameKeys underscore)); [reflexivity|].
    intros k x Hx. rewrite Forall_forall in IH. apply (IH x Hx).
    + cbn [isJson] in J. rewrite forallb_forall in J. now apply J.
    + cbn [distinctAfter] in C. rewrite forallb_forall in C. now apply C.
    + pose proof (height_item x items Hx). cbn [height] in F. lia.
  - cbn [stringifyWalk serializeReplacer renameKeys].
    cbn [isJson] in J. apply andb_true_iff in J. destruct J as [J U].
    cbn [distinctAfter] in C. apply andb_true_iff in C. destruct C as [D C].
    rewrite fromEntries_unique by (now rewrite map_map).
    rewrite (@walkEntries_docs _ underscore (renameKeys underscore)); [reflexivity|].
    intros k kv Hkv. rewrite Forall_forall in IH. apply (IH kv Hkv).
    + rewrite forallb_forall in J. now apply J.
    + rewrite forallb_forall in C. now apply C.
    + pose proof (height_entry kv entries Hkv). cbn [height] in F. lia.
Qed.

Lemma reviveWalk_renames (d : value) :
  isJson d = true -> distinctAfter camelize d = true ->
  forall key, reviveWalk parseReviver key d = renameKeys camelize d.
Proof.
  induction d as [| | | | |items IH|entries IH| |] using value_deep_ind;
    intros J C key; try discriminate; try reflexivity.
  - cbn [renameKeys reviveWalk parseReviver]. f_equal.
    cbn [isJson] in J. cbn [distinctAfter] in C. generalize 0.
    induction items as [|x r IHr]; intros index; [reflexivity|].
    cbn [forallb] in J, C. apply andb_true_iff in J. apply andb_true_iff in C.
    destruct J as [Jx Jr]. destruct C as [Cx Cr].
    inversion IH as [|? ? Hx Hr]; subst. cbn [map]. f_equal.
    + now apply Hx.
    + now apply IHr.
  - cbn [renameKeys reviveWalk parseReviver].
    cbn [isJson] in J. apply andb_true_iff in J. destruct J as [J U].
    cbn [distinctAfter] in C. apply andb_true_iff in C. destruct C as [D C].
    rewrite forallb_forall in J, C.
    assert (E : map (fun kv : string * value =>
                       (fst kv, reviveWalk parseReviver (fst kv) (snd kv))) entries
                = map (fun kv => (fst kv, renameKeys camelize (snd kv))) entries).
    { apply map_ext_in. intros kv Hkv. f_equal.
      rewrite Forall_forall in IH. apply (IH kv Hkv); [now apply J|now apply C]. }
    rewrite E. clear E.
    assert (R : forall v, isJson v = true ->
                          match renameKeys camelize v with
                          | VUndefined => false
                          | _ => true
                          end = true)
      by (intros v Hv; destruct v; try discriminate; reflexivity).
    rewrite forallb_filter_id.
    + rewrite map_map. cbn [fst snd]. rewrite fromEntries_unique; [reflexivity|].
      now rewrite map_map.
    + apply forallb_forall. intros kv Hkv. apply in_map_iff in Hkv.
      destruct Hkv as [e [<- He]]. cbn [snd]. apply R. now apply J.
Qed.

Section CodecFacts.

Variable JSON_text : value -> string.
Variable JSON_read : string -> option value.

(** X6 — [serialize] writes a JSON-compatible value with every object key, at
    any depth, translated by [underscore], and with its arrays, their order
    and every other value untouched, as long as no two keys of one object
    translate to the same key. *)
Theorem serialize_renames_keys_only (x : value) :
  isJson x = true ->
  distinctAfter underscore x = true ->
  serialize JSON_text x = Some (JSON_text (renameKeys underscore x)).
Proof.
  intros J D. unfold serialize. rewrite stringifyWalk_renames; auto.
Qed.

(** X7 — [parse] gives the document read from the text with every object key,
    at any depth, translated by [camelize] and nothing else changed, as long
    as no two keys of one object translate to the same key; a text that does
    not read as JSON makes it fail. *)
Theorem parse_renames_keys_only (input : string) :
  match JSON_read input with
  | None => parse JSON_read input = None
  | Some d =>
      isJson d = true -> distinctAfter camelize d = true ->
      parse JSON_read input = Some (renameKeys camelize d)
  end.
Proof.
  unfold parse. destruct (JSON_read input) as [d|]; [|reflexivity].
  intros J D. now rewrite reviveWalk_renames.
Qed.

(** X8 — [serialize] returns [undefined] instead of a text exactly for the
    values JSON leaves out, [undefined], a symbol or a function; for every
    other value, however deep, it returns a text. *)
Theorem serialize_undefined_only_for_left_out (x : value) :
  serialize JSON_text x = None <->
  match x with
  | VUndefined | VSymbol _ | VFunction _ => True
  | _ => False
  end.
Proof.
  unfold serialize.
  pose proof (@stringifyWalk_total x (S (height x)) EmptyString (Nat.lt_succ_diag_r _)) as T.
  destruct x; cbn [stringifyWalk serializeReplacer] in *;
    try (split; [discriminate|intros []]); try (split; [reflexivity|intros _; reflexivity]);
    try tauto.
  - destruct (walkItems _ 0 items); [split; [discriminate|intros []]|congruence].
  - destruct (walkEntries _ _); [split; [discriminate|intros []]|congruence].
Qed.

Lemma uniqueKeys_app_l (xs ys : list string) :
  uniqueKeys (xs ++ ys) = true -> uniqueKeys xs = true.
Proof.
  induction xs as [|x r IH]; [reflexivity|].
  cbn [app uniqueKeys]. intros H. apply andb_true_iff in H. destruct H as [N U].
  rewrite (IH U), andb_true_r. apply negb_true_iff. apply negb_true_iff in N.
  rewrite existsb_app in N. now apply orb_false_iff in N.
Qed.

Lemma setProp_at {A : Type} (k : string) (v x : A) (a b : list (string * A)) :
  existsb (String.eqb k) (map fst a) = false ->
  setProp k v (a ++ (k, x) :: b) = (a ++ (k, v) :: b)%list.
Proof.
  induction a as [|[k' y] r IH]; intros N.
  - cbn. now rewrite String.eqb_refl.
  - cbn [map fst existsb] in N. apply orb_false_iff in N. destruct N as [Nk Nr].
    cbn [app setProp]. rewrite String.eqb_sym, Nk. now rewrite IH.
Qed.

(** What [Object.fromEntries] makes of entries in which a later key repeats
    an earlier one: the earlier place, the later value. *)
Lemma fromEntries_collision (pre mid post : list (string * value))
      (k : string) (v1 v2 : value) :
  uniqueKeys (map fst (pre ++ (k, v2) :: mid ++ post)) = true ->
  fromEntries (pre ++ (k, v1) :: mid ++ (k, v2) :: post)
  = (pre ++ (k, v2) :: mid ++ post)%list.
Proof.
  intros U. unfold fromEntries.
  replace (pre ++ (k, v1) :: mid ++ (k, v2) :: post)%list
    with ((pre ++ (k, v1) :: mid) ++ (k, v2) :: post)%list
    by (rewrite <- app_assoc; reflexivity).
  rewrite fold_left_app. cbn [fold_left fst snd].
  assert (U1 : uniqueKeys (map fst (pre ++ (k, v1) :: mid)) = true).
  { replace (pre ++ (k, v2) :: mid ++ post)%list
      with ((pre ++ (k, v2) :: mid) ++ post)%list in U
      by (rewrite <- app_assoc; reflexivity).
    rewrite map_app in U. apply uniqueKeys_app_l in U.
    rewrite map_app in *. exact U. }
  rewrite (@fold_setProp_unique _ (pre ++ (k, v1) :: mid) []) by exact U1.
  cbn [app]. rewrite setProp_at.
  - rewrite fold_setProp_unique.
    + now rewrite <- app_assoc.
    + rewrite <- app_assoc. exact U.
  - rewrite map_app in U1. cbn [map fst] in U1.
    now apply uniqueKeys_app_cons in U1.
Qed.

(** X9 — when a later key of an object translates to the same wire key as an
    earlier one, [serialize] writes that key once, at the place of the
    earlier key and with the value of the later one; the earlier value is
    lost, whatever it is, and the other entries are written as usual. *)
Theorem serialize_merges_colliding_keys
        (pre mid post : list (string * value)) (k1 k2 : string) (v1 v2 : value) :
  underscore k1 = underscore k2 ->
  forallb (fun kv => isJson (snd kv)) (pre ++ (k1, v2) :: mid ++ post) = true ->
  distinctAfter underscore (VObject (pre ++ (k1, v2) :: mid ++ post)) = true ->
  serialize JSON_text (VObject (pre ++ (k1, v1) :: mid ++ (k2, v2) :: post))
  = Some (JSON_text
            (renameKeys underscore (VObject (pre ++ (k1, v2) :: mid ++ post)))).
Proof.
  intros E J D. unfold serialize.
  cbn [distinctAfter] in D. apply andb_true_iff in D. destruct D as [U D].
  cbn [stringifyWalk serializeReplacer].
  assert (F : fromEntries
                (map (fun kv => (underscore (fst kv), snd kv))
                     (pre ++ (k1, v1) :: mid ++ (k2, v2) :: post))
              = map (fun kv => (underscore (fst kv), snd kv))
                    (pre ++ (k1, v2) :: mid ++ post)).
  { rewrite !map_app. cbn [map fst snd]. rewrite !map_app. cbn [map fst snd].
    rewrite <- E. apply fromEntries_collision.
    rewrite <- U. rewrite !map_app. cbn [map fst snd]. rewrite !map_app.
    now rewrite !map_map. }
  rewrite F.
  rewrite (@walkEntries_docs _ underscore (renameKeys underscore)); [reflexivity|].
  intros key kv I. apply stringifyWalk_renames.
  - rewrite forallb_forall in J. now apply J.
  - rewrite forallb_forall in D. now apply D.
  - assert (H : exists kv', In kv' (pre ++ (k1, v1) :: mid ++ (k2, v2) :: post)
                            /\ snd kv' = snd kv).
    { apply in_app_or in I. destruct I as [I|[<-|I]].
      - exists kv. split; [apply in_or_app; now left|reflexivity].
      - exists (k2, v2). split; [|reflexivity].
        apply in_or_app. right. right. apply in_or_app. right. now left.
      - exists kv. split; [|reflexivity].
        apply in_or_app. right. right. apply in_app_or in I.
        apply in_or_app. destruct I as [I|I]; [now left|right; now right]. }
    destruct H as [kv' [I' S]]. rewrite <- S.
    pose proof (height_entry kv' _ I') as H. cbn [height]. lia.
Qed.

End CodecFacts.

Lemma serialize_merges_colliding_keys_witness :
  serialize compactText
    (VObject [("id", VNumber 7); ("fooBar", VFunction "f"); ("page", VNull);
              ("foo_bar", VNumber 2); ("lastName", VString "x")])
  = Some ("{" ++ dq ++ "id" ++ dq ++ ":7," ++ dq ++ "foo_bar" ++ dq ++ ":2,"
          ++ dq ++ "page" ++ dq ++ ":null," ++ dq ++ "last_name" ++ dq ++ ":"
          ++ dq ++ "x" ++ dq ++ "}").
Proof.
  exact (@serialize_merges_colliding_keys compactText
           [("id", VNumber 7)] [("page", VNull)] [("lastName", VString "x")]
           "fooBar" "foo_bar" (VFunction "f") (VNumber 2)
           eq_refl eq_refl eq_refl).
Defined.

Lemma serialize_renames_keys_only_witness :
  serialize compactText
    (VObject [("userName", VArray [VObject [("a1", VNull)]; VBool true])])
  = Some ("{" ++ dq ++ "user_name" ++ dq ++ ":[{" ++ dq ++ "a1" ++ dq
          ++ ":null},true]}").
Proof.
  rewrite (@serialize_renames_keys_only compactText
             (VObject [("userName", VArray [VObject [("a1", VNull)]; VBool true])]));
    reflexivity.
Defined.

(** *** From the wire and back *)

Local Ltac by_cases_on_char' c :=
  destruct c as [[] [] [] [] [] [] [] []]; try discriminate; try reflexivity.

Lemma toUpper_lower_isUpper (c : ascii) : isLower c = true -> isUpper (toUpper c) = true.
Proof. by_cases_on_char' c. Qed.

Lemma toLower_toUpper (c : ascii) : isLower c = true -> toLower (toUpper c) = c.
Proof. by_cases_on_char' c. Qed.

Lemma capitalizeParts_lower (b : bool) (c : ascii) (r : string) :
  isLower c = true ->
  capitalizeParts b (String c r)
  = String (if b then toUpper c else c) (capitalizeParts false r).
Proof.
  intros L. cbn [capitalizeParts]. destruct (isLower_plain c L) as [U [S _]].
  now rewrite U, S, L, orb_true_r.
Qed.

(** What [camelize] makes of the tail of a wire key is the tail of a key in
    the internal casing, and [snake] undoes it. *)
Lemma capitalizeParts_snakeTail (r : string) :
  forall need, snakeTail need r = true ->
    match need with
    | 0 => camelTail false (capitalizeParts false r) = true
           /\ snake (capitalizeParts false r) = r
    | 1 => camelTail true (capitalizeParts false r) = true
           /\ snake (capitalizeParts false r) = r
    | 2 => camelTail false (capitalizeParts true r) = true
           /\ snake (capitalizeParts true r) = String "_"%char r
    | _ => True
    end.
Proof.
  induction r as [|c r IH]; intros need H.
  - destruct need as [|[|[|n]]]; try discriminate; try exact I; now split.
  - cbn [snakeTail] in H. destruct (isLower c) eqn:L.
    + specialize (IH _ H).
      destruct need as [|[|[|n]]]; [| | |exact I];
        rewrite capitalizeParts_lower by exact L; cbn [Nat.pred] in IH.
      * cbn [camelTail snake]. rewrite L, (isLower_not_upper c L).
        destruct IH as [A B]. now rewrite A, B.
      * cbn [camelTail snake]. rewrite L, (isLower_not_upper c L).
        destruct IH as [A B]. now rewrite A, B.
      * pose proof (toUpper_lower_isUpper c L) as U.
        cbn [camelTail snake]. rewrite U, (isUpper_not_lower _ U).
        rewrite (toLower_toUpper c L). cbn [negb andb].
        destruct IH as [A B]. now rewrite A, B.
    + destruct (Ascii.eqb c "_") eqn:E; [|discriminate].
      apply Ascii.eqb_eq in E. subst c.
      apply andb_true_iff in H. destruct H as [N H].
      apply Nat.eqb_eq in N. subst need. specialize (IH 2 H).
      change (capitalizeParts false (String "_" r)) with (capitalizeParts true r).
      exact IH.
Qed.

Lemma camelize_snake (c : ascii) (r : string) :
  isSnakeCase (String c r) = true ->
  camelize (String c r) = String c (capitalizeParts false r)
  /\ isCamelCase (camelize (String c r)) = true
  /\ underscore (camelize (String c r)) = String c r.
Proof.
  cbn [isSnakeCase]. intros H. apply andb_true_iff in H. destruct H as [L T].
  assert (E : camelize (String c r) = String c (capitalizeParts false r)).
  { unfold camelize. rewrite (isLower_word c L), (toLower_lower c L).
    apply capitalizeParts_lower. exact L. }
  destruct (capitalizeParts_snakeTail r 0 T) as [A B].
  assert (C : isCamelCase (String c (capitalizeParts false r)) = true)
    by (cbn [isCamelCase]; now rewrite L, A).
  rewrite E. repeat split; [exact C|].
  rewrite (underscore_camel _ _ C). now rewrite B.
Qed.

Lemma underscore_camelize (key : string) :
  isSnakeCase key = true ->
  isCamelCase (camelize key) = true /\ underscore (camelize key) = key.
Proof.
  destruct key as [|c r]; [discriminate|]. intros H.
  now destruct (camelize_snake c r H) as [_ [A B]].
Qed.

Lemma snake_entries_keys (entries : list (string * value)) :
  forallb (fun kv => isSnakeCase (fst kv) && snakeKeys (snd kv)) entries = true ->
  forallb isSnakeCase (map fst entries) = true.
Proof.
  induction entries as [|kv r IH]; cbn [forallb map]; [reflexivity|].
  intros H. apply andb_true_iff in H. destruct H as [H Hr].
  apply andb_true_iff in H. destruct H as [Hk _]. now rewrite Hk, IH.
Qed.

Lemma existsb_camelize (k : string) (ks : list string) :
  isSnakeCase k = true ->
  forallb isSnakeCase ks = true ->
  existsb (String.eqb (camelize k)) (map camelize ks) = existsb (String.eqb k) ks.
Proof.
  intros Hk. induction ks as [|x r IH]; intros H; [reflexivity|].
  cbn [forallb] in H. apply andb_true_iff in H. destruct H as [Hx Hr].
  cbn [map existsb]. rewrite (IH Hr). f_equal.
  destruct (String.eqb k x) eqn:E.
  - apply String.eqb_eq in E. subst. apply String.eqb_refl.
  - apply String.eqb_neq. intros U. apply String.eqb_neq in E. apply E.
    rewrite <- (proj2 (underscore_camelize k Hk)), <- (proj2 (underscore_camelize x Hx)).
    now rewrite U.
Qed.

Lemma uniqueKeys_camelize (ks : list string) :
  forallb isSnakeCase ks = true ->
  uniqueKeys ks = true ->
  uniqueKeys (map camelize ks) = true.
Proof.
  induction ks as [|k r IH]; intros H U; [reflexivity|].
  cbn [forallb] in H. apply andb_true_iff in H. destruct H as [Hk Hr].
  cbn [uniqueKeys] in U. apply andb_true_iff in U. destruct U as [Uk Ur].
  cbn [map uniqueKeys]. rewrite (existsb_camelize k r Hk Hr), Uk. exact (IH Hr Ur).
Qed.

(** A document with keys in the wire casing, once its keys are translated,
    is a value with keys in the internal casing whose wire form is the
    document. *)
Lemma renameKeys_camelize_facts (d : value) :
  isJson d = true -> snakeKeys d = true ->
  distinctAfter camelize d = true
  /\ isJson (renameKeys camelize d) = true
  /\ camelKeys (renameKeys camelize d) = true
  /\ renameKeys underscore (renameKeys camelize d) = d.
Proof.
  induction d as [| | | | |items IH|entries IH| |] using value_deep_ind;
    intros J S; try discriminate; try (repeat split; reflexivity).
  - cbn [isJson] in J. cbn [snakeKeys] in S.
    cbn [distinctAfter isJson camelKeys renameKeys].
    induction items as [|x r IHr]; [repeat split; reflexivity|].
    cbn [forallb] in J, S. apply andb_true_iff in J. apply andb_true_iff in S.
    destruct J as [Jx Jr]. destruct S as [Sx Sr].
    inversion IH as [|? ? Hx Hr]; subst.
    destruct (Hx Jx Sx) as [A [B [C D]]].
    destruct (IHr Hr Jr Sr) as [A' [B' [C' D']]].
    cbn [map forallb]. rewrite A, A', B, B', C, C', D.
    repeat split. injection D' as D'. now rewrite D'.
  - cbn [isJson] in J. apply andb_true_iff in J. destruct J as [J U].
    cbn [snakeKeys] in S. pose proof (snake_entries_keys entries S) as K.
    cbn [distinctAfter isJson camelKeys renameKeys].
    rewrite !map_map. cbn [fst snd].
    assert (UC : uniqueKeys (map (fun kv : string * value => camelize (fst kv)) entries)
                 = true).
    { rewrite <- (map_map fst camelize). now apply uniqueKeys_camelize. }
    rewrite UC. clear UC U K. cbn [andb]. rewrite andb_true_r.
    induction entries as [|[k v] r IHr]; [repeat split; reflexivity|].
    cbn [forallb fst snd] in J, S. apply andb_true_iff in J. apply andb_true_iff in S.
    destruct J as [Jx Jr]. destruct S as [Sx Sr].
    apply andb_true_iff in Sx. destruct Sx as [Sk Sv].
    inversion IH as [|? ? Hx Hr]; subst. cbn [snd] in Hx.
    destruct (Hx Jx Sv) as [A [B [C D]]].
    destruct (IHr Hr Jr Sr) as [A' [B' [C' D']]].
    destruct (underscore_camelize k Sk) as [Ck Uk].
    cbn [map forallb fst snd].
    rewrite A, A', B, B', C, C', D, Ck, Uk.
    repeat split. injection D' as D'. now rewrite D'.
Qed.

Section WireRoundTrip.

Variable JSON_text : value -> string.
Variable JSON_read : string -> option value.

(** X10 — the way back: for a text that reads as a document whose keys are
    all in the wire casing (words of small letters joined by single
    underscores, every word after the first of two letters or more), [parse]
    gives a value whose keys are in the internal casing, and [serialize] of
    that value writes the document again. *)
Theorem serialize_parse_round_trip (input : string) (d : value) :
  JSON_read input = Some d ->
  isJson d = true ->
  snakeKeys d = true ->
  exists x,
    parse JSON_read input = Some x
    /\ camelKeys x = true
    /\ serialize JSON_text x = Some (JSON_text d).
Proof.
  intros R J S. destruct (renameKeys_camelize_facts d J S) as [D [Jx [Cx W]]].
  exists (renameKeys camelize d). split; [|split; [exact Cx|]].
  - unfold parse. rewrite R. now rewrite reviveWalk_renames.
  - unfold serialize. rewrite stringifyWalk_wire; auto. now rewrite W.
Qed.

End WireRoundTrip.

Lemma serialize_parse_round_trip_witness :
  exists x,
    parse suiteRead suiteText = Some x
    /\ camelKeys x = true
    /\ serialize compactText x = Some suiteText.
Proof.
  apply (@serialize_parse_round_trip compactText suiteRead suiteText suiteDocument);
    reflexivity.
Defined.

Example parse_renames_suite :
  parse suiteRead suiteText = Some (renameKeys camelize suiteDocument).
Proof. reflexivity. Qed.

(** A one-letter word before another word does not survive the way back. *)
Example underscore_camelize_a_b_c : underscore (camelize "a_b_c") = "a_bc".
Proof. reflexivity. Qed.

(** ** Query encoder: scalars, endpoints without a search schema, failures *)

Lemma scalarPairs_names (kv : string * value) (p : string * string) :
  In p (scalarPairs kv) -> fst p = fst kv.
Proof.
  unfold scalarPairs. destruct (snd kv) as [| |[|]| | | | | |]; cbn;
    try tauto; intros [<-|[]]; reflexivity.
Qed.

Lemma encodeEntry_flat (sp : SearchParams) (kv : string * value) :
  isFlat (snd kv) = true ->
  existsb (String.eqb (fst kv)) (map fst sp) = false ->
  encodeEntry sp kv = Ok (sp ++ scalarPairs kv)%list.
Proof.
  destruct kv as [k v]. cbn [fst snd]. intros F N. unfold scalarPairs. cbn [fst snd].
  destruct v as [| |[|]| | | | | |]; try discriminate; cbn [encodeEntry valueText];
    rewrite ?spSet_fresh by exact N; rewrite ?app_nil_r; reflexivity.
Qed.

Lemma encodeSearch_flat (entries : list (string * value)) :
  forall sp,
    uniqueKeys (map fst entries) = true ->
    forallb (fun kv => isFlat (snd kv)) entries = true ->
    (forall kv, In kv entries -> ~ In (fst kv) (map fst sp)) ->
    encodeSearch sp entries = Ok (sp ++ flat_map scalarPairs entries)%list.
Proof.
  induction entries as [|kv r IH]; intros sp U F D.
  - cbn. now rewrite app_nil_r.
  - cbn [map uniqueKeys] in U. apply andb_true_iff in U. destruct U as [Uk Ur].
    cbn [forallb] in F. apply andb_true_iff in F. destruct F as [Fk Fr].
    cbn [encodeSearch flat_map]. rewrite encodeEntry_flat.
    + rewrite IH; [now rewrite <- app_assoc|exact Ur|exact Fr|].
      intros kv' I N. rewrite map_app in N. apply in_app_or in N.
      destruct N as [N|N].
      * exact (D kv' (or_intror I) N).
      * apply in_map_iff in N. destruct N as [p [E P]].
        apply scalarPairs_names in P. apply negb_true_iff in Uk.
        apply existsb_false_iff in Uk. apply Uk.
        rewrite <- P, E. apply in_map. exact I.
    + exact Fk.
    + apply existsb_false_iff. apply D. now left.
Qed.

(** X11 — when no value of the validated search structure is an array or an
    object, the query holds one pair per string, boolean or number, under its
    key and in the order of the structure; [null], [undefined], symbols and
    functions leave no trace. *)
Theorem scalar_search_in_order (entries : list (string * value)) :
  uniqueKeys (map fst entries) = true ->
  forallb (fun kv => isFlat (snd kv)) entries = true ->
  encodeSearch [] entries = Ok (flat_map scalarPairs entries).
Proof.
  intros U F. rewrite encodeSearch_flat; auto.
Qed.

Lemma scalar_search_in_order_witness :
  encodeSearch [] [("name", VString "Sergio"); ("nullish", VNull);
                   ("age", VNumber 30); ("isActive", VBool true)]
  = Ok [("name", "Sergio"); ("age", "30"); ("isActive", "true")].
Proof.
  rewrite (@scalar_search_in_order
             [("name", VString "Sergio"); ("nullish", VNull);
              ("age", VNumber 30); ("isActive", VBool true)]); reflexivity.
Defined.

Section SearchStage.

Variable JSON_text : value -> string.
Variable JSON_read : string -> option value.
Variable fetch : Request -> Result Response.

(** X12 — search variables given to an endpoint that has no search schema are
    ignored: the call does exactly what it does without them, and raises
    nothing on their account. *)
Theorem search_without_schema_ignored
        (cfg : Configuration) (token : option string) (endpoint : string)
        (options : RequestOptions) (route : EndpointOptions) :
  lookupEndpoint (endpoints cfg) endpoint = Some route ->
  search route = Absent ->
  request JSON_text JSON_read fetch cfg token endpoint options
  = request JSON_text JSON_read fetch cfg token endpoint (withoutSearch options).
Proof.
  intros L S. unfold request, prepare, buildTarget, checkSignal, buildBody.
  rewrite L. destruct options as [[[p s b]|] hs sg]; [|reflexivity].
  unfold withoutSearch. cbn [variables headers signal var_params var_search var_body].
  destruct s as [s|]; [|reflexivity].
  unfold getSearchParams. rewrite S. reflexivity.
Qed.

(** X13 — a failure of the search stage is the outcome of the call, with
    nothing done on the outside (no credentials hook, no request, no log):
    whether the search schema rejects the variables, its output is [null] or
    [undefined], or a value cannot be written as text. *)
Theorem search_failure_stops_the_call
        (cfg : Configuration) (token : option string) (endpoint : string)
        (options : RequestOptions) (route : EndpointOptions)
        (method : Method) (path generated : string)
        (vars : Variables) (s : value) (schema : Schema) (e : Err) :
  lookupEndpoint (endpoints cfg) endpoint = Some route ->
  parseEndpoint endpoint = Ok (method, path) ->
  generatePath path (suppliedParams options) = Ok generated ->
  variables options = Some vars ->
  var_search vars = Some s ->
  search route = Present schema ->
  schema s = Throw e
  \/ (exists parsed, schema s = Ok parsed /\ objectEntries parsed = Throw e)
  \/ (exists parsed entries,
         schema s = Ok parsed /\ objectEntries parsed = Ok entries
         /\ encodeSearch [] entries = Throw e) ->
  request JSON_text JSON_read fetch cfg token endpoint options = ([], Throw e).
Proof.
  intros L P G V S Sc F.
  unfold request, prepare, buildTarget, getURL.
  rewrite L, P. cbn [lift bind app fst snd].
  assert (G' : generatePath path match match variables options with
                                       | Some v => var_params v
                                       | None => None
                                       end with
                                 | Some q => q
                                 | None => []
                                 end = Ok generated).
  { rewrite <- G. unfold suppliedParams.
    destruct (variables options) as [[[q|] s' b]|]; reflexivity. }
  rewrite G'. cbn [lift bind ret app fst snd]. rewrite V.
  destruct vars as [p s' b]. cbn [var_search] in S. subst s'.
  unfold getSearchParams. rewrite Sc. cbn [searchParams base reference].
  unfold lift, bind, ret.
  destruct F as [F|[[parsed [F1 F2]]|[parsed [entries [F1 [F2 F3]]]]]].
  - now rewrite F.
  - now rewrite F1, F2.
  - now rewrite F1, F2, F3.
Qed.

End SearchStage.

(** An endpoint whose search schema gives [null]. *)
Lemma search_failure_stops_the_call_witness :
  request compactText suiteRead suiteFetch
          {| baseURL := "http://example.com";
             endpoints := [("GET /users",
                            {| params := None; search := Present (fun _ => Ok VNull);
                               body := Absent; expects_success := acceptAll;
                               expects_failure := None |})];
             fetch_headers := []; cfg_measure := None; credentials := None |}
          None "GET /users"
          {| variables := Some {| var_params := None; var_search := Some VNull;
                                  var_body := None |};
             headers := []; signal := None |}
  = ([], Throw EntriesOfNullish).
Proof.
  eapply search_failure_stops_the_call; try reflexivity.
  right. left. exists VNull. split; reflexivity.
Defined.

Lemma search_without_schema_ignored_witness :
  request compactText suiteRead suiteFetch (suiteConfig None) None "GET /users/:userId"
          {| variables := Some {| var_params := Some [("userId", PStr "123")];
                                  var_search := Some (VObject [("page", VNumber 2)]);
                                  var_body := None |};
             headers := []; signal := None |}
  = request compactText suiteRead suiteFetch (suiteConfig None) None "GET /users/:userId"
            (userOptions "123" None).
Proof.
  rewrite (@search_without_schema_ignored compactText suiteRead suiteFetch
             (suiteConfig None) None "GET /users/:userId" _ (userRoute None));
    reflexivity.
Defined.

(** ** Header merger ([mergeHeaders] of [src/index.ts]) *)

Lemma getHeader_setProp (k v : string) (o : Headers) (n : string) :
  getHeader (setProp k v o) n = if String.eqb k n then Some v else getHeader o n.
Proof.
  induction o as [|[k' v'] r IH]; [reflexivity|].
  cbn [setProp]. destruct (String.eqb k' k) eqn:E.
  - apply String.eqb_eq in E. subst k'. cbn [getHeader].
    now destruct (String.eqb k n).
  - cbn [getHeader]. rewrite IH. destruct (String.eqb k' n) eqn:E'; [|reflexivity].
    apply String.eqb_eq in E'. subst k'. rewrite String.eqb_sym. now rewrite E.
Qed.

Lemma getHeader_removeKey (k : string) (o : Headers) (n : string) :
  getHeader (removeKey k o) n = if String.eqb k n then None else getHeader o n.
Proof.
  unfold removeKey. induction o as [|[k' v'] r IH]; [now destruct (String.eqb k n)|].
  cbn [filter fst]. destruct (String.eqb k' k) eqn:E; cbn [negb].
  - rewrite IH. apply String.eqb_eq in E. subst k'. cbn [getHeader].
    now destruct (String.eqb k n).
  - cbn [getHeader]. rewrite IH. destruct (String.eqb k' n) eqn:E'; [|reflexivity].
    apply String.eqb_eq in E'. subst k'. rewrite String.eqb_sym. now rewrite E.
Qed.

Lemma getHeader_absent (h : Headers) (n : string) :
  existsb (String.eqb n) (map fst h) = false <-> getHeader h n = None.
Proof.
  induction h as [|[k v] r IH]; [now split|].
  cbn [map fst existsb getHeader]. rewrite orb_false_iff, IH, String.eqb_sym.
  destruct (String.eqb k n); split; try tauto; try discriminate.
  intros [H _]. discriminate.
Qed.

(** One source applied to the result so far, as the inner loop does. *)
Lemma applySource_lookup (source : Headers) :
  forall (result : Headers) (n : string),
    uniqueKeys (map fst source) = true ->
    getHeader
      (fold_left
         (fun res kv =>
            if String.eqb (snd kv) "undefined" then removeKey (fst kv) res
            else setProp (fst kv) (snd kv) res)
         source result) n
    = afterSource (getHeader result n) source n.
Proof.
  induction source as [|[k v] r IH]; intros result n U; [reflexivity|].
  cbn [map fst uniqueKeys] in U. apply andb_true_iff in U. destruct U as [Uk Ur].
  apply negb_true_iff in Uk.
  cbn [fold_left fst snd]. rewrite (IH _ n Ur). unfold afterSource.
  cbn [getHeader]. destruct (String.eqb k n) eqn:E.
  - apply String.eqb_eq in E. subst n.
    apply getHeader_absent in Uk. rewrite Uk.
    destruct (String.eqb v "undefined").
    + now rewrite getHeader_removeKey, String.eqb_refl.
    + now rewrite getHeader_setProp, String.eqb_refl.
  - destruct (getHeader r n); [reflexivity|].
    destruct (String.eqb v "undefined").
    + now rewrite getHeader_removeKey, E.
    + now rewrite getHeader_setProp, E.
Qed.

Lemma toLower_idempotent (c : ascii) : toLower (toLower c) = toLower c.
Proof. destruct c as [[] [] [] [] [] [] [] []]; reflexivity. Qed.

Lemma lower_idempotent (s : string) :
  mapString toLower (mapString toLower s) = mapString toLower s.
Proof.
  induction s as [|c r IH]; [reflexivity|].
  cbn [mapString]. now rewrite toLower_idempotent, IH.
Qed.

Lemma setProp_keys_known {A : Type} (k : string) (v : A) (o : list (string * A)) :
  existsb (String.eqb k) (map fst o) = true ->
  map fst (setProp k v o) = map fst o.
Proof.
  induction o as [|[k' v'] r IH]; [discriminate|].
  cbn [map fst existsb setProp]. destruct (String.eqb k' k) eqn:E.
  - apply String.eqb_eq in E. now subst.
  - rewrite String.eqb_sym, E. cbn [orb map fst]. intros H. now rewrite IH.
Qed.

Lemma uniqueKeys_snoc (ks : list string) (k : string) :
  uniqueKeys ks = true ->
  existsb (String.eqb k) ks = false ->
  uniqueKeys (ks ++ [k]) = true.
Proof.
  induction ks as [|a r IH]; intros U N; [reflexivity|].
  cbn [uniqueKeys] in U. apply andb_true_iff in U. destruct U as [Ua Ur].
  cbn [existsb] in N. apply orb_false_iff in N. destruct N as [Na Nr].
  cbn [app uniqueKeys]. rewrite (IH Ur Nr), andb_true_r.
  apply negb_true_iff. rewrite existsb_app. apply negb_true_iff in Ua.
  rewrite Ua. cbn. now rewrite String.eqb_sym, Na.
Qed.

Lemma setProp_lowerNames (k v : string) (o : Headers) :
  mapString toLower k = k ->
  lowerNames o = true ->
  lowerNames (setProp k v o) = true.
Proof.
  unfold lowerNames. intros K. induction o as [|[k' v'] r IH]; intros L.
  - cbn. now rewrite K, String.eqb_refl.
  - cbn [forallb fst] in L. apply andb_true_iff in L. destruct L as [La Lr].
    cbn [setProp]. destruct (String.eqb k' k); cbn [forallb fst].
    + now rewrite K, String.eqb_refl.
    + now rewrite La, IH.
Qed.

Lemma setProp_normal (k v : string) (o : Headers) :
  mapString toLower k = k ->
  normalHeaders o = true ->
  normalHeaders (setProp k v o) = true.
Proof.
  unfold normalHeaders. intros K H. apply andb_true_iff in H. destruct H as [U L].
  rewrite (@setProp_lowerNames k v o K L), andb_true_r.
  destruct (existsb (String.eqb k) (map fst o)) eqn:E.
  - now rewrite (@setProp_keys_known _ k v o E).
  - rewrite (@setProp_fresh _ k v o E), map_app. cbn [map fst].
    now apply uniqueKeys_snoc.
Qed.

Lemma filter_uniqueKeys {A : Type} (f : string * A -> bool) (o : list (string * A)) :
  uniqueKeys (map fst o) = true -> uniqueKeys (map fst (filter f o)) = true.
Proof.
  induction o as [|[k v] r IH]; [reflexivity|].
  cbn [map fst uniqueKeys]. intros U. apply andb_true_iff in U. destruct U as [Uk Ur].
  cbn [filter]. destruct (f (k, v)); [|now apply IH].
  cbn [map fst uniqueKeys]. rewrite (IH Ur), andb_true_r.
  apply negb_true_iff. apply negb_true_iff in Uk.
  apply existsb_false_iff. apply existsb_false_iff in Uk. intros I. apply Uk.
  apply in_map_iff in I. destruct I as [x [E I]]. apply filter_In in I.
  apply in_map_iff. exists x. tauto.
Qed.

Lemma removeKey_normal (k : string) (o : Headers) :
  normalHeaders o = true -> normalHeaders (removeKey k o) = true.
Proof.
  unfold normalHeaders, removeKey. intros H. apply andb_true_iff in H.
  destruct H as [U L]. rewrite (filter_uniqueKeys _ o U). cbn [andb].
  unfold lowerNames in *. apply forallb_forall. intros x I. apply filter_In in I. destruct I as [I _].
  rewrite forallb_forall in L. now apply L.
Qed.

Lemma headerAppend_normal (h : Headers) (kv : string * string) :
  normalHeaders h = true -> normalHeaders (headerAppend h kv) = true.
Proof.
  intros H. unfold headerAppend.
  destruct (getHeader h (mapString toLower (fst kv)));
    apply setProp_normal; auto using lower_idempotent.
Qed.

Lemma newHeaders_normal (init : list (string * string)) :
  normalHeaders (newHeaders init) = true.
Proof.
  unfold newHeaders.
  assert (G : forall acc, normalHeaders acc = true ->
                          normalHeaders (fold_left headerAppend init acc) = true).
  { induction init as [|kv r IH]; intros acc H; [exact H|].
    cbn [fold_left]. apply IH. now apply headerAppend_normal. }
  now apply G.
Qed.

(** Copying a [Headers] object gives the same headers. *)
Lemma newHeaders_copy (h : Headers) :
  normalHeaders h = true -> newHeaders h = h.
Proof.
  unfold newHeaders.
  assert (G : forall acc,
             uniqueKeys (map fst (acc ++ h)) = true ->
             lowerNames h = true ->
             fold_left headerAppend h acc = (acc ++ h)%list).
  { induction h as [|[k v] r IH]; intros acc U L; [now rewrite app_nil_r|].
    cbn [lowerNames forallb fst] in L. apply andb_true_iff in L. destruct L as [Lk Lr].
    apply String.eqb_eq in Lk.
    rewrite map_app in U. cbn [map fst] in U.
    apply uniqueKeys_app_cons in U. destruct U as [Uf Uu].
    cbn [fold_left]. unfold headerAppend at 2. cbn [fst snd]. rewrite Lk.
    pose proof (proj1 (getHeader_absent acc k) Uf) as N. rewrite N.
    rewrite setProp_fresh by exact Uf. rewrite IH.
    - now rewrite <- app_assoc.
    - now rewrite !map_app.
    - exact Lr. }
  unfold normalHeaders. intros H. apply andb_true_iff in H. destruct H as [U L].
  now apply G.
Qed.

Lemma mergeLoop_normal (sources : list Headers) :
  forall result,
    normalHeaders result = true ->
    normalHeaders
      (fold_left
         (fun result source =>
            fold_left
              (fun res kv =>
                 if String.eqb (snd kv) "undefined" then removeKey (fst kv) res
                 else setProp (fst kv) (snd kv) res)
              (newHeaders source) result)
         sources result) = true.
Proof.
  induction sources as [|s r IH]; intros result H; [exact H|].
  cbn [fold_left]. apply IH.
  pose proof (newHeaders_normal s) as N. revert result H.
  induction (newHeaders s) as [|[k v] q IHq]; intros result H; [exact H|].
  unfold normalHeaders in N. apply andb_true_iff in N. destruct N as [U L].
  cbn [map fst uniqueKeys] in U. apply andb_true_iff in U. destruct U as [_ U].
  cbn [lowerNames forallb fst] in L. apply andb_true_iff in L. destruct L as [Lk L].
  apply String.eqb_eq in Lk.
  cbn [fold_left fst snd]. apply IHq.
  - unfold normalHeaders, lowerNames. now rewrite U, L.
  - destruct (String.eqb v "undefined");
      [now apply removeKey_normal|now apply setProp_normal].
Qed.

Lemma mergeLoop_lookup (sources : list Headers) (n : string) :
  forall result,
    getHeader
      (fold_left
         (fun result source =>
            fold_left
              (fun res kv =>
                 if String.eqb (snd kv) "undefined" then removeKey (fst kv) res
                 else setProp (fst kv) (snd kv) res)
              (newHeaders source) result)
         sources result) n
    = fold_left (fun acc source => afterSource acc source n)
                (map newHeaders sources) (getHeader result n).
Proof.
  induction sources as [|s r IH]; intros result; [reflexivity|].
  cbn [fold_left map]. rewrite IH. f_equal.
  apply applySource_lookup.
  pose proof (newHeaders_normal s) as N. unfold normalHeaders in N.
  now apply andb_true_iff in N.
Qed.

Lemma afterSource_defined (before : option string) (source : Headers) (name : string) :
  before <> Some "undefined" -> afterSource before source name <> Some "undefined".
Proof.
  intros B. unfold afterSource. destruct (getHeader source name) as [v|]; [|exact B].
  destruct (String.eqb v "undefined") eqn:E; [discriminate|].
  intros H. injection H as H. subst v. discriminate.
Qed.


(** X15 — the merged headers hold every name once and in lower case, and no
    name with the text [undefined] as its value, whatever the sources. *)
Theorem mergeHeaders_names_once_lower_case (sources : list Headers) :
  normalHeaders (mergeHeaders sources) = true
  /\ forall name, getHeader (mergeHeaders sources) name <> Some "undefined".
Proof.
  split; [unfold mergeHeaders; apply newHeaders_normal|].
  intros name. unfold mergeHeaders.
  rewrite newHeaders_copy by (now apply mergeLoop_normal).
  rewrite mergeLoop_lookup. cbn [getHeader].
  assert (G : forall l acc, acc <> Some "undefined" ->
                fold_left (fun acc source => afterSource acc source name) l acc
                <> Some "undefined").
  { induction l as [|h r IH]; intros acc A; [exact A|].
    cbn [fold_left]. apply IH. now apply afterSource_defined. }
  apply G. discriminate.
Qed.

(** The two examples of the specification, and names in mixed case. *)
Example merge_undefined_removes :
  mergeHeaders [newHeaders [("A", "1")]; newHeaders [("A", "undefined")]] = [].
Proof. reflexivity. Qed.

Example merge_later_overrides :
  mergeHeaders [newHeaders [("A", "1"); ("B", "x")]; newHeaders [("a", "2")]]
  = [("a", "2"); ("b", "x")].
Proof. reflexivity. Qed.

(** ** Endpoint identifiers ([request] of [src/index.ts], the guards) *)

Lemma splitChar_nonempty (sep : ascii) (s : string) :
  forall acc, splitChar sep acc s <> [].
Proof.
  induction s as [|c r IH]; intros acc; cbn [splitChar]; [discriminate|].
  destruct (Ascii.eqb c sep); [discriminate|apply IH].
Qed.

Lemma splitChar_one (s : string) :
  forall acc x,
    splitChar " "%char acc s = [x] <-> spaceFree s = true /\ x = acc ++ s.
Proof.
  induction s as [|c r IH]; intros acc x; cbn [splitChar spaceFree].
  - rewrite append_empty_r. split.
    + intros H. injection H as H. now subst.
    + intros [_ H]. now subst.
  - destruct (Ascii.eqb c " "%char) eqn:E; cbn [negb andb].
    + split; [|intros [H _]; discriminate].
      intros H. injection H as _ H. now apply splitChar_nonempty in H.
    + rewrite IH, append_assoc. reflexivity.
Qed.

Lemma splitChar_two (s : string) :
  forall acc x y,
    splitChar " "%char acc s = [x; y]
    <-> exists a, spaceFree a = true /\ x = acc ++ a
                  /\ s = a ++ " " ++ y /\ spaceFree y = true.
Proof.
  induction s as [|c r IH]; intros acc x y; cbn [splitChar].
  - split; [discriminate|].
    intros [a [_ [_ [H _]]]]. destruct a; discriminate.
  - destruct (Ascii.eqb c " "%char) eqn:E.
    + apply Ascii.eqb_eq in E. subst c. split.
      * intros H. injection H as Hx H. apply splitChar_one in H.
        destruct H as [F Hy]. cbn in Hy. subst.
        exists EmptyString. rewrite append_empty_r. now repeat split.
      * intros [a [F [Hx [Hs Fy]]]]. destruct a as [|c' a'].
        -- cbn in Hs. injection Hs as Hs. subst.
           rewrite append_empty_r. f_equal.
           apply splitChar_one. now split.
        -- cbn in Hs. injection Hs as Hc Hs. subst c'. discriminate.
    + rewrite IH. split.
      * intros [a [F [Hx [Hs Fy]]]]. exists (String c a).
        cbn [spaceFree]. rewrite E, F. subst. rewrite append_assoc.
        now repeat split.
      * intros [a [F [Hx [Hs Fy]]]]. destruct a as [|c' a'].
        -- cbn in Hs. injection Hs as Hc _. subst c. discriminate.
        -- cbn in Hs. injection Hs as Hc Hs. subst c'.
           cbn [spaceFree] in F. rewrite E in F. cbn in F.
           exists a'. subst. rewrite append_assoc. now repeat split.
Qed.

Lemma methodOfString_name (s : string) (m : Method) :
  methodOfString s = Some m <-> s = methodName m.
Proof.
  unfold methodOfString. split.
  - repeat match goal with
           | |- context [String.eqb s ?x] =>
               destruct (String.eqb s x) eqn:?;
               [match goal with H : String.eqb _ _ = true |- _ =>
                  apply String.eqb_eq in H; subst s end;
                intros H; injection H as H; subst m; reflexivity|]
           end.
    discriminate.
  - intros H. subst s. destruct m; reflexivity.
Qed.

Lemma methodName_spaceFree (m : Method) : spaceFree (methodName m) = true.
Proof. destruct m; reflexivity. Qed.

Lemma append_cancel_spaceFree (a b y y' : string) :
  spaceFree a = true -> spaceFree b = true ->
  a ++ " " ++ y = b ++ " " ++ y' -> a = b /\ y = y'.
Proof.
  revert b. induction a as [|c a IH]; intros b Fa Fb H.
  - destruct b as [|d b]; cbn in H.
    + injection H as H. now split.
    + injection H as Hc _. subst d. discriminate.
  - destruct b as [|d b]; cbn in H.
    + injection H as Hc _. subst c. discriminate.
    + injection H as Hc H. subst d.
      cbn [spaceFree] in Fa, Fb.
      apply andb_true_iff in Fa. apply andb_true_iff in Fb.
      destruct (IH b (proj2 Fa) (proj2 Fb) H) as [E1 E2]. now subst.
Qed.

Lemma parseEndpoint_parts (endpoint : string) (method : Method) (path : string) :
  parseEndpoint endpoint = Ok (method, path) ->
  endpoint = methodName method ++ " " ++ path /\ spaceFree path = true.
Proof.
  unfold parseEndpoint.
  destruct (splitChar " "%char EmptyString endpoint) as [|m [|p [|q l]]] eqn:S;
    try discriminate.
  destruct (methodOfString m) as [mm|] eqn:M; [|discriminate].
  intros H. injection H as H1 H2. subst mm p.
  apply methodOfString_name in M.
  apply splitChar_two in S. destruct S as [a [_ [Hm [Hs Fy]]]].
  cbn in Hm. subst. now split.
Qed.

Lemma parseEndpoint_throws (endpoint : string) :
  (forall method path, parseEndpoint endpoint <> Ok (method, path)) ->
  exists what, parseEndpoint endpoint = Throw (ZodError what).
Proof.
  intros N. unfold parseEndpoint in *.
  destruct (splitChar " "%char EmptyString endpoint) as [|m [|p [|q l]]];
    try (now eexists).
  destruct (methodOfString m) as [mm|]; [|now eexists].
  now destruct (N mm p).
Qed.

(** X16 — an endpoint identifier is accepted exactly when it is one of the
    five method names, one space, and a path without a space; the method and
    the path are then those two parts. *)
Theorem endpoint_identifier_shape (endpoint : string) (method : Method) (path : string) :
  parseEndpoint endpoint = Ok (method, path)
  <-> endpoint = methodName method ++ " " ++ path /\ spaceFree path = true.
Proof.
  split; [apply parseEndpoint_parts|].
  intros [H F]. unfold parseEndpoint.
  assert (S : splitChar " "%char EmptyString endpoint = [methodName method; path]).
  { apply splitChar_two. exists (methodName method).
    repeat split; auto using methodName_spaceFree. }
  rewrite S. now rewrite (proj2 (methodOfString_name _ method) eq_refl).
Qed.

Example endpoint_with_two_spaces :
  parseEndpoint "GET /users /all" = Throw (ZodError "endpoint").
Proof. reflexivity. Qed.

Example endpoint_in_lower_case :
  parseEndpoint "get /users" = Throw (ZodError "method").
Proof. reflexivity. Qed.

Section Guards.

Variable JSON_text : value -> string.
Variable JSON_read : string -> option value.
Variable fetch : Request -> Result Response.

(** X17 — the two guards on the endpoint come before everything else: an
    endpoint the configuration does not list fails with the missing-endpoint
    error, a listed one that is not a method, a space and a path fails
    validation; in both cases nothing has happened yet, neither the
    credentials hook nor the measurer nor the transport was called.  The
    first case is stated for identifiers with a space in them: the [in] test
    also finds the names every object inherits, and none of those has one. *)
Theorem endpoint_guards_come_first
        (cfg : Configuration) (token : option string) (endpoint : string)
        (options : RequestOptions) :
  (spaceFree endpoint = false ->
   lookupEndpoint (endpoints cfg) endpoint = None ->
   request JSON_text JSON_read fetch cfg token endpoint options
   = ([], Throw (MissingEndpoint endpoint)))
  /\ (forall route,
        lookupEndpoint (endpoints cfg) endpoint = Some route ->
        (forall method path,
            spaceFree path = true ->
            endpoint <> methodName method ++ " " ++ path) ->
        exists what,
          request JSON_text JSON_read fetch cfg token endpoint options
          = ([], Throw (ZodError what))).
Proof.
  split.
  - intros _ L. unfold request, prepare, buildTarget. now rewrite L.
  - intros route L N.
    destruct (parseEndpoint_throws endpoint) as [what P].
    { intros method path H. apply parseEndpoint_parts in H.
      destruct H as [H F]. exact (N method path F H). }
    exists what. unfold request, prepare, buildTarget. rewrite L, P. reflexivity.
Qed.

End Guards.

Lemma endpoint_guards_come_first_witness :
  request compactText suiteRead suiteFetch (suiteConfig None) None
          "GET /posts" (userOptions "1" None)
  = ([], Throw (MissingEndpoint "GET /posts"))
  /\ exists what,
       request compactText suiteRead suiteFetch listConfig None
               "FETCH /users" plainOptions
       = ([], Throw (ZodError what)).
Proof.
  split.
  - apply (proj1 (endpoint_guards_come_first compactText suiteRead suiteFetch
                    (suiteConfig None) None "GET /posts" (userOptions "1" None)));
      reflexivity.
  - apply (proj2 (endpoint_guards_come_first compactText suiteRead suiteFetch
                    listConfig None "FETCH /users" plainOptions) listRoute).
    + reflexivity.
    + intros method path _. destruct method; discriminate.
Defined.

(** ** The engine before the transport ([request] of [src/index.ts]) *)

Lemma searchStage_trace (route : EndpointOptions) (url : URL) (options : RequestOptions) :
  fst (match variables options with
       | Some {| var_search := Some s |} => getSearchParams route url s
       | _ => ret url
       end) = [].
Proof.
  destruct (variables options) as [[q [sv|] b]|]; try reflexivity.
  apply getSearchParams_trace.
Qed.

Lemma searchStage_outcome (route : EndpointOptions) (cfg : Configuration)
      (generated : string) (options : RequestOptions) (ts : list Event) (url : URL) :
  match variables options with
  | Some {| var_search := Some s |} =>
      getSearchParams route
        {| base := baseURL cfg; reference := slice1 generated; searchParams := [] |} s
  | _ => ret {| base := baseURL cfg; reference := slice1 generated; searchParams := [] |}
  end = (ts, Ok url) ->
  base url = baseURL cfg /\ searchOutcome route options (searchParams url).
Proof.
  unfold searchOutcome.
  destruct (variables options) as [[q [sv|] b]|];
    try (intros H; injection H as _ <-; now split).
  unfold getSearchParams. destruct (search route) as [| |schema]; cbn;
    try discriminate; try (intros H; injection H as _ <-; now split).
  destruct (schema sv) as [parsed|] eqn:E1; [|discriminate]. cbn.
  destruct (objectEntries parsed) as [entries|] eqn:E2; [|discriminate]. cbn.
  destruct (encodeSearch [] entries) as [sp|] eqn:E3; [|discriminate]. cbn.
  intros H. injection H as _ <-. cbn. split; [reflexivity|].
  exists parsed, entries. auto.
Qed.

Lemma buildTarget_plain (cfg : Configuration) (token : option string)
      (endpoint : string) (options : RequestOptions) (t : list Event)
      (route : EndpointOptions) (method : Method) (url : URL) (hs : Headers) :
  credentials cfg = None ->
  buildTarget cfg token endpoint options = (t, Ok (route, method, url, hs)) ->
  t = [] /\ hs = baseHeaders cfg options /\ base url = baseURL cfg
  /\ searchOutcome route options (searchParams url).
Proof.
  intros C. unfold buildTarget.
  destruct (lookupEndpoint (endpoints cfg) endpoint) as [r0|]; [|discriminate].
  destruct (parseEndpoint endpoint) as [[m p]|]; [|discriminate].
  cbn [lift bind app fst snd]. unfold getURL.
  destruct (generatePath p _) as [generated|]; [|discriminate].
  cbn [lift bind ret app fst snd].
  match goal with |- context [bind ?m _] =>
    assert (T : fst m = []) by apply searchStage_trace;
    assert (S : forall ts u, m = (ts, Ok u) ->
                             base u = baseURL cfg
                             /\ searchOutcome r0 options (searchParams u))
      by apply searchStage_outcome;
    destruct m as [ts [url'|]]; [|discriminate] end.
  cbn [fst] in T. subst ts. destruct (S _ _ eq_refl) as [S1 S2].
  rewrite C. cbn. intros H. injection H as <- <- <- <- <-.
  now repeat split.
Qed.

Lemma buildTarget_hook (cfg : Configuration) (token : option string)
      (endpoint : string) (options : RequestOptions)
      (hook : URL -> Headers -> option string -> Result (URL * Headers)) :
  credentials cfg = Some hook ->
  buildTarget cfg token endpoint options
  = match buildTarget (withCredentials None cfg) token endpoint options with
    | (_, Ok (route, method, url0, hs0)) =>
        ([EvCredentials],
         match hook url0 hs0 token with
         | Ok uh => Ok (route, method, fst uh, snd uh)
         | Throw e => Throw e
         end)
    | (_, Throw e) => ([], Throw e)
    end.
Proof.
  intros C. unfold buildTarget, withCredentials.
  cbn [endpoints baseURL fetch_headers credentials]. rewrite C.
  destruct (lookupEndpoint (endpoints cfg) endpoint) as [r0|]; [|reflexivity].
  destruct (parseEndpoint endpoint) as [[m p]|]; [|reflexivity].
  cbn [lift bind app fst snd]. unfold getURL. cbn [baseURL].
  destruct (generatePath p _) as [generated|]; [|reflexivity].
  cbn [lift bind ret app fst snd].
  match goal with |- context [bind ?m _] =>
    assert (T : fst m = []) by apply searchStage_trace;
    destruct m as [ts [url'|]] end; cbn [fst] in T; subst ts; [|reflexivity].
  cbn [bind emit lift ret app fst snd].
  destruct (hook url' _ token) as [[u h]|]; reflexivity.
Qed.

Lemma prepare_events (JSON_text : value -> string) (cfg : Configuration)
      (token : option string) (endpoint : string) (options : RequestOptions) :
  fst (prepare JSON_text cfg token endpoint options) = []
  \/ fst (prepare JSON_text cfg token endpoint options) = [EvCredentials].
Proof.
  assert (B : fst (buildTarget cfg token endpoint options) = []
              \/ fst (buildTarget cfg token endpoint options) = [EvCredentials]).
  { destruct (credentials cfg) as [hook|] eqn:C.
    - rewrite (@buildTarget_hook cfg token endpoint options hook C).
      destruct (buildTarget _ token endpoint options) as [t0 [[[[r m] u] h]|e]];
        cbn; auto.
    - destruct (buildTarget cfg token endpoint options)
        as [t0 [[[[r m] u] h]|e]] eqn:E.
      + apply (@buildTarget_plain cfg token endpoint options _ _ _ _ _ C) in E. left. cbn. tauto.
      + revert E. unfold buildTarget.
        destruct (lookupEndpoint (endpoints cfg) endpoint) as [r0|];
          [|intros H; injection H as <- _; now left].
        destruct (parseEndpoint endpoint) as [[m p]|];
          [|intros H; injection H as <- _; now left].
        cbn [lift bind app fst snd]. unfold getURL.
        destruct (generatePath p _) as [generated|];
          [|intros H; injection H as <- _; now left].
        cbn [lift bind ret app fst snd].
        match goal with |- context [bind ?m _] =>
          assert (T : fst m = []) by apply searchStage_trace;
          destruct m as [ts [url'|]] end; cbn [fst] in T; subst ts;
          [|intros H; injection H as <- _; now left].
        rewrite C. cbn. discriminate. }
  unfold prepare.
  destruct (buildTarget cfg token endpoint options) as [t [[[[route method] url] hs]|e]];
    cbn [fst] in B; [|exact B].
  cbn [bind]. unfold checkSignal.
  pose proof (buildBody_trace JSON_text method options route) as Bd.
  destruct (signal options) as [[|]|]; cbn [throw ret bind app];
    try (rewrite app_nil_r; exact B);
    destruct (buildBody JSON_text method options route) as [tb [b|e]];
    cbn [fst] in Bd; subst tb; cbn; rewrite app_nil_r; exact B.
Qed.

Section Stages.

Variable JSON_text : value -> string.
Variable JSON_read : string -> option value.
Variable fetch : Request -> Result Response.

Lemma prepare_withMeasure (m : option Measurer) (cfg : Configuration)
      (token : option string) (endpoint : string) (options : RequestOptions) :
  prepare JSON_text (withMeasure m cfg) token endpoint options
  = prepare JSON_text cfg token endpoint options.
Proof. reflexivity. Qed.

Lemma logs_filtered (t : list Event) :
  logged t = [] -> forallb (fun ev => negb (isLog ev)) t = true.
Proof.
  induction t as [|[| | |k] r IH]; cbn; auto. discriminate.
Qed.

(** X18 — an error raised while the request is being prepared reaches the
    caller as it is, and the measurer is not called: whatever measurer is
    configured, the outcome is the same, nothing is sent, no body is read
    and nothing is logged. *)
Theorem preparation_failure_skips_measurer
        (cfg : Configuration) (token : option string) (endpoint : string)
        (options : RequestOptions) (e : Err) :
  snd (prepare JSON_text cfg token endpoint options) = Throw e ->
  forall m,
    request JSON_text JSON_read fetch (withMeasure m cfg) token endpoint options
    = (fst (prepare JSON_text cfg token endpoint options), Throw e)
    /\ dispatched (fst (request JSON_text JSON_read fetch (withMeasure m cfg)
                                token endpoint options)) = []
    /\ bodyReads (fst (request JSON_text JSON_read fetch (withMeasure m cfg)
                               token endpoint options)) = 0
    /\ logged (fst (request JSON_text JSON_read fetch (withMeasure m cfg)
                            token endpoint options)) = [].
Proof.
  intros H m.
  assert (R : request JSON_text JSON_read fetch (withMeasure m cfg) token endpoint options
              = (fst (prepare JSON_text cfg token endpoint options), Throw e)).
  { rewrite (@request_unprepared JSON_text JSON_read fetch (withMeasure m cfg)
               token endpoint options e);
      rewrite prepare_withMeasure; [reflexivity|exact H]. }
  rewrite R. cbn [fst].
  destruct (prepare_trace JSON_text cfg token endpoint options) as [D B].
  repeat split; auto.
  destruct (prepare_events JSON_text cfg token endpoint options) as [E|E]; now rewrite E.
Qed.

(** X19 — a body that the endpoint's body schema rejects stops the call with
    the schema's error: the transport is not reached. *)
Theorem body_rejection_stops_the_call
        (cfg : Configuration) (token : option string) (endpoint : string)
        (options : RequestOptions) (t : list Event) (route : EndpointOptions)
        (method : Method) (url : URL) (hs : Headers)
        (vars : Variables) (bv : value) (schema : Schema) (e : Err) :
  buildTarget cfg token endpoint options = (t, Ok (route, method, url, hs)) ->
  signal options <> Some true ->
  method <> GET ->
  variables options = Some vars ->
  var_body vars = Some bv ->
  body route = Present schema ->
  schema bv = Throw e ->
  request JSON_text JSON_read fetch cfg token endpoint options = (t, Throw e).
Proof.
  intros B S M V Vb Br Sc. unfold request, prepare. rewrite B. cbn [bind].
  unfold checkSignal, buildBody, getBody.
  rewrite V. destruct vars as [q s b]. cbn in Vb. subst b. rewrite Br, Sc.
  assert (G : isGET method = false) by (destruct method; try reflexivity; congruence).
  rewrite G.
  destruct (signal options) as [[|]|]; [congruence| |]; cbn;
    now rewrite app_nil_r.
Qed.

(** X20 — with a credentials hook, the request that is sent is the one the
    same client without a hook would send, with its URL and headers replaced
    by what the hook made of them; the hook runs once and sees the token. *)
Theorem credentials_hook_edits_the_request
        (cfg : Configuration) (token : option string) (endpoint : string)
        (options : RequestOptions)
        (hook : URL -> Headers -> option string -> Result (URL * Headers))
        (t0 : list Event) (route : EndpointOptions) (rq0 : Request)
        (u : URL) (h : Headers) :
  credentials cfg = Some hook ->
  prepare JSON_text (withCredentials None cfg) token endpoint options
  = (t0, Ok (route, rq0)) ->
  hook (rq_url rq0) (rq_headers rq0) token = Ok (u, h) ->
  relays (measurerOf cfg) ->
  dispatched (fst (request JSON_text JSON_read fetch cfg token endpoint options))
  = [ {| rq_url := u; rq_method := rq_method rq0; rq_headers := h;
         rq_signal := rq_signal rq0; rq_body := rq_body rq0 |} ]
  /\ hookRuns (fst (request JSON_text JSON_read fetch cfg token endpoint options)) = 1.
Proof.
  intros C P H R.
  apply prepare_inv in P. destruct P as [tt [tb [B [S [Bd Sg]]]]].
  pose proof (buildBody_trace JSON_text (rq_method rq0) options route) as T.
  rewrite Bd in T. cbn in T. subst tb.
  assert (P : prepare JSON_text cfg token endpoint options
              = ([EvCredentials],
                 Ok (route,
                     {| rq_url := u; rq_method := rq_method rq0; rq_headers := h;
                        rq_signal := rq_signal rq0; rq_body := rq_body rq0 |}))).
  { unfold prepare. rewrite (@buildTarget_hook cfg token endpoint options hook C), B, H.
    cbn [bind fst snd]. unfold checkSignal. rewrite Sg.
    destruct (signal options) as [[|]|]; [congruence| |];
      cbn [ret bind app]; rewrite Bd; reflexivity. }
  split.
  - exact (@request_dispatches_prepared JSON_text JSON_read fetch _ _ _ _ _ _ _ P R).
  - destruct (@request_prepared JSON_text JSON_read fetch _ _ _ _ _ _ _ P R) as [pre [post [Hp [Hq E]]]].
    rewrite E. cbn [fst]. unfold hookRuns.
    rewrite !filter_app, !length_app.
    assert (L : forall l, forallb isLog l = true ->
                          List.length (filter (fun ev => match ev with
                                                         | EvCredentials => true
                                                         | _ => false end) l) = 0).
    { induction l as [|[| | |k] r IH]; cbn; auto; discriminate. }
    rewrite (L _ Hp), (L _ Hq).
    unfold dispatch. cbn [emit bind lift].
    destruct (fetch _) as [response|]; [|reflexivity]. cbn [bind].
    destruct (negb _); [reflexivity|]. cbn [bind emit lift].
    destruct (parse JSON_read (text response)); [|reflexivity]. cbn [bind].
    match goal with |- context [classify ?a ?b ?c ?d] =>
      pose proof (classify_trace a b c d) as K;
      destruct (classify a b c d) as [tk rk] end.
    cbn in K. subst tk. reflexivity.
Qed.

(** X21 — an error thrown by the credentials hook stops the call with that
    error: nothing is sent, and the hook was reached before the abort signal
    was looked at. *)
Theorem credentials_hook_failure_stops_the_call
        (cfg : Configuration) (token : option string) (endpoint : string)
        (options : RequestOptions)
        (hook : URL -> Headers -> option string -> Result (URL * Headers))
        (t0 : list Event) (route : EndpointOptions) (method : Method)
        (url0 : URL) (hs0 : Headers) (e : Err) :
  credentials cfg = Some hook ->
  buildTarget (withCredentials None cfg) token endpoint options
  = (t0, Ok (route, method, url0, hs0)) ->
  hook url0 hs0 token = Throw e ->
  request JSON_text JSON_read fetch cfg token endpoint options
  = ([EvCredentials], Throw e).
Proof.
  intros C B H. unfold request, prepare.
  rewrite (@buildTarget_hook cfg token endpoint options hook C), B, H. reflexivity.
Qed.




(** X23 — without a credentials hook, the query pairs of the request sent are
    those the specification gives the entries of what the endpoint's search
    schema returned for the search variables, one entry after the other, and
    there are none when the call has no search variables or the endpoint no
    search schema.  This is for a base and an expanded path without a
    question mark, which would bring a query of their own, and for entries
    whose keys are distinct and cannot be taken for the [key[k]] of an
    object entry. *)
Theorem query_comes_from_search_schema
        (cfg : Configuration) (token : option string) (endpoint : string)
        (options : RequestOptions) (t : list Event) (route : EndpointOptions)
        (rq : Request) :
  credentials cfg = None ->
  includes "?" (baseURL cfg) = false ->
  includes "?" (reference (rq_url rq)) = false ->
  prepare JSON_text cfg token endpoint options = (t, Ok (route, rq)) ->
  relays (measurerOf cfg) ->
  (forall vars s schema entries,
      variables options = Some vars -> var_search vars = Some s ->
      search route = Present schema ->
      schema s = Ok (VObject entries) ->
      uniqueKeys (map fst entries) = true ->
      bracketFree entries = true ->
      map (fun sent => Ok (searchParams (rq_url sent)))
          (dispatched (fst (request JSON_text JSON_read fetch cfg token
                                    endpoint options)))
      = [queryOf entries])
  /\ ((forall vars, variables options = Some vars -> var_search vars = None)
      \/ search route = Absent ->
      map (fun sent => searchParams (rq_url sent))
          (dispatched (fst (request JSON_text JSON_read fetch cfg token
                                    endpoint options)))
      = [[]]).
Proof.
  intros C _ _ P R.
  rewrite (@request_dispatches_prepared JSON_text JSON_read fetch _ _ _ _ _ _ _ P R).
  cbn [map].
  apply prepare_inv in P. destruct P as [tt [tb [B _]]].
  apply (@buildTarget_plain cfg token endpoint options _ _ _ _ _ C) in B.
  destruct B as [_ [_ [_ S]]]. unfold searchOutcome in S. split.
  - intros vars s schema entries V Vs Sr Sc U Bf. rewrite V in S.
    destruct vars as [q s' b]. cbn in Vs. subst s'. rewrite Sr in S.
    destruct S as [parsed [entries' [S1 [S2 S3]]]].
    rewrite Sc in S1. injection S1 as <-. cbn in S2. injection S2 as <-.
    rewrite encodeSearch_closed in S3 by (auto; intros kv _ []).
    destruct (queryOf entries) as [ps|e]; [|discriminate].
    now injection S3 as <-.
  - intros [N|A]; f_equal.
    + destruct (variables options) as [[q [sv|] b]|]; auto.
      specialize (N _ eq_refl). discriminate.
    + destruct (variables options) as [[q [sv|] b]|]; auto.
      now rewrite A in S.
Qed.

End Stages.

(** ** The engine after the transport ([request] and [measure] of
    [src/index.ts]) *)

Lemma hookRuns_app (t u : list Event) :
  hookRuns (t ++ u) = hookRuns t + hookRuns u.
Proof. unfold hookRuns. now rewrite filter_app, length_app. Qed.

Lemma logged_app (t u : list Event) :
  logged (t ++ u) = (logged t ++ logged u)%list.
Proof. unfold logged. apply flat_map_app. Qed.

Lemma logs_hook_nothing (t : list Event) :
  forallb isLog t = true -> hookRuns t = 0.
Proof.
  induction t as [|[| | |k] r IH]; cbn; auto; discriminate.
Qed.

Section Outcomes.

Variable JSON_text : value -> string.
Variable JSON_read : string -> option value.
Variable fetch : Request -> Result Response.

Lemma dispatch_events (endpoint : string) (route : EndpointOptions) (rq : Request) :
  fst (dispatch JSON_read fetch endpoint route rq) = [EvFetch rq]
  \/ fst (dispatch JSON_read fetch endpoint route rq) = [EvFetch rq; EvReadBody].
Proof.
  unfold dispatch. cbn [emit bind lift].
  destruct (fetch rq) as [response|]; [|now left]. cbn [bind].
  destruct (negb _); [now left|]. cbn [bind emit lift].
  destruct (parse JSON_read (text response)); [|now right]. cbn [bind].
  match goal with |- context [classify ?a ?b ?c ?d] =>
    pose proof (classify_trace a b c d) as K;
    destruct (classify a b c d) as [tk rk] end.
  cbn in K. subst tk. now right.
Qed.

Lemma dispatch_invalid_json (endpoint : string) (route : EndpointOptions)
      (rq : Request) (response : Response) :
  fetch rq = Ok response ->
  saysJson response = true ->
  parse JSON_read (text response) = None ->
  dispatch JSON_read fetch endpoint route rq
  = ([EvFetch rq; EvReadBody], Throw (InvalidJsonResponse endpoint)).
Proof.
  intros F J P. unfold dispatch. rewrite F. cbn [emit bind lift].
  unfold saysJson in J. rewrite J. cbn [negb bind]. now rewrite P.
Qed.

Lemma dispatch_transport (endpoint : string) (route : EndpointOptions)
      (rq : Request) (e : Err) :
  fetch rq = Throw e ->
  dispatch JSON_read fetch endpoint route rq = ([EvFetch rq], Throw e).
Proof. intros F. unfold dispatch. now rewrite F. Qed.

(** X24 — with a measurer that relays, one call sends at most one request,
    reads a response body at most once and only after sending, and runs the
    credentials hook at most once. *)
Theorem one_request_per_call
        (cfg : Configuration) (token : option string) (endpoint : string)
        (options : RequestOptions) :
  relays (measurerOf cfg) ->
  List.length (dispatched (fst (request JSON_text JSON_read fetch cfg token
                                        endpoint options))) <= 1
  /\ bodyReads (fst (request JSON_text JSON_read fetch cfg token endpoint options))
     <= List.length (dispatched (fst (request JSON_text JSON_read fetch cfg token
                                              endpoint options)))
  /\ hookRuns (fst (request JSON_text JSON_read fetch cfg token endpoint options)) <= 1.
Proof.
  intros R.
  destruct (prepare_trace JSON_text cfg token endpoint options) as [D B].
  assert (H : hookRuns (fst (prepare JSON_text cfg token endpoint options)) <= 1).
  { destruct (prepare_events JSON_text cfg token endpoint options) as [E|E];
      rewrite E; cbn; lia. }
  destruct (prepare JSON_text cfg token endpoint options) as [t [[route rq]|e]] eqn:P.
  - destruct (@request_prepared JSON_text JSON_read fetch _ _ _ _ _ _ _ P R)
      as [pre [post [Hp [Hq E]]]].
    rewrite E. cbn [fst] in *.
    rewrite !dispatched_app, !bodyReads_app, !hookRuns_app, !length_app.
    destruct (logs_dispatch_nothing _ Hp) as [Dp Bp].
    destruct (logs_dispatch_nothing _ Hq) as [Dq Bq].
    rewrite D, B, Dp, Bp, Dq, Bq, (logs_hook_nothing _ Hp), (logs_hook_nothing _ Hq).
    destruct (dispatch_events endpoint route rq) as [V|V]; rewrite V; cbn; lia.
  - rewrite (@request_unprepared JSON_text JSON_read fetch cfg token endpoint options e)
      by (now rewrite P).
    rewrite P. cbn [fst] in *. rewrite D, B. cbn. lia.
Qed.

(** X25 — a response that says it is JSON but whose body does not parse fails
    the call with the invalid-JSON error naming the endpoint, whatever its
    status; the body was read once. *)
Theorem invalid_json_rejected
        (cfg : Configuration) (token : option string) (endpoint : string)
        (options : RequestOptions) (t : list Event) (route : EndpointOptions)
        (rq : Request) (response : Response) :
  prepare JSON_text cfg token endpoint options = (t, Ok (route, rq)) ->
  relays (measurerOf cfg) ->
  fetch rq = Ok response ->
  saysJson response = true ->
  parse JSON_read (text response) = None ->
  snd (request JSON_text JSON_read fetch cfg token endpoint options)
  = Throw (InvalidJsonResponse endpoint)
  /\ bodyReads (fst (request JSON_text JSON_read fetch cfg token endpoint options)) = 1.
Proof.
  intros P R F J N.
  destruct (prepare_trace JSON_text cfg token endpoint options) as [_ B].
  rewrite P in B. cbn [fst] in B.
  destruct (@request_prepared JSON_text JSON_read fetch _ _ _ _ _ _ _ P R)
    as [pre [post [Hp [Hq E]]]].
  rewrite E, (@dispatch_invalid_json endpoint route rq response F J N). cbn [fst snd].
  split; [reflexivity|].
  rewrite !bodyReads_app, B.
  destruct (logs_dispatch_nothing _ Hp) as [_ Bp].
  destruct (logs_dispatch_nothing _ Hq) as [_ Bq].
  rewrite Bp, Bq. reflexivity.
Qed.

(** X26 — an error of the transport reaches the caller as it is; no body is
    read. *)
Theorem transport_error_reaches_caller
        (cfg : Configuration) (token : option string) (endpoint : string)
        (options : RequestOptions) (t : list Event) (route : EndpointOptions)
        (rq : Request) (e : Err) :
  prepare JSON_text cfg token endpoint options = (t, Ok (route, rq)) ->
  relays (measurerOf cfg) ->
  fetch rq = Throw e ->
  snd (request JSON_text JSON_read fetch cfg token endpoint options) = Throw e
  /\ bodyReads (fst (request JSON_text JSON_read fetch cfg token endpoint options)) = 0.
Proof.
  intros P R F.
  destruct (prepare_trace JSON_text cfg token endpoint options) as [_ B].
  rewrite P in B. cbn [fst] in B.
  destruct (@request_prepared JSON_text JSON_read fetch _ _ _ _ _ _ _ P R)
    as [pre [post [Hp [Hq E]]]].
  rewrite E, (@dispatch_transport endpoint route rq e F). cbn [fst snd].
  split; [reflexivity|].
  rewrite !bodyReads_app, B.
  destruct (logs_dispatch_nothing _ Hp) as [_ Bp].
  destruct (logs_dispatch_nothing _ Hq) as [_ Bq].
  rewrite Bp, Bq. reflexivity.
Qed.

(** X27 — when the schema that applies to the response rejects the parsed
    body, the call fails with the schema's error: the success schema on a 2xx
    status, the failure schema on a 4xx status. *)
Theorem schema_rejection_reaches_caller
        (cfg : Configuration) (token : option string) (endpoint : string)
        (options : RequestOptions) (t : list Event) (route : EndpointOptions)
        (rq : Request) (response : Response) (parsed : value) (e : Err) :
  prepare JSON_text cfg token endpoint options = (t, Ok (route, rq)) ->
  relays (measurerOf cfg) ->
  fetch rq = Ok response ->
  saysJson response = true ->
  parse JSON_read (text response) = Some parsed ->
  ((200 <= status response < 300)%Z ->
   expects_success route parsed = Throw e ->
   snd (request JSON_text JSON_read fetch cfg token endpoint options) = Throw e)
  /\ ((400 <= status response < 500)%Z ->
      forall FailureSchema,
        expects_failure route = Some FailureSchema ->
        FailureSchema parsed = Throw e ->
        snd (request JSON_text JSON_read fetch cfg token endpoint options) = Throw e).
Proof.
  intros P R F J Pa.
  rewrite (@request_classifies JSON_text JSON_read fetch cfg token endpoint options
             t route rq response parsed P R F J Pa).
  unfold classify. split.
  - intros [A B] S.
    apply Z.leb_le in A. apply Z.ltb_lt in B. rewrite A, B. cbn [andb].
    destruct (expects_failure route); cbn; now rewrite S.
  - intros [A B] FS Ef S.
    assert (N : ((200 <=? status response)%Z && (status response <? 300)%Z) = false).
    { apply andb_false_iff. right. apply Z.ltb_ge. lia. }
    rewrite N. apply Z.leb_le in A. apply Z.ltb_lt in B. rewrite A, B. cbn [andb].
    rewrite Ef. cbn. now rewrite S.
Qed.

(** X28 — the default measurer logs the endpoint once, after everything the
    call did to the outside, whether the call succeeds or throws; nothing
    else of a prepared call is logged. *)
Theorem default_measurer_logs_last
        (cfg : Configuration) (token : option string) (endpoint : string)
        (options : RequestOptions) (t : list Event) (route : EndpointOptions)
        (rq : Request) :
  cfg_measure cfg = None ->
  prepare JSON_text cfg token endpoint options = (t, Ok (route, rq)) ->
  exists before,
    fst (request JSON_text JSON_read fetch cfg token endpoint options)
    = (before ++ [EvLog endpoint])%list
    /\ logged before = []
    /\ dispatched before = [rq].
Proof.
  intros M P. unfold request, measurerOf. rewrite P, M. cbn [bind fst snd measure].
  exists (t ++ fst (dispatch JSON_read fetch endpoint route rq))%list.
  rewrite app_assoc. split; [reflexivity|].
  rewrite logged_app, dispatched_app.
  destruct (prepare_trace JSON_text cfg token endpoint options) as [D _].
  rewrite P in D. cbn [fst] in D. rewrite D.
  rewrite (dispatch_dispatched JSON_read fetch endpoint route rq).
  split; [|reflexivity].
  pose proof (prepare_events JSON_text cfg token endpoint options) as E.
  rewrite P in E. cbn [fst] in E.
  destruct (dispatch_events endpoint route rq) as [V|V]; rewrite V;
    destruct E as [E|E]; rewrite E; reflexivity.
Qed.

End Outcomes.

(** ** The engine on the scenarios *)

Lemma preparation_failure_skips_measurer_witness :
  request compactText suiteRead suiteFetch
          (withMeasure (Some (fun _ fn => fn)) (suiteConfig None)) None
          "GET /users/:userId" (userOptions "123" (Some true))
  = ([], Throw AbortError).
Proof.
  apply (proj1 (@preparation_failure_skips_measurer compactText suiteRead suiteFetch
                  (suiteConfig None) None "GET /users/:userId"
                  (userOptions "123" (Some true)) AbortError eq_refl
                  (Some (fun _ fn => fn)))).
Defined.

Lemma body_rejection_stops_the_call_witness :
  request compactText suiteRead suiteFetch listConfig None "POST /strict"
          (bodyOptions (VObject [("fooBar", VString "baz")]))
  = ([], Throw (ZodError "rejected")).
Proof.
  eapply (@body_rejection_stops_the_call compactText suiteRead suiteFetch listConfig
            None "POST /strict" (bodyOptions (VObject [("fooBar", VString "baz")]))
            [] (strictRoute (Present rejectAll)) POST);
    try reflexivity; discriminate.
Defined.

Lemma credentials_hook_edits_the_request_witness :
  dispatched (fst (request compactText suiteRead suiteFetch
                           (withCredentials (Some headerHook) (suiteConfig None))
                           (Some "abc") "GET /users/:userId" (userOptions "123" None)))
  = [ {| rq_url := {| base := "http://example.com"; reference := "users/123";
                      searchParams := [] |};
         rq_method := GET; rq_headers := [("authorization", "abc")];
         rq_signal := None; rq_body := None |} ].
Proof.
  apply (proj1 (@credentials_hook_edits_the_request compactText suiteRead suiteFetch
                  (withCredentials (Some headerHook) (suiteConfig None))
                  (Some "abc") "GET /users/:userId" (userOptions "123" None)
                  headerHook [] (userRoute None) (userRequest "123" None)
                  (rq_url (userRequest "123" None)) [("authorization", "abc")]
                  eq_refl eq_refl eq_refl measure_relays)).
Defined.

Lemma credentials_hook_failure_stops_the_call_witness :
  request compactText suiteRead suiteFetch
          (withCredentials (Some refusingHook) (suiteConfig None))
          None "GET /users/:userId" (userOptions "123" (Some true))
  = ([EvCredentials], Throw (HookError "no credentials")).
Proof.
  apply (@credentials_hook_failure_stops_the_call compactText suiteRead suiteFetch
           (withCredentials (Some refusingHook) (suiteConfig None))
           None "GET /users/:userId" (userOptions "123" (Some true))
           refusingHook [] (userRoute None) GET
           (rq_url (userRequest "123" None)) [] (HookError "no credentials")
           eq_refl eq_refl eq_refl).
Defined.


Lemma query_comes_from_search_schema_witness :
  map (fun sent => searchParams (rq_url sent))
      (dispatched (fst (request compactText suiteRead suiteFetch listConfig None
                                "GET /users" pagedOptions)))
  = [[("page", "2"); ("tags", "a"); ("tags", "b")]]
  /\ map (fun sent => searchParams (rq_url sent))
         (dispatched (fst (request compactText suiteRead suiteFetch listConfig None
                                   "GET /strict" plainOptions)))
     = [[]].
Proof.
  split.
  - pose proof (proj1 (@query_comes_from_search_schema compactText suiteRead
                         suiteFetch listConfig None "GET /users" pagedOptions []
                         listRoute pagedRequest
                         eq_refl eq_refl eq_refl eq_refl measure_relays)
                      _ _ acceptAll _ eq_refl eq_refl eq_refl eq_refl eq_refl eq_refl)
      as H.
    destruct (dispatched _) as [|sent [|more rest]]; try discriminate H.
    cbn [map] in H. injection H as H. cbn [map]. now rewrite H.
  - apply (proj2 (@query_comes_from_search_schema compactText suiteRead
                    suiteFetch listConfig None "GET /strict" plainOptions []
                    (strictRoute Absent) strictRequest
                    eq_refl eq_refl eq_refl eq_refl measure_relays)).
    right. reflexivity.
Defined.

Lemma one_request_per_call_witness :
  List.length (dispatched (fst (request compactText suiteRead suiteFetch
                                        (suiteConfig None) None "GET /users/:userId"
                                        (userOptions "123" None)))) <= 1.
Proof.
  apply (proj1 (@one_request_per_call compactText suiteRead suiteFetch
                  (suiteConfig None) None "GET /users/:userId"
                  (userOptions "123" None) measure_relays)).
Defined.

Lemma invalid_json_rejected_witness :
  snd (request compactText suiteRead brokenFetch (suiteConfig None) None
               "GET /users/:userId" (userOptions "123" None))
  = Throw (InvalidJsonResponse "GET /users/:userId").
Proof.
  apply (proj1 (@invalid_json_rejected compactText suiteRead brokenFetch
                  (suiteConfig None) None "GET /users/:userId"
                  (userOptions "123" None) [] (userRoute None)
                  (userRequest "123" None)
                  {| status := 200; contentType := Some "application/json";
                     text := "Internal server error" |}
                  eq_refl measure_relays eq_refl eq_refl eq_refl)).
Defined.

Lemma transport_error_reaches_caller_witness :
  snd (request compactText suiteRead downFetch (suiteConfig None) None
               "GET /users/:userId" (userOptions "123" None))
  = Throw AbortError.
Proof.
  apply (proj1 (@transport_error_reaches_caller compactText suiteRead downFetch
                  (suiteConfig None) None "GET /users/:userId"
                  (userOptions "123" None) [] (userRoute None)
                  (userRequest "123" None) AbortError
                  eq_refl measure_relays eq_refl)).
Defined.

Lemma schema_rejection_reaches_caller_witness :
  snd (request compactText suiteRead (steadyFetch 200) listConfig None
               "GET /strict" plainOptions)
  = Throw (ZodError "rejected")
  /\ snd (request compactText suiteRead (steadyFetch 404) listConfig None
                  "GET /strict" plainOptions)
     = Throw (ZodError "rejected").
Proof.
  split.
  - apply (proj1 (@schema_rejection_reaches_caller compactText suiteRead
                    (steadyFetch 200) listConfig None "GET /strict" plainOptions
                    [] (strictRoute Absent) strictRequest (jsonResponse 200)
                    suiteUser (ZodError "rejected")
                    eq_refl measure_relays eq_refl eq_refl eq_refl));
      [cbn; lia|reflexivity].
  - apply (proj2 (@schema_rejection_reaches_caller compactText suiteRead
                    (steadyFetch 404) listConfig None "GET /strict" plainOptions
                    [] (strictRoute Absent) strictRequest (jsonResponse 404)
                    suiteUser (ZodError "rejected")
                    eq_refl measure_relays eq_refl eq_refl eq_refl) ltac:(cbn; lia)
                 rejectAll eq_refl eq_refl).
Defined.

Lemma default_measurer_logs_last_witness :
  exists before,
    fst (request compactText suiteRead suiteFetch (suiteConfig None) None
                 "GET /users/:userId" (userOptions "500" None))
    = (before ++ [EvLog "GET /users/:userId"])%list
    /\ logged before = []
    /\ dispatched before = [userRequest "500" None].
Proof.
  apply (@default_measurer_logs_last compactText suiteRead suiteFetch
           (suiteConfig None) None "GET /users/:userId" (userOptions "500" None)
           [] (userRoute None) (userRequest "500" None) eq_refl eq_refl).
Defined.

